(** * Decimal-safe arithmetic of fs-utils-lib

    A shallow embedding of the precise-arithmetic helpers
    ([getDecimalPlaces], [preciseAdd], [preciseSubtract], [preciseMultiply],
    [preciseDivide], [preciseCalculate], [formatNumber]) and of the fluent
    [Calculator] class.

    JavaScript numbers are IEEE-754 binary64 values; they are modelled by
    [spec_float] at precision 53 and maximal exponent 1024, with the
    operations of the Standard Library's executable specification of
    floating-point arithmetic (round to nearest, ties to even).  The host
    functions the code calls ([Number.prototype.toString],
    [Number.prototype.toFixed], [Math.round] and the like) follow the
    ECMAScript specification. *)

From Stdlib Require Import ZArith Bool List String Ascii Lia.
From Stdlib Require Import SpecFloat.
Import ListNotations.

Local Open Scope Z_scope.

(** ** JavaScript numbers *)

Module JsNumber.

Definition prec : Z := 53.
Definition emax : Z := 1024.

Definition number := spec_float.

Definition NaN : number := S754_nan.

(** The operators [+], [-], [*] and [/] on numbers. *)
Definition fadd : number -> number -> number := SFadd prec emax.
Definition fsub : number -> number -> number := SFsub prec emax.
Definition fmul : number -> number -> number := SFmul prec emax.
Definition fdiv : number -> number -> number := SFdiv prec emax.

(** [x === y] and [x < y] on numbers. *)
Definition strict_eq : number -> number -> bool := SFeqb.
Definition lt : number -> number -> bool := SFltb.

(** The number nearest to an integer. *)
Definition of_Z (z : Z) : number := binary_normalize prec emax z 0 false.

(** The number nearest to [s * 10^q]: the value of a decimal literal. *)
Definition of_decimal (s q : Z) : number :=
  if 0 <=? q then of_Z (s * 10 ^ q)
  else
    match s with
    | Z0 => S754_zero false
    | Zpos p => fdiv (S754_finite false p 0)
                    (S754_finite false (Z.to_pos (10 ^ (- q))) 0)
    | Zneg p => fdiv (S754_finite true p 0)
                    (S754_finite false (Z.to_pos (10 ^ (- q))) 0)
    end.

(** Structural equality; on canonical numbers it is identity of values
    (it tells [+0] from [-0]). *)
Definition same (x y : number) : bool :=
  match x, y with
  | S754_zero a, S754_zero b => Bool.eqb a b
  | S754_infinity a, S754_infinity b => Bool.eqb a b
  | S754_nan, S754_nan => true
  | S754_finite a m e, S754_finite b n f =>
      Bool.eqb a b && Pos.eqb m n && Z.eqb e f
  | _, _ => false
  end.

Definition is_zero (x : number) : bool :=
  match x with S754_zero _ => true | _ => false end.

Definition is_finite (x : number) : bool :=
  match x with
  | S754_zero _ | S754_finite _ _ _ => true
  | _ => false
  end.

End JsNumber.

Import JsNumber.

(** ** Host functions on numbers and strings *)

Module Host.

Local Open Scope string_scope.
Local Open Scope Z_scope.

(** The character of a decimal digit. *)
Definition digit (d : Z) : ascii := ascii_of_N (48 + Z.to_N d).

(** The decimal digits of [z] put in front of [acc], the last one first. *)
Fixpoint digits_onto (fuel : nat) (z : Z) (acc : string) : string :=
  match fuel with
  | O => acc
  | S fuel' =>
      let acc' := String (digit (z mod 10)) acc in
      if z <? 10 then acc' else digits_onto fuel' (z / 10) acc'
  end.

(** Decimal digits of a natural number, most significant first. *)
Definition digits (z : Z) : string :=
  digits_onto (S (Z.to_nat (Z.log2 z))) z "".

Definition len (s : string) : Z := Z.of_nat (String.length s).

Fixpoint zeros (n : nat) : string :=
  match n with
  | O => EmptyString
  | S n' => String "0" (zeros n')
  end.

(** The value of a positive finite number [m * 2^e] as a fraction. *)
Definition fraction (m : positive) (e : Z) : Z * Z :=
  if 0 <=? e then (Zpos m * 2 ^ e, 1) else (Zpos m, 2 ^ (- e)).

(** [j] least with [N * 10^j >= D], for [0 < N < D]. *)
Fixpoint leading (fuel : nat) (N D j : Z) : Z :=
  match fuel with
  | O => j
  | S fuel' => if D <=? N * 10 then j else leading fuel' (N * 10) D (j + 1)
  end.

(** The decimal exponent [n] of [N / D]: [10^(n-1) <= N / D < 10^n]. *)
Definition decimal_exponent (N D : Z) : Z :=
  if D <=? N then len (digits (N / D)) else 1 - leading 400 N D 1.

(** [N / D] in units of [10^q], as a fraction. *)
Definition scaled (N D q : Z) : Z * Z :=
  if 0 <=? q then (N, D * 10 ^ q) else (N * 10 ^ (- q), D).

(** The [k]-digit decimal [s * 10^(n-k)] that reads back as [x], if one
    exists; of two, the one nearer to [x], and the even one on a tie. *)
Definition candidate (x : number) (N D n k : Z) : option (Z * Z) :=
  let q := n - k in
  let '(A, B) := scaled N D q in
  let lo := A / B in
  let r := A mod B in
  let hi := lo + 1 in
  let ok_lo := same (of_decimal lo q) x in
  let ok_hi := same (of_decimal hi q) x in
  let pick :=
    if r =? 0 then Some lo
    else
      match ok_lo, ok_hi with
      | true, true =>
          match 2 * r ?= B with
          | Lt => Some lo
          | Gt => Some hi
          | Eq => Some (if Z.even lo then lo else hi)
          end
      | true, false => Some lo
      | false, true => Some hi
      | false, false => None
      end in
  match pick with
  | Some s => Some (if s =? 10 ^ k then (10 ^ (k - 1), n + 1) else (s, n))
  | None => None
  end.

(** The shortest decimal that reads back as [x], searched by increasing
    number of digits [k]. *)
Fixpoint shortest (fuel : nat) (x : number) (N D n k : Z) : Z * Z :=
  match fuel with
  | O => (0, n)
  | S fuel' =>
      match candidate x N D n k with
      | Some sn => sn
      | None => shortest fuel' x N D n (k + 1)
      end
  end.

(** Digits [s] and exponent [n] of Number::toString for a positive
    finite number. *)
Definition shortest_digits (m : positive) (e : Z) : string * Z :=
  let '(N, D) := fraction m e in
  let n := decimal_exponent N D in
  let '(s, n') := shortest 17 (S754_finite false m e) N D n 1 in
  (digits s, n').

Definition take (n : Z) (s : string) : string :=
  substring 0 (Z.to_nat n) s.
Definition drop (n : Z) (s : string) : string :=
  substring (Z.to_nat n) (String.length s - Z.to_nat n) s.

(** Number::toString(x, 10) for a positive finite number. *)
Definition positive_toString (m : positive) (e : Z) : string :=
  let '(s, n) := shortest_digits m e in
  let k := len s in
  if (-5 <=? n) && (n <=? 21) then
    if k <=? n then s ++ zeros (Z.to_nat (n - k))
    else if 0 <? n then take n s ++ "." ++ drop n s
    else "0." ++ zeros (Z.to_nat (- n)) ++ s
  else
    let c := if 0 <? n - 1 then "+" else "-" in
    let ex := digits (Z.abs (n - 1)) in
    if k =? 1 then s ++ "e" ++ c ++ ex
    else take 1 s ++ "." ++ drop 1 s ++ "e" ++ c ++ ex.

(** [num.toString()] *)
Definition toString (x : number) : string :=
  match x with
  | S754_nan => "NaN"
  | S754_zero _ => "0"
  | S754_infinity false => "Infinity"
  | S754_infinity true => "-Infinity"
  | S754_finite false m e => positive_toString m e
  | S754_finite true m e => "-" ++ positive_toString m e
  end.

(** *** Math *)

Definition Math_abs : number -> number := SFabs.
Definition Math_sqrt : number -> number := SFsqrt prec emax.

(** The integer [r] as a number, or the zero of sign [s] for [r = 0]. *)
Definition integral (s : bool) (r : Z) : number :=
  if r =? 0 then S754_zero s else of_Z r.

(** [Math.round]: the nearest integer, the one nearer to [+Infinity] on a
    tie; [-0] for an argument in [[-0.5, -0]]. *)
Definition Math_round (x : number) : number :=
  match x with
  | S754_finite s m e =>
      if 0 <=? e then x
      else integral s ((2 * cond_Zopp s (Zpos m) + 2 ^ (- e)) / 2 ^ (1 - e))
  | _ => x
  end.

Definition Math_floor (x : number) : number :=
  match x with
  | S754_finite s m e =>
      if 0 <=? e then x
      else integral s (cond_Zopp s (Zpos m) / 2 ^ (- e))
  | _ => x
  end.

Definition Math_ceil (x : number) : number :=
  match x with
  | S754_finite s m e =>
      if 0 <=? e then x
      else integral s (- (cond_Zopp (negb s) (Zpos m) / 2 ^ (- e)))
  | _ => x
  end.

(** *** Number.prototype.toFixed *)

(** ToIntegerOrInfinity of a number: [None] stands for an infinity. *)
Definition ToIntegerOrInfinity (x : number) : option Z :=
  match x with
  | S754_nan | S754_zero _ => Some 0
  | S754_infinity _ => None
  | S754_finite s m e =>
      Some (cond_Zopp s (if 0 <=? e then Zpos m * 2 ^ e
                         else Zpos m / 2 ^ (- e)))
  end.

(** The digits of [toFixed] for the fraction [N / D >= 0] below [10^21]
    and [f] fraction digits. *)
Definition fixed_digits (N D f : Z) : string :=
  let n := (2 * N * 10 ^ f + D) / (2 * D) in
  let m := if n =? 0 then "0" else digits n in
  if f =? 0 then m
  else
    let m := if len m <=? f then zeros (Z.to_nat (f + 1 - len m)) ++ m
             else m in
    let k := len m in
    take (k - f) m ++ "." ++ drop (k - f) m.

Definition positive_toFixed (m : positive) (e f : Z) : string :=
  let '(N, D) := fraction m e in
  if D * 10 ^ 21 <=? N then positive_toString m e
  else fixed_digits N D f.

(** [x.toFixed(f)]; [None] is the RangeError for [f] outside [0..100]. *)
Definition toFixed (x : number) (fractionDigits : number) : option string :=
  match ToIntegerOrInfinity fractionDigits with
  | None => None
  | Some f =>
      if (f <? 0) || (100 <? f) then None
      else
        Some match x with
             | S754_finite false m e => positive_toFixed m e f
             | S754_finite true m e => "-" ++ positive_toFixed m e f
             | S754_zero _ => fixed_digits 0 1 f
             | _ => toString x
             end
  end.

(** *** Strings *)

(** [str.indexOf(c)] for a one-character needle, [-1] when absent. *)
Fixpoint indexOf_from (c : ascii) (s : string) (i : Z) : Z :=
  match s with
  | EmptyString => -1
  | String d t => if Ascii.eqb d c then i else indexOf_from c t (i + 1)
  end.

Definition indexOf (s : string) (c : ascii) : Z := indexOf_from c s 0.

(** *** Regular expressions

    The fragment the library's patterns need, with the backtracking
    semantics of ECMAScript: quantifiers are greedy, and [replace] without
    the [g] flag rewrites the leftmost match only. *)

Inductive regex :=
| Chr (c : ascii)
| Opt (r : regex)
| Plus (r : regex)
| Seq (r1 r2 : regex)
| Eos.

(** One or more iterations of [step], longest first. *)
Fixpoint iterate (fuel : nat)
    (step : string -> (string -> option string) -> option string)
    (s : string) (k : string -> option string) : option string :=
  match fuel with
  | O => None
  | S fuel' =>
      step s (fun t =>
        match iterate fuel' step t k with
        | Some u => Some u
        | None => k t
        end)
  end.

(** [matches r s k]: [r] matches a prefix of [s] and the continuation [k]
    accepts what follows; the result is what [k] returns. *)
Fixpoint matches (r : regex) (s : string)
    (k : string -> option string) : option string :=
  match r with
  | Chr c =>
      match s with
      | String d t => if Ascii.eqb d c then k t else None
      | EmptyString => None
      end
  | Opt r' =>
      match matches r' s k with
      | Some u => Some u
      | None => k s
      end
  | Plus r' => iterate (S (String.length s)) (matches r') s k
  | Seq r1 r2 => matches r1 s (fun t => matches r2 t k)
  | Eos =>
      match s with
      | EmptyString => k s
      | String _ _ => None
      end
  end.

(** [s.replace(r, by)]: the leftmost match of [r] replaced. *)
Fixpoint replace (r : regex) (by_ : string) (s : string) : string :=
  match matches r s Some with
  | Some rest => by_ ++ rest
  | None =>
      match s with
      | EmptyString => s
      | String c t => String c (replace r by_ t)
      end
  end.

End Host.

Import Host.

(** ** Exceptions *)

Inductive exn :=
| Error (message : string)
| RangeError.

Inductive completion (A : Type) :=
| Return (a : A)
| Throw (e : exn).

Arguments Return {A} a.
Arguments Throw {A} e.

(** An omitted argument takes the parameter's default value. *)
Definition default {A : Type} (d : A) (arg : option A) : A :=
  match arg with
  | Some a => a
  | None => d
  end.

(** ** The precise-arithmetic functions *)

Section Precise.

(** [Math.pow] is implementation-approximated in ECMAScript: it is a
    parameter of the development. *)
Variable Math_pow : number -> number -> number.

Definition getDecimalPlaces (num : number) : Z :=
  let str := toString num in
  let decimalIndex := indexOf str "."%char in
  if decimalIndex =? -1 then 0 else len str - decimalIndex - 1.

Definition preciseAdd (a b : number) : number :=
  let decimalPlacesA := getDecimalPlaces a in
  let decimalPlacesB := getDecimalPlaces b in
  let maxDecimalPlaces := Z.max decimalPlacesA decimalPlacesB in
  let multiplier := Math_pow (of_Z 10) (of_Z maxDecimalPlaces) in
  fdiv (Math_round (fadd (fmul a multiplier) (fmul b multiplier))) multiplier.

Definition preciseSubtract (a b : number) : number :=
  let decimalPlacesA := getDecimalPlaces a in
  let decimalPlacesB := getDecimalPlaces b in
  let maxDecimalPlaces := Z.max decimalPlacesA decimalPlacesB in
  let multiplier := Math_pow (of_Z 10) (of_Z maxDecimalPlaces) in
  fdiv (Math_round (fsub (fmul a multiplier) (fmul b multiplier))) multiplier.

Definition preciseMultiply (a b : number) : number :=
  let decimalPlacesA := getDecimalPlaces a in
  let decimalPlacesB := getDecimalPlaces b in
  let multiplier :=
    Math_pow (of_Z 10) (of_Z (decimalPlacesA + decimalPlacesB)) in
  fdiv (Math_round (fmul (fmul a multiplier) b)) multiplier.

Definition DivisionByZero : exn := Error "除数不能为零".

Definition preciseDivide (a b : number) (precision : option number)
    : completion number :=
  let precision := default (of_Z 10) precision in
  if strict_eq b (of_Z 0) then Throw DivisionByZero
  else
    let multiplier := Math_pow (of_Z 10) precision in
    Return (fdiv (Math_round (fmul (fdiv a b) multiplier)) multiplier).

Definition UnsupportedOperator (operator : string) : exn :=
  Error ("不支持的运算符: " ++ operator).

Definition preciseCalculate (a : number) (operator : string) (b : number)
    (precision : option number) : completion number :=
  let precision := default (of_Z 10) precision in
  if String.eqb operator "+" then Return (preciseAdd a b)
  else if String.eqb operator "-" then Return (preciseSubtract a b)
  else if String.eqb operator "*" then Return (preciseMultiply a b)
  else if String.eqb operator "/" then preciseDivide a b (Some precision)
  else Throw (UnsupportedOperator operator).

(** The pattern [/\.?0+$/]. *)
Definition trailing_zeros : regex :=
  Seq (Opt (Chr ".")) (Seq (Plus (Chr "0")) Eos).

Definition formatNumber (num : number) (decimals : option number)
    (removeTrailingZeros : option bool) : completion string :=
  let decimals := default (of_Z 2) decimals in
  let removeTrailingZeros := default false removeTrailingZeros in
  match toFixed num decimals with
  | None => Throw RangeError
  | Some formatted =>
      if removeTrailingZeros then Return (replace trailing_zeros "" formatted)
      else Return formatted
  end.

End Precise.

(** ** The Calculator class

    Instances live in a heap and are handled through references, so that
    "returns the same instance" is a statement about references.  A method
    call maps a heap to a completion and a heap: a thrown exception leaves
    the heap as the call had made it up to the throw. *)

Record Calculator := { value : number }.

Definition ref := nat.

Record heap := { cells : ref -> Calculator; next : ref }.

Definition M (A : Type) : Type := heap -> completion A * heap.

Definition ret {A : Type} (a : A) : M A := fun h => (Return a, h).

Definition throw {A : Type} (e : exn) : M A := fun h => (Throw e, h).

Definition bind {A B : Type} (m : M A) (f : A -> M B) : M B :=
  fun h =>
    match m h with
    | (Return a, h') => f a h'
    | (Throw e, h') => (Throw e, h')
    end.

(** The completion of a call to a function that does not touch the heap. *)
Definition call {A : Type} (c : completion A) : M A := fun h => (c, h).

Notation "x <- m ;; f" := (bind m (fun x => f))
  (at level 61, m at next level, right associativity).
Notation "m ;;; f" := (bind m (fun _ => f))
  (at level 61, right associativity).

(** [this.value] and [this.value = v]. *)
Definition get_value (this : ref) : M number :=
  fun h => (Return (value (cells h this)), h).

Definition set_value (this : ref) (v : number) : M unit :=
  fun h =>
    (Return tt,
     {| cells := fun r => if Nat.eqb r this then {| value := v |}
                          else cells h r;
        next := next h |}).

Section CalculatorClass.

Variable Math_pow : number -> number -> number.

(** [new Calculator(initialValue)] *)
Definition new_Calculator (initialValue : option number) : M ref :=
  fun h =>
    let this := next h in
    (Return this,
     {| cells := fun r =>
          if Nat.eqb r this then {| value := default (of_Z 0) initialValue |}
          else cells h r;
        next := S this |}).

Definition add (this : ref) (num : number) : M ref :=
  v <- get_value this ;;
  set_value this (preciseAdd Math_pow v num) ;;;
  ret this.

Definition subtract (this : ref) (num : number) : M ref :=
  v <- get_value this ;;
  set_value this (preciseSubtract Math_pow v num) ;;;
  ret this.

Definition multiply (this : ref) (num : number) : M ref :=
  v <- get_value this ;;
  set_value this (preciseMultiply Math_pow v num) ;;;
  ret this.

Definition divide (this : ref) (num : number) (precision : option number)
    : M ref :=
  let precision := default (of_Z 10) precision in
  v <- get_value this ;;
  q <- call (preciseDivide Math_pow v num (Some precision)) ;;
  set_value this q ;;;
  ret this.

Definition power (this : ref) (exponent : number) : M ref :=
  v <- get_value this ;;
  set_value this (Math_pow v exponent) ;;;
  ret this.

Definition NegativeOperand : exn := Error "不能对负数进行平方根运算".

Definition sqrt (this : ref) : M ref :=
  v <- get_value this ;;
  if lt v (of_Z 0) then throw NegativeOperand
  else
    v <- get_value this ;;
    set_value this (Math_sqrt v) ;;;
    ret this.

Definition abs (this : ref) : M ref :=
  v <- get_value this ;;
  set_value this (Math_abs v) ;;;
  ret this.

Definition round (this : ref) (decimals : option number) : M ref :=
  let decimals := default (of_Z 0) decimals in
  let multiplier := Math_pow (of_Z 10) decimals in
  v <- get_value this ;;
  set_value this (fdiv (Math_round (fmul v multiplier)) multiplier) ;;;
  ret this.

Definition ceil (this : ref) (decimals : option number) : M ref :=
  let decimals := default (of_Z 0) decimals in
  let multiplier := Math_pow (of_Z 10) decimals in
  v <- get_value this ;;
  set_value this (fdiv (Math_ceil (fmul v multiplier)) multiplier) ;;;
  ret this.

Definition floor (this : ref) (decimals : option number) : M ref :=
  let decimals := default (of_Z 0) decimals in
  let multiplier := Math_pow (of_Z 10) decimals in
  v <- get_value this ;;
  set_value this (fdiv (Math_floor (fmul v multiplier)) multiplier) ;;;
  ret this.

Definition result (this : ref) : M number := get_value this.

Definition format (this : ref) (decimals : option number)
    (removeTrailingZeros : option bool) : M string :=
  let decimals := default (of_Z 2) decimals in
  let removeTrailingZeros := default false removeTrailingZeros in
  v <- get_value this ;;
  call (formatNumber v (Some decimals) (Some removeTrailingZeros)).

(** [toThousands] and [toScientific] render the accumulator through
    formatting helpers of another module; like [format] they do not
    assign to it, and they are left out. *)

(** [calculate(initialValue)] *)
Definition calculate (initialValue : option number) : M ref :=
  new_Calculator (Some (default (of_Z 0) initialValue)).

(** *** Chains of calls

    A mutating call with its arguments, and a chain [c.m1(..).m2(..)...]
    as the list of its calls: each call is made on the instance the
    previous one returned. *)

Inductive operation :=
| Add (num : number)
| Subtract (num : number)
| Multiply (num : number)
| Divide (num : number) (precision : option number)
| Power (exponent : number)
| Sqrt
| Abs
| Round (decimals : option number)
| Ceil (decimals : option number)
| Floor (decimals : option number).

Definition invoke (this : ref) (op : operation) : M ref :=
  match op with
  | Add num => add this num
  | Subtract num => subtract this num
  | Multiply num => multiply this num
  | Divide num precision => divide this num precision
  | Power exponent => power this exponent
  | Sqrt => sqrt this
  | Abs => abs this
  | Round decimals => round this decimals
  | Ceil decimals => ceil this decimals
  | Floor decimals => floor this decimals
  end.

Fixpoint chain (this : ref) (ops : list operation) : M ref :=
  match ops with
  | [] => ret this
  | op :: ops' => that <- invoke this op ;; chain that ops'
  end.

End CalculatorClass.

(** ** A reference [Math.pow]

    Exact on integer arguments with a non-negative exponent, [NaN]
    elsewhere.  It instantiates the parameter [Math_pow] where a concrete
    host is needed. *)

Definition integer_value (x : number) : option Z :=
  match x with
  | S754_zero _ => Some 0
  | S754_finite s m e =>
      if 0 <=? e then Some (cond_Zopp s (Zpos m * 2 ^ e))
      else if Zpos m mod 2 ^ (- e) =? 0
           then Some (cond_Zopp s (Zpos m / 2 ^ (- e)))
           else None
  | _ => None
  end.

Definition integer_pow (x y : number) : number :=
  match integer_value x, integer_value y with
  | Some b, Some n => if 0 <=? n then of_Z (b ^ n) else NaN
  | _, _ => NaN
  end.

(** What the examples need of the host: the powers of ten that binary64
    represents exactly are computed exactly. *)
Definition pow_ten_exact (Math_pow : number -> number -> number) : Prop :=
  forall n : Z, 0 <= n <= 22 -> Math_pow (of_Z 10) (of_Z n) = of_Z (10 ^ n).

(** ** The documented behaviour, for comparison with the code *)

Section Documented.

Variable Math_pow : number -> number -> number.

(** [factor = 10^max(da, db)] *)
Definition factor (a b : number) : number :=
  Math_pow (of_Z 10)
    (of_Z (Z.max (getDecimalPlaces a) (getDecimalPlaces b))).

(** Addition and subtraction as documented: each scaled operand is
    rounded on its own, [round(a*factor) +- round(b*factor)], then the
    result is divided by [factor]. *)
Definition add_rounded_separately (a b : number) : number :=
  fdiv (fadd (Math_round (fmul a (factor a b)))
             (Math_round (fmul b (factor a b))))
       (factor a b).

Definition subtract_rounded_separately (a b : number) : number :=
  fdiv (fsub (Math_round (fmul a (factor a b)))
             (Math_round (fmul b (factor a b))))
       (factor a b).

(** The numeric transform of each mutating operation, on the accumulator
    alone. *)
Definition transform (op : operation) (v : number) : completion number :=
  match op with
  | Add num => Return (preciseAdd Math_pow v num)
  | Subtract num => Return (preciseSubtract Math_pow v num)
  | Multiply num => Return (preciseMultiply Math_pow v num)
  | Divide num precision => preciseDivide Math_pow v num precision
  | Power exponent => Return (Math_pow v exponent)
  | Sqrt =>
      if lt v (of_Z 0) then Throw NegativeOperand
      else Return (Math_sqrt v)
  | Abs => Return (Math_abs v)
  | Round decimals =>
      let multiplier := Math_pow (of_Z 10) (default (of_Z 0) decimals) in
      Return (fdiv (Math_round (fmul v multiplier)) multiplier)
  | Ceil decimals =>
      let multiplier := Math_pow (of_Z 10) (default (of_Z 0) decimals) in
      Return (fdiv (Math_ceil (fmul v multiplier)) multiplier)
  | Floor decimals =>
      let multiplier := Math_pow (of_Z 10) (default (of_Z 0) decimals) in
      Return (fdiv (Math_floor (fmul v multiplier)) multiplier)
  end.

(** The transforms applied in call order. *)
Fixpoint in_call_order (ops : list operation) (v : number)
    : completion number :=
  match ops with
  | [] => Return v
  | op :: ops' =>
      match transform op v with
      | Return v' => in_call_order ops' v'
      | Throw e => Throw e
      end
  end.

(** [Calculator(10).add(5).multiply(2).subtract(7).divide(3).result()] *)
Definition chain_example : M number :=
  c <- new_Calculator (Some (of_Z 10)) ;;
  c <- add Math_pow c (of_Z 5) ;;
  c <- multiply Math_pow c (of_Z 2) ;;
  c <- subtract Math_pow c (of_Z 7) ;;
  c <- divide Math_pow c (of_Z 3) None ;;
  result c.

(** The same chain with [divide(3)] moved before [multiply(2)]. *)
Definition chain_reordered : M number :=
  c <- new_Calculator (Some (of_Z 10)) ;;
  c <- add Math_pow c (of_Z 5) ;;
  c <- divide Math_pow c (of_Z 3) None ;;
  c <- multiply Math_pow c (of_Z 2) ;;
  c <- subtract Math_pow c (of_Z 7) ;;
  result c.

End Documented.

(** A string with its trailing ["0"] characters removed. *)
Definition all_zeros (s : string) : bool :=
  forallb (Ascii.eqb "0") (list_ascii_of_string s).

Fixpoint strip_trailing_zeros (s : string) : string :=
  match s with
  | EmptyString => EmptyString
  | String c t => if all_zeros s then EmptyString
                  else String c (strip_trailing_zeros t)
  end.

(** An empty heap. *)
Definition empty_heap : heap :=
  {| cells := fun _ => {| value := NaN |}; next := O |}.

(** ** Integers as numbers

    The canonical mantissa and exponent of a non-zero integer below [2^53]
    (a "safe" integer), which binary64 represents exactly. *)

Definition digits2 (m : positive) : Z := Zpos (digits2_pos m).

(** The mantissa [m] at exponent [e] is in canonical form. *)
Definition canonical (m : positive) (e : Z) : Prop :=
  fexp prec emax (digits2 m + e) = e /\ e <= emax - prec.

Definition safe (z : Z) : Prop := Z.abs z < 2 ^ 53.

Definition mantissa (z : Z) : positive :=
  Z.to_pos (Z.abs z * 2 ^ (53 - Zdigits2 z)).

Definition exponent (z : Z) : Z := Zdigits2 z - 53.

(** No character of [s] is a decimal point. *)
Fixpoint dotless (s : string) : Prop :=
  match s with
  | EmptyString => True
  | String c t => c <> "."%char /\ dotless t
  end.

(** The continuation of the pattern after its last quantifier: [$]. *)
Definition at_end (t : string) : option string := matches Eos t Some.

(** ** The sum of [preciseAdd] and [preciseSubtract], as documented *)

(** The number of significant decimal digits of a number: the digits of
    its shortest decimal representation. *)
Definition significant_digits (x : number) : Z :=
  match x with
  | S754_finite _ m e => len (fst (shortest_digits m e))
  | _ => 0
  end.

Section Rounded.

Variable Math_pow : number -> number -> number.

(** [x] rounded to [p] decimal places. *)
Definition round_to_places (p : Z) (x : number) : number :=
  fdiv (Math_round (fmul x (Math_pow (of_Z 10) (of_Z p))))
       (Math_pow (of_Z 10) (of_Z p)).

(** [preciseAdd(a,b) + preciseSubtract(a,b) == 2*a] after rounding both
    sides to the operands' maximum decimal-place count. *)
Definition sum_and_difference_twice (a b : number) : Prop :=
  let p := Z.max (getDecimalPlaces a) (getDecimalPlaces b) in
  round_to_places p (fadd (preciseAdd Math_pow a b)
                          (preciseSubtract Math_pow a b))
  = round_to_places p (fmul (of_Z 2) a).

End Rounded.

(** * The math utilities

    The functions of the library's math module that work on numbers and
    strings alone: [clamp], [lerp], [manhattanDistance], [round], [ceil],
    [floor], [sum], [average], [factorial], [permutation], [combination],
    [gcd], [lcm], [fibonacci], [toRoman] and [fromRoman].

    A loop whose number of rounds depends on a number takes a bound [fuel]
    on it, and so does the recursion of [gcd]; [None] is a loop that has
    not ended within the bound.  A string is the sequence of its
    characters, and an array the list of its elements. *)

Module MathUtils.

(** [x <= y], [x > y] and [x >= y] on numbers. *)
Definition le : number -> number -> bool := SFleb.
Definition gt (x y : number) : bool := SFltb y x.
Definition ge (x y : number) : bool := SFleb y x.

(** [Number.isInteger(x)] *)
Definition Number_isInteger (x : number) : bool :=
  match integer_value x with
  | Some _ => true
  | None => false
  end.

(** [n % d]: the remainder of the division truncated towards zero, with
    the sign of the dividend; it is exact. *)
Definition frem (n d : number) : number :=
  match n, d with
  | S754_nan, _ | _, S754_nan => NaN
  | S754_infinity _, _ => NaN
  | _, S754_zero _ => NaN
  | _, S754_infinity _ => n
  | S754_zero _, _ => n
  | S754_finite sn mn en, S754_finite _ md ed =>
      let e := Z.min en ed in
      let r := (Zpos mn * 2 ^ (en - e)) mod (Zpos md * 2 ^ (ed - e)) in
      if r =? 0 then S754_zero sn
      else binary_normalize prec emax (cond_Zopp sn r) e false
  end.

(** [Math.max] and [Math.min] of two numbers: [NaN] if either is, and
    [+0] above [-0]. *)
Definition Math_max (x y : number) : number :=
  match x, y with
  | S754_nan, _ | _, S754_nan => NaN
  | S754_zero sx, S754_zero sy => S754_zero (sx && sy)
  | _, _ => if SFltb x y then y else x
  end.

Definition Math_min (x y : number) : number :=
  match x, y with
  | S754_nan, _ | _, S754_nan => NaN
  | S754_zero sx, S754_zero sy => S754_zero (sx || sy)
  | _, _ => if SFltb y x then y else x
  end.

Definition clamp (value min max : number) : number :=
  Math_min (Math_max value min) max.

Definition lerp (start end_ t : number) : number :=
  fadd start (fmul (fsub end_ start) (clamp t (of_Z 0) (of_Z 1))).

Definition manhattanDistance (x1 y1 x2 y2 : number) : number :=
  fadd (Math_abs (fsub x2 x1)) (Math_abs (fsub y2 y1)).

Section Rounding.

Variable Math_pow : number -> number -> number.

Definition round (value : number) (decimals : option number) : number :=
  let decimals := default (of_Z 0) decimals in
  let factor := Math_pow (of_Z 10) decimals in
  fdiv (Math_round (fmul value factor)) factor.

Definition ceil (value : number) (decimals : option number) : number :=
  let decimals := default (of_Z 0) decimals in
  let factor := Math_pow (of_Z 10) decimals in
  fdiv (Math_ceil (fmul value factor)) factor.

Definition floor (value : number) (decimals : option number) : number :=
  let decimals := default (of_Z 0) decimals in
  let factor := Math_pow (of_Z 10) decimals in
  fdiv (Math_floor (fmul value factor)) factor.

End Rounding.

(** [numbers.reduce((acc, val) => acc + val, 0)] *)
Definition sum (numbers : list number) : number :=
  fold_left (fun acc val => fadd acc val) numbers (of_Z 0).

Definition average (numbers : list number) : number :=
  if (List.length numbers =? 0)%nat then of_Z 0
  else fdiv (sum numbers) (of_Z (Z.of_nat (List.length numbers))).

(** *** [mode]

    The counts live in a [Map] from numbers to numbers.  A [Map] compares
    its keys by SameValueZero, stores the key [-0] as [+0], and iterates
    over its entries in insertion order: it is the list of its entries. *)

Definition SameValueZero (x y : number) : bool :=
  match x, y with
  | S754_nan, S754_nan => true
  | _, _ => strict_eq x y
  end.

(** The key as [Map.prototype.set] stores it. *)
Definition stored_key (key : number) : number :=
  match key with
  | S754_zero _ => S754_zero false
  | _ => key
  end.

Fixpoint Map_get (entries : list (number * number)) (key : number)
    : option number :=
  match entries with
  | [] => None
  | (k, v) :: entries' =>
      if SameValueZero k key then Some v else Map_get entries' key
  end.

Fixpoint Map_set (entries : list (number * number)) (key value : number)
    : list (number * number) :=
  match entries with
  | [] => [(stored_key key, value)]
  | (k, v) :: entries' =>
      if SameValueZero k key then (k, value) :: entries'
      else (k, v) :: Map_set entries' key value
  end.

(** [v || 0] for [v] a number or [undefined]. *)
Definition or_zero (v : option number) : number :=
  match v with
  | None | Some (S754_zero _) | Some S754_nan => of_Z 0
  | Some v => v
  end.

(** The first loop of [mode]. *)
Fixpoint mode_for (numbers : list number) (counts : list (number * number))
    (maxCount : number) : list (number * number) * number :=
  match numbers with
  | [] => (counts, maxCount)
  | num :: numbers' =>
      let count := fadd (or_zero (Map_get counts num)) (of_Z 1) in
      let counts := Map_set counts num count in
      let maxCount := if gt count maxCount then count else maxCount in
      mode_for numbers' counts maxCount
  end.

Definition mode (numbers : list number) : list number :=
  if (List.length numbers =? 0)%nat then []
  else
    let '(counts, maxCount) := mode_for numbers [] (of_Z 0) in
    map fst (filter (fun entry => strict_eq (snd entry) maxCount) counts).

(** [for (let i = 2; i <= n; i++) result *= i] *)
Fixpoint factorial_loop (fuel : nat) (n i result : number) : option number :=
  match fuel with
  | O => None
  | S fuel' =>
      if le i n
      then factorial_loop fuel' n (fadd i (of_Z 1)) (fmul result i)
      else Some result
  end.

Definition factorial (fuel : nat) (n : number) : option (completion number) :=
  if lt n (of_Z 0) || negb (Number_isInteger n)
  then Some (Throw (Error "阶乘只接受非负整数"))
  else if strict_eq n (of_Z 0) || strict_eq n (of_Z 1)
  then Some (Return (of_Z 1))
  else
    match factorial_loop fuel n (of_Z 2) (of_Z 1) with
    | Some result => Some (Return result)
    | None => None
    end.

(** [for (let i = n - k + 1; i <= n; i++) result *= i] is the loop of
    [factorial] from another start. *)
Definition permutation (fuel : nat) (n k : number)
    : option (completion number) :=
  if lt n (of_Z 0) || lt k (of_Z 0)
     || negb (Number_isInteger n) || negb (Number_isInteger k)
  then Some (Throw (Error "排列数计算只接受非负整数"))
  else if gt k n then Some (Return (of_Z 0))
  else
    match factorial_loop fuel n (fadd (fsub n k) (of_Z 1)) (of_Z 1) with
    | Some result => Some (Return result)
    | None => None
    end.

(** [for (let i = 1; i <= k; i++) { result *= (n - (i - 1)); result /= i; }] *)
Fixpoint combination_loop (fuel : nat) (n k i result : number)
    : option number :=
  match fuel with
  | O => None
  | S fuel' =>
      if le i k
      then
        let result := fmul result (fsub n (fsub i (of_Z 1))) in
        let result := fdiv result i in
        combination_loop fuel' n k (fadd i (of_Z 1)) result
      else Some result
  end.

Definition combination (fuel : nat) (n k : number)
    : option (completion number) :=
  if lt n (of_Z 0) || lt k (of_Z 0)
     || negb (Number_isInteger n) || negb (Number_isInteger k)
  then Some (Throw (Error "组合数计算只接受非负整数"))
  else if gt k n then Some (Return (of_Z 0))
  else
    let k := if gt k (fdiv n (of_Z 2)) then fsub n k else k in
    match combination_loop fuel n k (of_Z 1) (of_Z 1) with
    | Some result => Some (Return result)
    | None => None
    end.

(** The recursion of [gcd] is bounded by [fuel]. *)
Fixpoint gcd (fuel : nat) (a b : number) : option (completion number) :=
  match fuel with
  | O => None
  | S fuel' =>
      let a := Math_abs a in
      let b := Math_abs b in
      if negb (Number_isInteger a) || negb (Number_isInteger b)
      then Some (Throw (Error "最大公约数计算只接受整数"))
      else if strict_eq b (of_Z 0) then Some (Return a)
      else gcd fuel' b (frem a b)
  end.

Definition lcm (fuel : nat) (a b : number) : option (completion number) :=
  let a := Math_abs a in
  let b := Math_abs b in
  if negb (Number_isInteger a) || negb (Number_isInteger b)
  then Some (Throw (Error "最小公倍数计算只接受整数"))
  else
    match gcd fuel a b with
    | Some (Return g) => Some (Return (fdiv (fmul a b) g))
    | Some (Throw e) => Some (Throw e)
    | None => None
    end.

(** [for (let i = 2; i <= n; i++) { const temp = a + b; a = b; b = temp; }] *)
Fixpoint fibonacci_loop (fuel : nat) (n i a b : number) : option number :=
  match fuel with
  | O => None
  | S fuel' =>
      if le i n
      then
        let temp := fadd a b in
        fibonacci_loop fuel' n (fadd i (of_Z 1)) b temp
      else Some b
  end.

Definition fibonacci (fuel : nat) (n : number) : option (completion number) :=
  if lt n (of_Z 0) || negb (Number_isInteger n)
  then Some (Throw (Error "斐波那契数列计算只接受非负整数"))
  else if strict_eq n (of_Z 0) then Some (Return (of_Z 0))
  else if strict_eq n (of_Z 1) then Some (Return (of_Z 1))
  else
    match fibonacci_loop fuel n (of_Z 2) (of_Z 0) (of_Z 1) with
    | Some b => Some (Return b)
    | None => None
    end.

Definition RomanOutOfRange : exn := Error "罗马数字转换只支持1-3999的整数".

Definition romanNumerals : list (number * string) :=
  [ (of_Z 1000, "M"); (of_Z 900, "CM"); (of_Z 500, "D"); (of_Z 400, "CD");
    (of_Z 100, "C"); (of_Z 90, "XC"); (of_Z 50, "L"); (of_Z 40, "XL");
    (of_Z 10, "X"); (of_Z 9, "IX"); (of_Z 5, "V"); (of_Z 4, "IV");
    (of_Z 1, "I") ]%string.

(** [while (remaining >= value) { result += symbol; remaining -= value; }] *)
Fixpoint toRoman_while (fuel : nat) (value : number) (symbol : string)
    (result : string) (remaining : number) : option (string * number) :=
  match fuel with
  | O => None
  | S fuel' =>
      if ge remaining value
      then toRoman_while fuel' value symbol (result ++ symbol)
             (fsub remaining value)
      else Some (result, remaining)
  end.

(** [for (const { value, symbol } of romanNumerals) ...] *)
Fixpoint toRoman_for (fuel : nat) (numerals : list (number * string))
    (result : string) (remaining : number) : option string :=
  match numerals with
  | [] => Some result
  | (value, symbol) :: numerals' =>
      match toRoman_while fuel value symbol result remaining with
      | Some (result', remaining') =>
          toRoman_for fuel numerals' result' remaining'
      | None => None
      end
  end.

Definition toRoman (fuel : nat) (num : number) : option (completion string) :=
  if lt num (of_Z 1) || gt num (of_Z 3999) || negb (Number_isInteger num)
  then Some (Throw RomanOutOfRange)
  else
    match toRoman_for fuel romanNumerals "" num with
    | Some result => Some (Return result)
    | None => None
    end.

(** [romanMap[char]]; [None] is [undefined]. *)
Definition romanMap (char : ascii) : option number :=
  if Ascii.eqb char "I" then Some (of_Z 1)
  else if Ascii.eqb char "V" then Some (of_Z 5)
  else if Ascii.eqb char "X" then Some (of_Z 10)
  else if Ascii.eqb char "L" then Some (of_Z 50)
  else if Ascii.eqb char "C" then Some (of_Z 100)
  else if Ascii.eqb char "D" then Some (of_Z 500)
  else if Ascii.eqb char "M" then Some (of_Z 1000)
  else None.

Definition InvalidRomanCharacter (char : ascii) : exn :=
  Error ("无效的罗马数字字符: " ++ String char "").

(** The loop of [fromRoman] over the characters from the last to the
    first. *)
Fixpoint fromRoman_for (chars : list ascii) (result prevValue : number)
    : completion number :=
  match chars with
  | [] => Return result
  | char :: chars' =>
      match romanMap char with
      | None => Throw (InvalidRomanCharacter char)
      | Some value =>
          let result :=
            if ge value prevValue then fadd result value
            else fsub result value in
          fromRoman_for chars' result value
      end
  end.

(** A string is the sequence of its bytes.  For an ASCII string these are
    the characters [roman[i]] of the source; a character outside ASCII is
    several bytes here and one or two code units there, none of them a
    key of [romanMap] either way. *)
Definition fromRoman (roman : string) : completion number :=
  fromRoman_for (rev (list_ascii_of_string roman)) (of_Z 0) (of_Z 0).

End MathUtils.

(** ** Integer functions the math utilities are compared with *)

(** [i * (i + 1) * ... * (i + steps - 1)] *)
Fixpoint product_from (i : Z) (steps : nat) : Z :=
  match steps with
  | O => 1
  | S steps' => i * product_from (i + 1) steps'
  end.

(** [n!] *)
Definition Zfactorial (n : Z) : Z := product_from 1 (Z.to_nat n).

(** [n * (n - 1) * ... * (n - k + 1)], the number of arrangements of [k]
    out of [n]. *)
Definition arrangements (n k : Z) : Z := product_from (n - k + 1) (Z.to_nat k).

(** The binomial coefficients, by Pascal's rule. *)
Fixpoint binomial (n k : nat) : Z :=
  match n, k with
  | _, O => 1
  | O, S _ => 0
  | S n', S k' => binomial n' k' + binomial n' (S k')
  end.

Definition Zbinomial (n k : Z) : Z := binomial (Z.to_nat n) (Z.to_nat k).

(** The Fibonacci numbers [F(n)] and [F(n + 1)]. *)
Fixpoint fibonacci_pair (n : nat) : Z * Z :=
  match n with
  | O => (0, 1)
  | S n' => let '(a, b) := fibonacci_pair n' in (b, a + b)
  end.

Definition Zfibonacci (n : Z) : Z := fst (fibonacci_pair (Z.to_nat n)).

(** The sum of a list of integers, and of their absolute values. *)
Definition total (l : list Z) : Z := fold_right Z.add 0 l.

Definition total_magnitude (l : list Z) : Z :=
  fold_right (fun z acc => Z.abs z + acc) 0 l.

(** How often [x] occurs in [l], as a key of a [Map]. *)
Definition occurrences (x : number) (l : list number) : nat :=
  List.length (filter (MathUtils.SameValueZero x) l).

(** The entries of the map after the array [p] has been counted, and the
    largest count [M]. *)
Record counted (p : list number) (counts : list (number * number)) (M : Z)
    : Prop := {
  counted_entries :
    forall k v, In (k, v) counts ->
      MathUtils.stored_key k = k /\ (1 <= occurrences k p)%nat /\
      v = of_Z (Z.of_nat (occurrences k p));
  counted_once : NoDup (map fst counts);
  counted_all :
    forall y, In y p -> In (MathUtils.stored_key y) (map fst counts);
  counted_bound : forall y, In y p -> Z.of_nat (occurrences y p) <= M;
  counted_reached :
    (p = [] /\ M = 0) \/ exists y, In y p /\ Z.of_nat (occurrences y p) = M
}.

(** ** Predicates on numbers *)

Definition is_nan (x : number) : bool :=
  match x with S754_nan => true | _ => false end.

(** The sign bit. *)
Definition negative (x : number) : bool :=
  match x with
  | S754_zero s | S754_infinity s | S754_finite s _ _ => s
  | S754_nan => false
  end.

(** The values of binary64: a finite one has its mantissa and exponent in
    canonical form. *)
Definition valid (x : number) : bool := valid_binary prec emax x.

(** [|x| < 10^21]: the finite numbers that [toFixed] renders in positional
    notation. *)
Definition below_1e21 (x : number) : bool :=
  match x with
  | S754_zero _ => true
  | S754_finite _ m e =>
      let '(N, D) := fraction m e in negb (D * 10 ^ 21 <=? N)
  | _ => false
  end.

(** ** Roman numerals *)

(** The seven letters of [romanMap]. *)
Definition roman_letter (char : ascii) : bool :=
  existsb (Ascii.eqb char) ["I"; "V"; "X"; "L"; "C"; "D"; "M"]%char.

(** The character that [fromRoman] meets first outside these letters: it
    reads the string from its end. *)
Definition foreign_character (roman : string) : option ascii :=
  find (fun char => negb (roman_letter char))
    (rev (list_ascii_of_string roman)).

(** The characters of ASCII: the bytes below 128, each of them one
    character of the source's string. *)
Definition ascii_character (char : ascii) : bool :=
  (N_of_ascii char <? 128)%N.

(** [toRoman] then [fromRoman] gives [n] back. *)
Definition round_trips (fuel : nat) (n : Z) : bool :=
  match MathUtils.toRoman fuel (of_Z n) with
  | Some (Return roman) =>
      match MathUtils.fromRoman roman with
      | Return v => same v (of_Z n)
      | Throw _ => false
      end
  | _ => false
  end.

(** A predicate holds from [1] to [k]. *)
Fixpoint upto (k : nat) (p : Z -> bool) : bool :=
  match k with
  | O => true
  | S k' => p (Z.of_nat k) && upto k' p
  end.

(** ** Rounding errors

    The value of a number in units of [2^-1200], an integer for every
    binary64 value; [0] for what is not finite. *)
Definition units (x : number) : Z :=
  match x with
  | S754_finite s m e => cond_Zopp s (Zpos m * 2 ^ (e + 1200))
  | _ => 0
  end.

(** The mantissa and the two bits of [mrs] are those of [N/D] cut after the
    bit of weight one half: round bit and sticky bit. *)
Definition approximates (mrs : shr_record) (N D : Z) : Prop :=
  0 < D /\ 0 <= shr_m mrs /\
  D * (2 * shr_m mrs + Z.b2z (shr_r mrs)) <= 2 * N
    < D * (2 * shr_m mrs + Z.b2z (shr_r mrs) + 1) /\
  shr_s mrs = negb (2 * N =? D * (2 * shr_m mrs + Z.b2z (shr_r mrs))).

(** The mantissa [m] of 53 bits at exponent [e] stands for the positive
    integer [F]. *)
Definition represents (F : Z) (m : positive) (e : Z) : Prop :=
  digits2 m = 53 /\ -52 <= e <= 52 /\ Zpos m * 2 ^ (e + 52) = F * 2 ^ 52.

(** * Properties *)

(** ** Evaluation on concrete operands *)

Section Evaluation.

Variable Math_pow : number -> number -> number.
Hypothesis exact : pow_ten_exact Math_pow.

Lemma factor_eval (a b : number) (p : Z) :
  Z.max (getDecimalPlaces a) (getDecimalPlaces b) = p ->
  0 <= p <= 22 ->
  factor Math_pow a b = of_Z (10 ^ p).
Proof.
  intros Hp Hr. unfold factor. rewrite Hp. now apply exact.
Qed.

Lemma preciseAdd_eval (a b : number) (p : Z) :
  Z.max (getDecimalPlaces a) (getDecimalPlaces b) = p ->
  0 <= p <= 22 ->
  preciseAdd Math_pow a b =
  fdiv (Math_round (fadd (fmul a (of_Z (10 ^ p))) (fmul b (of_Z (10 ^ p)))))
       (of_Z (10 ^ p)).
Proof.
  intros Hp Hr. unfold preciseAdd. cbv zeta. rewrite Hp.
  now rewrite (exact p Hr).
Qed.

Lemma preciseSubtract_eval (a b : number) (p : Z) :
  Z.max (getDecimalPlaces a) (getDecimalPlaces b) = p ->
  0 <= p <= 22 ->
  preciseSubtract Math_pow a b =
  fdiv (Math_round (fsub (fmul a (of_Z (10 ^ p))) (fmul b (of_Z (10 ^ p)))))
       (of_Z (10 ^ p)).
Proof.
  intros Hp Hr. unfold preciseSubtract. cbv zeta. rewrite Hp.
  now rewrite (exact p Hr).
Qed.

Lemma preciseMultiply_eval (a b : number) (p : Z) :
  getDecimalPlaces a + getDecimalPlaces b = p ->
  0 <= p <= 22 ->
  preciseMultiply Math_pow a b =
  fdiv (Math_round (fmul (fmul a (of_Z (10 ^ p))) b)) (of_Z (10 ^ p)).
Proof.
  intros Hp Hr. unfold preciseMultiply. cbv zeta. rewrite Hp.
  now rewrite (exact p Hr).
Qed.

Lemma preciseDivide_eval (a b : number) (p : Z) :
  strict_eq b (of_Z 0) = false ->
  0 <= p <= 22 ->
  preciseDivide Math_pow a b (Some (of_Z p)) =
  Return (fdiv (Math_round (fmul (fdiv a b) (of_Z (10 ^ p)))) (of_Z (10 ^ p))).
Proof.
  intros Hb Hr. unfold preciseDivide. cbv zeta. rewrite Hb.
  unfold default. now rewrite (exact p Hr).
Qed.

End Evaluation.

Lemma same_refl (x : number) : same x x = true.
Proof.
  destruct x as [s | s | | s m e]; unfold same;
    rewrite ?eqb_reflx, ?Pos.eqb_refl, ?Z.eqb_refl; reflexivity.
Qed.

Lemma different (x y : number) : same x y = false -> x <> y.
Proof.
  intros H E. subst y. rewrite same_refl in H. discriminate H.
Qed.

Lemma Return_injective {A : Type} (a b : A) : Return a = Return b -> a = b.
Proof.
  intros H. now injection H.
Qed.

Lemma integer_pow_exact : pow_ten_exact integer_pow.
Proof.
  intros n Hn.
  assert (H : In n (map Z.of_nat (seq 0 23))).
  { replace n with (Z.of_nat (Z.to_nat n)) by lia.
    apply in_map, in_seq. lia. }
  vm_compute in H.
  repeat (destruct H as [<- | H]; [vm_compute; reflexivity |]).
  contradiction.
Defined.

(** ** Exact arithmetic on integer-valued numbers *)

Lemma digits2_bounds (m : positive) :
  2 ^ (digits2 m - 1) <= Zpos m < 2 ^ digits2 m.
Proof.
  unfold digits2.
  induction m as [m IH | m IH |]; cbn [digits2_pos].
  - rewrite Pos2Z.inj_succ. change (Zpos m~1) with (2 * Zpos m + 1).
    replace (Z.succ (Zpos (digits2_pos m)) - 1) with (Z.succ (Zpos (digits2_pos m) - 1)) by lia.
    rewrite !Z.pow_succ_r by lia. lia.
  - rewrite Pos2Z.inj_succ. change (Zpos m~0) with (2 * Zpos m).
    replace (Z.succ (Zpos (digits2_pos m)) - 1) with (Z.succ (Zpos (digits2_pos m) - 1)) by lia.
    rewrite !Z.pow_succ_r by lia. lia.
  - cbn. lia.
Qed.

Lemma digits2_unique (m : positive) (d : Z) :
  2 ^ (d - 1) <= Zpos m < 2 ^ d -> digits2 m = d.
Proof.
  intros [Hlo Hhi]. pose proof (digits2_bounds m) as [Blo Bhi].
  assert (Hd : 0 < d).
  { destruct (Z.ltb_spec 0 d) as [|Hn]; [assumption |].
    destruct (Z.eqb_spec d 0) as [-> | Hne]; [cbn in Hhi; lia |].
    rewrite Z.pow_neg_r in Hhi by lia. lia. }
  assert (Hm : 0 < digits2 m) by (unfold digits2; lia).
  destruct (Z.lt_trichotomy (digits2 m) d) as [Hlt | [Heq | Hgt]]; [| exact Heq |].
  - assert (2 ^ digits2 m <= 2 ^ (d - 1)) by (apply Z.pow_le_mono_r; lia). lia.
  - assert (2 ^ d <= 2 ^ (digits2 m - 1)) by (apply Z.pow_le_mono_r; lia). lia.
Qed.

Lemma digits2_shift (m M : positive) (k : Z) :
  0 <= k -> Zpos M = Zpos m * 2 ^ k -> digits2 M = digits2 m + k.
Proof.
  intros Hk HM. apply digits2_unique. rewrite HM.
  pose proof (digits2_bounds m) as [Blo Bhi].
  assert (Hm : 0 < digits2 m) by (unfold digits2; lia).
  replace (digits2 m + k - 1) with (digits2 m - 1 + k) by lia.
  rewrite !Z.pow_add_r by lia.
  assert (0 < 2 ^ k) by (apply Z.pow_pos_nonneg; lia).
  split; nia.
Qed.

Lemma iter_pos_nat {A : Type} (f : A -> A) (n : positive) :
  forall x, iter_pos f n x = Nat.iter (Pos.to_nat n) f x.
Proof.
  induction n as [n IH | n IH |]; intros x; cbn [iter_pos].
  - rewrite !IH, Pos2Nat.inj_xI.
    replace (S (2 * Pos.to_nat n)) with (Pos.to_nat n + (Pos.to_nat n + 1))%nat by lia.
    rewrite !Nat.iter_add. reflexivity.
  - rewrite !IH, Pos2Nat.inj_xO.
    replace (2 * Pos.to_nat n)%nat with (Pos.to_nat n + Pos.to_nat n)%nat by lia.
    rewrite Nat.iter_add. reflexivity.
  - reflexivity.
Qed.

(** Shifting out [k] zero bits is exact. *)
Lemma shr_1_exact (k : nat) :
  forall M m : positive,
    Zpos M = Zpos m * 2 ^ Z.of_nat k ->
    Nat.iter k shr_1 {| shr_m := Zpos M; shr_r := false; shr_s := false |}
    = {| shr_m := Zpos m; shr_r := false; shr_s := false |}.
Proof.
  induction k as [| k IH]; intros M m HM.
  - change (Z.of_nat 0) with 0 in HM. rewrite Z.pow_0_r, Z.mul_1_r in HM.
    injection HM as ->. reflexivity.
  - rewrite Nat.iter_succ_r.
    rewrite Nat2Z.inj_succ, Z.pow_succ_r in HM by lia.
    destruct M as [M | M |]; try lia.
    cbn [shr_1 orb]. apply IH. change (Zpos M~0) with (2 * Zpos M) in HM. lia.
Qed.

(** Rounding a mantissa that only carries extra zero bits gives the
    canonical number of the same value. *)
Lemma binary_round_aux_exact (s : bool) (M m : positive) (E e : Z) :
  canonical m e ->
  E <= e ->
  Zpos M = Zpos m * 2 ^ (e - E) ->
  binary_round_aux prec emax s (Zpos M) E loc_Exact = S754_finite s m e.
Proof.
  intros [Hfexp Hmax] HE HM.
  assert (HdM : digits2 M = digits2 m + (e - E))
    by (apply digits2_shift; [lia | exact HM]).
  unfold binary_round_aux, shr_fexp.
  cbn [Zdigits2 shr_record_of_loc]. fold (digits2 M). rewrite HdM.
  replace (digits2 m + (e - E) + E) with (digits2 m + e) by lia.
  rewrite Hfexp.
  assert (Hshr : shr {| shr_m := Zpos M; shr_r := false; shr_s := false |}
                   E (e - E)
                 = ({| shr_m := Zpos m; shr_r := false; shr_s := false |}, e)).
  { destruct (e - E) as [| p | p] eqn:Hk; try lia.
    - cbn [shr]. rewrite Z.pow_0_r, Z.mul_1_r in HM. injection HM as ->.
      f_equal. lia.
    - cbn [shr]. rewrite iter_pos_nat.
      rewrite (shr_1_exact (Pos.to_nat p) M m)
        by (rewrite positive_nat_Z; exact HM).
      f_equal. lia. }
  rewrite Hshr. cbn [shr_m loc_of_shr_record round_nearest_even Zdigits2
                     shr_record_of_loc].
  fold (digits2 m). rewrite Hfexp, Z.sub_diag. cbn [shr shr_m].
  destruct (Z.leb_spec e (emax - prec)); [reflexivity | lia].
Qed.

Lemma iter_xO_pow (M p : positive) :
  Zpos (Pos.iter xO M p) = Zpos M * 2 ^ Zpos p.
Proof.
  change (Pos.iter xO M p) with (shift_pos p M).
  rewrite shift_pos_correct.
  change (Z.pow_pos 2 p) with (2 ^ Zpos p). lia.
Qed.

(** The same for [binary_round], which may also have to shift left. *)
Lemma binary_round_exact (s : bool) (M m : positive) (E e : Z) :
  canonical m e ->
  (E <= e /\ Zpos M = Zpos m * 2 ^ (e - E)) \/
  (e <= E /\ Zpos m = Zpos M * 2 ^ (E - e)) ->
  binary_round prec emax s M E = S754_finite s m e.
Proof.
  intros Hc Hrep. pose proof Hc as [Hfexp Hmax].
  unfold binary_round. fold (digits2 M).
  assert (Hf : fexp prec emax (digits2 M + E) = e).
  { destruct Hrep as [[HE HM] | [HE HM]].
    - rewrite (digits2_shift m M (e - E)) by (lia || exact HM).
      replace (digits2 m + (e - E) + E) with (digits2 m + e) by lia.
      exact Hfexp.
    - rewrite <- Hfexp. f_equal.
      rewrite (digits2_shift M m (E - e)) by (lia || exact HM). lia. }
  rewrite Hf. unfold shl_align.
  destruct Hrep as [[HE HM] | [HE HM]].
  - assert (Hs : match e - E with
                 | Zneg d => (Pos.iter xO M d, e)
                 | _ => (M, E)
                 end = (M, E))
      by (destruct (e - E) eqn:Hk; try reflexivity; lia).
    rewrite Hs. now apply binary_round_aux_exact.
  - destruct (e - E) as [| p | p] eqn:Hk; try lia.
    + apply binary_round_aux_exact; [exact Hc | lia |].
      replace (E - e) with 0 in HM by lia. replace (e - E) with 0 by lia.
      rewrite Z.pow_0_r, Z.mul_1_r in *. now rewrite HM.
    + assert (Hm : Pos.iter xO M p = m).
      { apply Pos2Z.inj. rewrite iter_xO_pow, HM. do 2 f_equal. lia. }
      rewrite Hm. apply binary_round_aux_exact; [exact Hc | lia |].
      rewrite Z.sub_diag, Z.pow_0_r. lia.
Qed.

(** *** Integers below [2^53] *)

Lemma Zdigits2_abs (z : Z) : Zdigits2 (Z.abs z) = Zdigits2 z.
Proof.
  now destruct z.
Qed.

Lemma Zdigits2_safe (z : Z) : z <> 0 -> safe z -> 1 <= Zdigits2 z <= 53.
Proof.
  intros Hz Hs. unfold safe in Hs.
  destruct z as [| p | p]; [contradiction | |]; cbn [Zdigits2 Z.abs] in *;
    fold (digits2 p); pose proof (digits2_bounds p) as [Blo _];
    (split; [unfold digits2; lia |]);
    destruct (Z.leb_spec (digits2 p) 53) as [| Hgt]; try assumption;
    assert (2 ^ 53 <= 2 ^ (digits2 p - 1)) by (apply Z.pow_le_mono_r; lia);
    lia.
Qed.

Lemma mantissa_value (z : Z) :
  z <> 0 -> safe z ->
  Zpos (mantissa z) = Z.abs z * 2 ^ (- exponent z).
Proof.
  intros Hz Hs. pose proof (Zdigits2_safe z Hz Hs) as Hd.
  unfold mantissa, exponent.
  replace (- (Zdigits2 z - 53)) with (53 - Zdigits2 z) by lia.
  rewrite Z2Pos.id; [reflexivity |].
  assert (0 < 2 ^ (53 - Zdigits2 z)) by (apply Z.pow_pos_nonneg; lia).
  nia.
Qed.

Lemma mantissa_canonical (z : Z) :
  z <> 0 -> safe z -> canonical (mantissa z) (exponent z).
Proof.
  intros Hz Hs. pose proof (Zdigits2_safe z Hz Hs) as Hd.
  pose proof (mantissa_value z Hz Hs) as Hm.
  assert (He : 0 <= - exponent z) by (unfold exponent; lia).
  assert (Hdm : digits2 (mantissa z) = 53).
  { destruct z as [| p | p]; [contradiction | |];
      cbn [Z.abs] in Hm;
      rewrite (digits2_shift p _ _ He Hm);
      unfold exponent, digits2; cbn [Zdigits2]; lia. }
  unfold canonical. rewrite Hdm. unfold exponent, fexp, emin, prec, emax.
  lia.
Qed.

Lemma of_Z_finite (z : Z) :
  z <> 0 -> safe z ->
  of_Z z = S754_finite (z <? 0) (mantissa z) (exponent z).
Proof.
  intros Hz Hs. pose proof (Zdigits2_safe z Hz Hs) as Hd.
  pose proof (mantissa_value z Hz Hs) as Hm.
  pose proof (mantissa_canonical z Hz Hs) as Hc.
  assert (He : exponent z <= 0) by (unfold exponent; lia).
  unfold of_Z, binary_normalize.
  destruct z as [| p | p]; [contradiction | |]; cbn [Z.ltb Z.compare];
    apply binary_round_exact; try exact Hc; right;
    (split; [exact He |]); rewrite Hm; cbn [Z.abs]; f_equal; f_equal; lia.
Qed.

(** A mantissa [T] at exponent [E <= 0] that stands for a safe integer
    [z] normalizes to [of_Z z]. *)
Lemma binary_normalize_integer (T E z : Z) :
  E <= 0 -> T = z * 2 ^ (- E) -> safe z ->
  binary_normalize prec emax T E false = of_Z z.
Proof.
  intros HE HT Hs.
  assert (HP : 0 < 2 ^ (- E)) by (apply Z.pow_pos_nonneg; lia).
  destruct (Z.eq_dec z 0) as [-> | Hz].
  - subst T. reflexivity.
  - rewrite (of_Z_finite z Hz Hs).
    pose proof (mantissa_value z Hz Hs) as Hm.
    pose proof (mantissa_canonical z Hz Hs) as Hc.
    pose proof (Zdigits2_safe z Hz Hs) as Hd.
    assert (He : exponent z <= 0) by (unfold exponent; lia).
    assert (Hrep : forall M : positive, Zpos M = Z.abs z * 2 ^ (- E) ->
              (E <= exponent z /\
               Zpos M = Zpos (mantissa z) * 2 ^ (exponent z - E)) \/
              (exponent z <= E /\
               Zpos (mantissa z) = Zpos M * 2 ^ (E - exponent z))).
    { intros M HM. rewrite Hm, HM.
      destruct (Z.le_ge_cases E (exponent z)) as [Hle | Hge].
      - left. split; [exact Hle |].
        rewrite <- Z.mul_assoc, <- Z.pow_add_r by lia.
        do 2 f_equal. lia.
      - right. split; [exact Hge |].
        rewrite <- Z.mul_assoc, <- Z.pow_add_r by lia.
        do 2 f_equal. lia. }
    unfold binary_normalize.
    destruct T as [| M | M].
    + nia.
    + assert (0 < z) by nia.
      replace (z <? 0) with false by (symmetry; apply Z.ltb_ge; lia).
      apply binary_round_exact; [exact Hc |]. apply Hrep.
      rewrite Z.abs_eq by lia. exact HT.
    + assert (z < 0) by nia.
      replace (z <? 0) with true by (symmetry; apply Z.ltb_lt; lia).
      apply binary_round_exact; [exact Hc |]. apply Hrep.
      rewrite Z.abs_neq by lia. lia.
Qed.

Lemma shl_align_value (m : positive) (e e' : Z) :
  e' <= e -> Zpos (fst (shl_align m e e')) = Zpos m * 2 ^ (e - e').
Proof.
  intros He. unfold shl_align.
  destruct (e' - e) as [| p | p] eqn:Hk; try lia; cbn [fst].
  - replace (e - e') with 0 by lia. rewrite Z.pow_0_r. lia.
  - rewrite iter_xO_pow. do 2 f_equal. lia.
Qed.

(** The signed mantissa of [of_Z z] is [z] scaled by its exponent. *)
Lemma signed_mantissa (z : Z) :
  z <> 0 -> safe z ->
  cond_Zopp (z <? 0) (Zpos (mantissa z)) = z * 2 ^ (- exponent z).
Proof.
  intros Hz Hs. rewrite (mantissa_value z Hz Hs).
  destruct (Z.ltb_spec z 0); cbn [cond_Zopp].
  - rewrite Z.abs_neq by lia. lia.
  - rewrite Z.abs_eq by lia. lia.
Qed.

Lemma exponent_nonpos (z : Z) : z <> 0 -> safe z -> exponent z <= 0.
Proof.
  intros Hz Hs. pose proof (Zdigits2_safe z Hz Hs). unfold exponent. lia.
Qed.

Lemma safe_opp (z : Z) : safe z -> safe (- z).
Proof.
  unfold safe. lia.
Qed.

Lemma of_Z_opp (z : Z) : z <> 0 -> safe z -> SFopp (of_Z z) = of_Z (- z).
Proof.
  intros Hz Hs.
  rewrite (of_Z_finite z Hz Hs), (of_Z_finite (- z)) by (lia || now apply safe_opp).
  cbn [SFopp]. unfold mantissa, exponent.
  rewrite Z.abs_opp. replace (Zdigits2 (- z)) with (Zdigits2 z) by now destruct z.
  f_equal. destruct z; [contradiction | reflexivity | reflexivity].
Qed.

(** The common exponent and the sum of the aligned signed mantissas. *)
Lemma aligned_sum (x y : Z) (op : Z -> Z -> Z) :
  (forall a b c, op (a * c) (b * c) = op a b * c) ->
  x <> 0 -> y <> 0 -> safe x -> safe y ->
  let ez := Z.min (exponent x) (exponent y) in
  op (cond_Zopp (x <? 0)
        (Zpos (fst (shl_align (mantissa x) (exponent x) ez))))
     (cond_Zopp (y <? 0)
        (Zpos (fst (shl_align (mantissa y) (exponent y) ez))))
  = op x y * 2 ^ (- ez).
Proof.
  intros Hop Hx Hy Sx Sy ez.
  pose proof (exponent_nonpos x Hx Sx). pose proof (exponent_nonpos y Hy Sy).
  rewrite !shl_align_value by (unfold ez; lia).
  assert (Hal : forall z, z <> 0 -> safe z -> ez <= exponent z ->
            cond_Zopp (z <? 0) (Zpos (mantissa z) * 2 ^ (exponent z - ez))
            = z * 2 ^ (- ez)).
  { intros z Hz Sz Hle.
    replace (cond_Zopp (z <? 0) (Zpos (mantissa z) * 2 ^ (exponent z - ez)))
      with (cond_Zopp (z <? 0) (Zpos (mantissa z)) * 2 ^ (exponent z - ez))
      by (destruct (z <? 0); cbn [cond_Zopp]; lia).
    rewrite (signed_mantissa z Hz Sz).
    pose proof (exponent_nonpos z Hz Sz).
    rewrite <- Z.mul_assoc, <- Z.pow_add_r by lia. do 2 f_equal. lia. }
  rewrite !Hal by (assumption || unfold ez; lia).
  apply Hop.
Qed.

Lemma fadd_integers (x y : Z) :
  safe x -> safe y -> safe (x + y) ->
  fadd (of_Z x) (of_Z y) = of_Z (x + y).
Proof.
  intros Sx Sy Sxy.
  destruct (Z.eq_dec x 0) as [-> | Hx]; [| destruct (Z.eq_dec y 0) as [-> | Hy]].
  - cbn [Z.add]. destruct (Z.eq_dec y 0) as [-> | Hy]; [reflexivity |].
    rewrite (of_Z_finite y Hy Sy). reflexivity.
  - rewrite Z.add_0_r. rewrite (of_Z_finite x Hx Sx). reflexivity.
  - rewrite (of_Z_finite x Hx Sx), (of_Z_finite y Hy Sy).
    unfold fadd, SFadd.
    apply binary_normalize_integer; [| | exact Sxy].
    + pose proof (exponent_nonpos x Hx Sx). lia.
    + apply (aligned_sum x y Z.add); try assumption. intros; lia.
Qed.

Lemma fsub_integers (x y : Z) :
  safe x -> safe y -> safe (x - y) ->
  fsub (of_Z x) (of_Z y) = of_Z (x - y).
Proof.
  intros Sx Sy Sxy.
  destruct (Z.eq_dec y 0) as [-> | Hy]; [| destruct (Z.eq_dec x 0) as [-> | Hx]].
  - rewrite Z.sub_0_r. destruct (Z.eq_dec x 0) as [-> | Hx]; [reflexivity |].
    rewrite (of_Z_finite x Hx Sx). reflexivity.
  - cbn [Z.sub Z.add]. rewrite <- (of_Z_opp y Hy Sy).
    rewrite (of_Z_finite y Hy Sy). reflexivity.
  - rewrite (of_Z_finite x Hx Sx), (of_Z_finite y Hy Sy).
    unfold fsub, SFsub.
    apply binary_normalize_integer; [| | exact Sxy].
    + pose proof (exponent_nonpos x Hx Sx). lia.
    + apply (aligned_sum x y Z.sub); try assumption. intros; lia.
Qed.

Lemma Math_round_integer (z : Z) : safe z -> Math_round (of_Z z) = of_Z z.
Proof.
  intros Sz. destruct (Z.eq_dec z 0) as [-> | Hz]; [reflexivity |].
  rewrite (of_Z_finite z Hz Sz). unfold Math_round.
  destruct (Z.leb_spec 0 (exponent z)) as [| Hneg]; [reflexivity |].
  rewrite (signed_mantissa z Hz Sz).
  assert (HP : 0 < 2 ^ (- exponent z)) by (apply Z.pow_pos_nonneg; lia).
  replace (2 ^ (1 - exponent z)) with (2 * 2 ^ (- exponent z))
    by (rewrite <- Z.pow_succ_r by lia; f_equal; lia).
  replace (2 * (z * 2 ^ (- exponent z)) + 2 ^ (- exponent z))
    with ((2 * z + 1) * 2 ^ (- exponent z)) by lia.
  rewrite Z.div_mul_cancel_r by lia.
  replace ((2 * z + 1) / 2) with z
    by (apply Z.div_unique with (r := 1); lia).
  unfold integral. destruct (Z.eqb_spec z 0); [contradiction |].
  now rewrite <- (of_Z_finite z Hz Sz).
Qed.

Lemma Zdigits2_bounds (z : Z) :
  z <> 0 -> 2 ^ (Zdigits2 z - 1) <= Z.abs z < 2 ^ Zdigits2 z.
Proof.
  intros Hz. destruct z as [| p | p]; [contradiction | |];
    exact (digits2_bounds p).
Qed.

Lemma Zdigits2_monotone (x z : Z) :
  x <> 0 -> Z.abs x <= Z.abs z -> Zdigits2 x <= Zdigits2 z.
Proof.
  intros Hx Hle.
  assert (Hz : z <> 0) by lia.
  pose proof (Zdigits2_bounds x Hx) as [Bx _].
  pose proof (Zdigits2_bounds z Hz) as [_ Bz].
  assert (0 < Zdigits2 z) by (destruct z; [contradiction | |]; cbn; lia).
  destruct (Z.le_gt_cases (Zdigits2 x) (Zdigits2 z)) as [| Hgt]; [assumption |].
  assert (2 ^ Zdigits2 z <= 2 ^ (Zdigits2 x - 1))
    by (apply Z.pow_le_mono_r; lia).
  lia.
Qed.

Lemma fmul_nonzero_integers (x y : Z) :
  x <> 0 -> y <> 0 -> safe x -> safe y -> safe (x * y) ->
  fmul (of_Z x) (of_Z y) = of_Z (x * y).
Proof.
  intros Hx Hy Sx Sy Sxy.
  assert (Hxy : x * y <> 0) by nia.
  rewrite (of_Z_finite x Hx Sx), (of_Z_finite y Hy Sy),
    (of_Z_finite (x * y) Hxy Sxy).
  unfold fmul, SFmul.
  replace (xorb (x <? 0) (y <? 0)) with (x * y <? 0)
    by (destruct (Z.ltb_spec x 0), (Z.ltb_spec y 0), (Z.ltb_spec (x * y) 0);
        try reflexivity; nia).
  pose proof (exponent_nonpos x Hx Sx) as Ex.
  pose proof (exponent_nonpos y Hy Sy) as Ey.
  pose proof (exponent_nonpos (x * y) Hxy Sxy) as Exy.
  assert (HE : exponent x + exponent y <= exponent (x * y)).
  { pose proof (Zdigits2_monotone x (x * y) Hx ltac:(nia)).
    pose proof (Zdigits2_safe y Hy Sy). unfold exponent. lia. }
  apply binary_round_aux_exact;
    [now apply mantissa_canonical | exact HE |].
  rewrite Pos2Z.inj_mul, !mantissa_value by assumption.
  rewrite Z.abs_mul.
  replace (- exponent (x * y))
    with (- exponent x + - exponent y
          - (exponent (x * y) - (exponent x + exponent y))) by lia.
  assert (HP : 2 ^ (- exponent x + - exponent y)
               = 2 ^ (- exponent x + - exponent y
                      - (exponent (x * y) - (exponent x + exponent y)))
                 * 2 ^ (exponent (x * y) - (exponent x + exponent y))).
  { rewrite <- Z.pow_add_r by lia. f_equal. lia. }
  rewrite Z.pow_add_r in HP by lia. nia.
Qed.

Lemma fmul_positive_integer_l (x y : Z) :
  0 < x -> safe x -> safe y -> safe (x * y) ->
  fmul (of_Z x) (of_Z y) = of_Z (x * y).
Proof.
  intros Hx Sx Sy Sxy.
  destruct (Z.eq_dec y 0) as [-> | Hy].
  - rewrite Z.mul_0_r, (of_Z_finite x) by (lia || assumption).
    replace (x <? 0) with false by (symmetry; apply Z.ltb_ge; lia).
    reflexivity.
  - apply fmul_nonzero_integers; (lia || assumption).
Qed.

Lemma fmul_positive_integer_r (x y : Z) :
  0 < y -> safe x -> safe y -> safe (x * y) ->
  fmul (of_Z x) (of_Z y) = of_Z (x * y).
Proof.
  intros Hy Sx Sy Sxy.
  destruct (Z.eq_dec x 0) as [-> | Hx].
  - rewrite Z.mul_0_l, (of_Z_finite y) by (lia || assumption).
    replace (y <? 0) with false by (symmetry; apply Z.ltb_ge; lia).
    reflexivity.
  - apply fmul_nonzero_integers; (lia || assumption).
Qed.

(** Division by one. *)
Lemma fdiv_integer_by_one (x : Z) : safe x -> fdiv (of_Z x) (of_Z 1) = of_Z x.
Proof.
  intros Sx. destruct (Z.eq_dec x 0) as [-> | Hx]; [reflexivity |].
  rewrite (of_Z_finite x Hx Sx).
  change (of_Z 1) with (S754_finite false 4503599627370496 (-52)).
  pose proof (mantissa_canonical x Hx Sx) as Hc.
  pose proof (Zdigits2_safe x Hx Sx) as Hd.
  assert (Hdm : digits2 (mantissa x) = 53).
  { destruct Hc as [Hf _]. unfold fexp, emin, prec, emax, exponent in Hf.
    unfold exponent in *. lia. }
  unfold fdiv, SFdiv, SFdiv_core_binary.
  cbn [Zdigits2]. fold (digits2 (mantissa x)). rewrite Hdm.
  change (Zpos (digits2_pos 4503599627370496)) with 53.
  replace (Z.min (fexp prec emax (53 + exponent x - (53 + -52)))
             (exponent x - -52)) with (exponent x - 1)
    by (unfold fexp, emin, prec, emax, exponent; lia).
  replace (exponent x - -52 - (exponent x - 1)) with 53 by lia.
  rewrite Z.shiftl_mul_pow2 by lia.
  replace (Z.div_eucl (Zpos (mantissa x) * 2 ^ 53) 4503599627370496)
    with (Zpos (mantissa x)~0, 0).
  - cbn [new_location new_location_even Z.even Z.eqb xorb].
    rewrite Bool.xorb_false_r.
    apply binary_round_aux_exact; [exact Hc | lia |].
    replace (exponent x - (exponent x - 1)) with 1 by lia.
    change (Zpos (mantissa x)~0) with (2 * Zpos (mantissa x)). lia.
  - pose proof (Z.div_eucl_eq (Zpos (mantissa x) * 2 ^ 53) 4503599627370496
                  ltac:(lia)) as Heq.
    pose proof (Z.mod_pos_bound (Zpos (mantissa x) * 2 ^ 53) 4503599627370496
                  ltac:(lia)) as Hb.
    unfold Z.modulo in Hb.
    destruct (Z.div_eucl (Zpos (mantissa x) * 2 ^ 53) 4503599627370496)
      as [q r].
    change (2 ^ 53) with (2 * 4503599627370496) in Heq.
    change (Zpos (mantissa x)~0) with (2 * Zpos (mantissa x)).
    assert (q = 2 * Zpos (mantissa x)) by nia.
    f_equal; lia.
Qed.

(** ** Integers print without a decimal point *)

Lemma dotless_indexOf (s : string) :
  dotless s -> forall i, indexOf_from "." s i = -1.
Proof.
  induction s as [| c t IH]; intros Hs i; [reflexivity |].
  destruct Hs as [Hc Ht]. cbn [indexOf_from].
  destruct (Ascii.eqb_spec c "."); [contradiction | now apply IH].
Qed.

Lemma dotless_append (s t : string) :
  dotless s -> dotless t -> dotless (s ++ t).
Proof.
  induction s as [| c s IH]; intros Hs Ht; [exact Ht |].
  destruct Hs as [Hc Hs]. split; [exact Hc | now apply IH].
Qed.

Lemma dotless_zeros (n : nat) : dotless (zeros n).
Proof.
  induction n as [| n IH]; [exact I |]. split; [discriminate | exact IH].
Qed.

Lemma digit_not_dot (z : Z) : digit (z mod 10) <> "."%char.
Proof.
  pose proof (Z.mod_pos_bound z 10 ltac:(lia)) as Hr.
  assert (H : In (z mod 10) [0; 1; 2; 3; 4; 5; 6; 7; 8; 9]) by (cbn; lia).
  cbn in H.
  repeat (destruct H as [<- | H]; [discriminate |]). contradiction.
Qed.

Lemma dotless_digits_onto (fuel : nat) :
  forall (z : Z) (acc : string),
    dotless acc -> dotless (digits_onto fuel z acc).
Proof.
  induction fuel as [| fuel IH]; intros z acc Hacc; [exact Hacc |].
  cbn [digits_onto].
  assert (Hacc' : dotless (String (digit (z mod 10)) acc))
    by (split; [apply digit_not_dot | exact Hacc]).
  destruct (z <? 10); [exact Hacc' | now apply IH].
Qed.

Lemma dotless_digits (z : Z) : dotless (digits z).
Proof.
  apply dotless_digits_onto. exact I.
Qed.

(** A number below [10^k] has at most [k] digits. *)
Lemma digits_onto_length_le (fuel : nat) :
  forall (z : Z) (acc : string) (k : nat),
    (1 <= k)%nat -> 0 <= z < 10 ^ Z.of_nat k ->
    (String.length (digits_onto fuel z acc) <= String.length acc + k)%nat.
Proof.
  induction fuel as [| fuel IH]; intros z acc k Hk Hz; [cbn; lia |].
  cbn [digits_onto].
  destruct (Z.ltb_spec z 10) as [| Hge]; [cbn [String.length]; lia |].
  destruct k as [| [| k]]; [lia | cbn in Hz; lia |].
  specialize (IH (z / 10) (String (digit (z mod 10)) acc) (S k)).
  cbn [String.length] in IH.
  assert (Hdiv : 0 <= z / 10 < 10 ^ Z.of_nat (S k)).
  { split; [apply Z.div_pos; lia |].
    apply Z.div_lt_upper_bound; [lia |].
    rewrite (Nat2Z.inj_succ (S k)), Z.pow_succ_r in Hz by lia. lia. }
  specialize (IH ltac:(lia) Hdiv). lia.
Qed.

(** With enough fuel, a number is below [10^j] for [j] the number of its
    digits. *)
Lemma digits_onto_length_ge (fuel : nat) :
  forall (z : Z) (acc : string),
    0 <= z < 10 ^ Z.of_nat fuel ->
    exists j : nat,
      String.length (digits_onto fuel z acc) = (String.length acc + j)%nat /\
      (fuel = O \/ (1 <= j)%nat) /\ z < 10 ^ Z.of_nat j.
Proof.
  induction fuel as [| fuel IH]; intros z acc Hz.
  - exists O. cbn in *. repeat split; lia.
  - cbn [digits_onto].
    destruct (Z.ltb_spec z 10) as [| Hge].
    + exists 1%nat. cbn [String.length].
      repeat split; lia.
    + rewrite Nat2Z.inj_succ, Z.pow_succ_r in Hz by lia.
      assert (Hdiv : 0 <= z / 10 < 10 ^ Z.of_nat fuel).
      { split; [apply Z.div_pos; lia |].
        apply Z.div_lt_upper_bound; lia. }
      destruct (IH (z / 10) (String (digit (z mod 10)) acc) Hdiv)
        as (j & Hlen & _ & Hj).
      exists (S j). cbn [String.length] in Hlen.
      repeat split; try lia.
      rewrite Nat2Z.inj_succ, Z.pow_succ_r by lia.
      pose proof (Z.div_mod z 10 ltac:(lia)).
      pose proof (Z.mod_pos_bound z 10 ltac:(lia)). lia.
Qed.

Lemma digits_length_le (z : Z) (k : Z) :
  1 <= k -> 0 <= z < 10 ^ k -> len (digits z) <= k.
Proof.
  intros Hk Hz. unfold len, digits.
  pose proof (digits_onto_length_le (S (Z.to_nat (Z.log2 z))) z ""
                (Z.to_nat k) ltac:(lia)) as H.
  rewrite Z2Nat.id in H by lia. specialize (H Hz). cbn [String.length] in H.
  lia.
Qed.

Lemma digits_length_ge (z : Z) :
  0 <= z -> 1 <= len (digits z) /\ z < 10 ^ len (digits z).
Proof.
  intros Hz. unfold len, digits.
  assert (Hfuel : 0 <= z < 10 ^ Z.of_nat (S (Z.to_nat (Z.log2 z)))).
  { split; [exact Hz |].
    rewrite Nat2Z.inj_succ, Z2Nat.id by apply Z.log2_nonneg.
    destruct (Z.eq_dec z 0) as [-> | Hnz]; [cbn; lia |].
    pose proof (Z.log2_spec z ltac:(lia)) as [_ Hlog].
    pose proof (Z.log2_nonneg z).
    assert (2 ^ Z.succ (Z.log2 z) <= 10 ^ Z.succ (Z.log2 z))
      by (apply Z.pow_le_mono_l; lia).
    lia. }
  destruct (digits_onto_length_ge _ z "" Hfuel) as (j & Hlen & Hj & Hlt).
  rewrite Hlen. cbn [String.length]. destruct Hj as [Hj | Hj]; [discriminate |].
  split; [lia | exact Hlt].
Qed.

Section ShortestOfInteger.

Variable x : number.
Variables N D z n : Z.
Hypothesis D_positive : 0 < D.
Hypothesis N_value : N = z * D.
Hypothesis z_range : 0 < z < 10 ^ n.

(** A candidate with [k <= n] digits consists of at most [k] digits, and
    its exponent is [n] or [n + 1]. *)
Lemma candidate_bounds (k s n' : Z) :
  1 <= k <= n ->
  candidate x N D n k = Some (s, n') ->
  0 <= s < 10 ^ k /\ n <= n' <= n + 1.
Proof.
  intros Hk. unfold candidate, scaled.
  destruct (Z.leb_spec 0 (n - k)) as [_ | Hneg]; [| lia].
  assert (HP : 0 < 10 ^ (n - k)) by (apply Z.pow_pos_nonneg; lia).
  assert (Hlo : N / (D * 10 ^ (n - k)) = z / 10 ^ (n - k)).
  { rewrite N_value, <- Z.div_div by lia.
    now rewrite Z.div_mul by lia. }
  rewrite Hlo.
  assert (Hlo_range : 0 <= z / 10 ^ (n - k) < 10 ^ k).
  { split; [apply Z.div_pos; lia |].
    apply Z.div_lt_upper_bound; [lia |].
    rewrite <- Z.pow_add_r by lia.
    replace (n - k + k) with n by lia. lia. }
  assert (Hk1 : 0 < 10 ^ (k - 1) < 10 ^ k).
  { split; [apply Z.pow_pos_nonneg; lia | apply Z.pow_lt_mono_r; lia]. }
  set (lo := z / 10 ^ (n - k)) in *.
  assert (Hfinal : forall t : Z, (t = lo \/ t = lo + 1) ->
            (if t =? 10 ^ k then (10 ^ (k - 1), n + 1) else (t, n)) = (s, n') ->
            0 <= s < 10 ^ k /\ n <= n' <= n + 1).
  { intros t Ht Heq.
    destruct (Z.eqb_spec t (10 ^ k)); injection Heq as <- <-; lia. }
  destruct (N mod (D * 10 ^ (n - k)) =? 0).
  - intros H. injection H as H. apply (Hfinal lo); [now left |].
    now rewrite H.
  - destruct (same (of_decimal lo (n - k)) x),
             (same (of_decimal (lo + 1) (n - k)) x);
      try discriminate.
    + destruct (2 * (N mod (D * 10 ^ (n - k))) ?= D * 10 ^ (n - k)).
      * destruct (Z.even lo); intros H; injection H as H;
          [apply (Hfinal lo); [now left |]
          | apply (Hfinal (lo + 1)); [now right |]];
          now rewrite H.
      * intros H. injection H as H. apply (Hfinal lo); [now left |].
        now rewrite H.
      * intros H. injection H as H. apply (Hfinal (lo + 1)); [now right |].
        now rewrite H.
    + intros H. injection H as H. apply (Hfinal lo); [now left |].
      now rewrite H.
    + intros H. injection H as H. apply (Hfinal (lo + 1)); [now right |].
      now rewrite H.
Qed.

(** With [n] digits the integer itself is a candidate. *)
Lemma candidate_exists : 1 <= n -> candidate x N D n n <> None.
Proof.
  intros Hn. unfold candidate, scaled.
  rewrite Z.sub_diag. cbn [Z.leb Z.compare]. rewrite Z.pow_0_r, Z.mul_1_r.
  rewrite N_value, Z.mod_mul by lia. cbn [Z.eqb]. discriminate.
Qed.

Lemma shortest_bounds (fuel : nat) :
  forall k s n',
    1 <= k <= n -> n - k < Z.of_nat fuel ->
    shortest fuel x N D n k = (s, n') ->
    exists j, 1 <= j <= n /\ 0 <= s < 10 ^ j /\ n <= n' <= n + 1.
Proof.
  induction fuel as [| fuel IH]; intros k s n' Hk Hfuel; [lia |].
  cbn [shortest].
  destruct (candidate x N D n k) as [[s0 n0] |] eqn:Hc.
  - intros H. injection H as <- <-. exists k. split; [exact Hk |].
    exact (candidate_bounds k s0 n0 Hk Hc).
  - assert (k <> n) by (intros ->; now apply (candidate_exists ltac:(lia))).
    apply IH; lia.
Qed.

End ShortestOfInteger.

Lemma positive_toString_integer (z : positive) :
  safe (Zpos z) ->
  dotless (positive_toString (mantissa (Zpos z)) (exponent (Zpos z))).
Proof.
  intros Sz.
  assert (Hz : Zpos z <> 0) by lia.
  pose proof (mantissa_value _ Hz Sz) as Hm. cbn [Z.abs] in Hm.
  pose proof (exponent_nonpos _ Hz Sz) as He.
  set (m := mantissa (Zpos z)) in *. set (e := exponent (Zpos z)) in *.
  assert (Hfrac : exists N D, fraction m e = (N, D) /\ 0 < D /\
                              N = Zpos z * D).
  { unfold fraction. destruct (Z.leb_spec 0 e).
    - exists (Zpos m * 2 ^ e), 1. replace e with 0 in * by lia.
      cbn [Z.opp] in Hm. rewrite Z.pow_0_r in *. repeat split; lia.
    - exists (Zpos m), (2 ^ (- e)).
      repeat split; try lia; apply Z.pow_pos_nonneg; lia. }
  destruct Hfrac as (N & D & Hfrac & HD & HN).
  unfold positive_toString, shortest_digits. rewrite Hfrac.
  assert (Hn : decimal_exponent N D = len (digits (Zpos z))).
  { unfold decimal_exponent.
    destruct (Z.leb_spec D N) as [| Hlt]; [| nia].
    now rewrite HN, Z.div_mul by lia. }
  rewrite Hn.
  pose proof (digits_length_ge (Zpos z) ltac:(lia)) as [Hn1 Hzn].
  assert (Hn16 : len (digits (Zpos z)) <= 16).
  { apply digits_length_le; [lia |]. unfold safe in Sz. cbn [Z.abs] in Sz.
    split; [lia |]. change (10 ^ 16) with 10000000000000000.
    change (2 ^ 53) with 9007199254740992 in Sz. lia. }
  set (n := len (digits (Zpos z))) in *.
  destruct (shortest 17 (S754_finite false m e) N D n 1) as [s n'] eqn:Hs.
  destruct (shortest_bounds (S754_finite false m e) N D (Zpos z) n HD HN
              ltac:(lia) 17 1 s n' ltac:(lia) ltac:(lia) Hs)
    as (j & Hj & Hsj & Hn').
  pose proof (digits_length_le s j ltac:(lia) Hsj) as Hk.
  replace ((-5 <=? n') && (n' <=? 21))%bool with true
    by (symmetry; apply andb_true_intro; split; apply Z.leb_le; lia).
  replace (len (digits s) <=? n') with true
    by (symmetry; apply Z.leb_le; lia).
  apply dotless_append; [apply dotless_digits | apply dotless_zeros].
Qed.

(** An integer below [2^53] has no decimal places. *)
Lemma getDecimalPlaces_integer (z : Z) :
  safe z -> getDecimalPlaces (of_Z z) = 0.
Proof.
  intros Sz. unfold getDecimalPlaces.
  assert (Hdot : dotless (toString (of_Z z))).
  { destruct (Z.eq_dec z 0) as [-> | Hz].
    - cbn. intuition discriminate.
    - rewrite (of_Z_finite z Hz Sz).
      destruct z as [| p | p]; [contradiction | |]; cbn [toString Z.ltb Z.compare].
      + now apply positive_toString_integer.
      + apply (dotless_append "-"); [cbn; intuition discriminate |].
        change (mantissa (Zneg p)) with (mantissa (Zpos p)).
        change (exponent (Zneg p)) with (exponent (Zpos p)).
        now apply positive_toString_integer. }
  unfold indexOf. now rewrite (dotless_indexOf _ Hdot).
Qed.

(** ** The examples of the precise functions *)

(** C1: [preciseAdd(0.1, 0.2)] is exactly [0.3], which the plain sum
    [0.1 + 0.2 = 0.30000000000000004] is not, and
    [preciseMultiply(0.1, 0.2)] is exactly [0.02]. *)
Theorem preciseAdd_preciseMultiply_examples
    (Math_pow : number -> number -> number) :
  pow_ten_exact Math_pow ->
  preciseAdd Math_pow (of_decimal 1 (-1)) (of_decimal 2 (-1))
    = of_decimal 3 (-1) /\
  preciseAdd Math_pow (of_decimal 1 (-1)) (of_decimal 2 (-1))
    <> of_decimal 30000000000000004 (-17) /\
  fadd (of_decimal 1 (-1)) (of_decimal 2 (-1))
    = of_decimal 30000000000000004 (-17) /\
  preciseMultiply Math_pow (of_decimal 1 (-1)) (of_decimal 2 (-1))
    = of_decimal 2 (-2).
Proof.
  intros exact.
  rewrite (preciseAdd_eval _ exact _ _ 1) by (vm_compute; intuition congruence).
  rewrite (preciseMultiply_eval _ exact _ _ 2)
    by (vm_compute; intuition congruence).
  repeat apply conj; try (vm_compute; reflexivity).
  apply different. vm_compute. reflexivity.
Qed.

Lemma preciseAdd_preciseMultiply_examples_witness :
  preciseAdd integer_pow (of_decimal 1 (-1)) (of_decimal 2 (-1))
    = of_decimal 3 (-1) /\
  preciseAdd integer_pow (of_decimal 1 (-1)) (of_decimal 2 (-1))
    <> of_decimal 30000000000000004 (-17) /\
  fadd (of_decimal 1 (-1)) (of_decimal 2 (-1))
    = of_decimal 30000000000000004 (-17) /\
  preciseMultiply integer_pow (of_decimal 1 (-1)) (of_decimal 2 (-1))
    = of_decimal 2 (-2).
Proof.
  exact (preciseAdd_preciseMultiply_examples integer_pow integer_pow_exact).
Defined.

(** ** Addition and subtraction round once *)

(** On [5785506683.68399] and [41919191739.38] the scaled operands are
    [578550668368399] and [4191919173937999.5]; their sum rounds to
    [4770469842306398], where rounding each first gives
    [4770469842306399]. *)
Lemma rounded_separately_differs (Math_pow : number -> number -> number) :
  pow_ten_exact Math_pow ->
  preciseAdd Math_pow (of_decimal 578550668368399 (-5))
                      (of_decimal 4191919173938 (-2))
    = of_decimal 4770469842306398 (-5) /\
  add_rounded_separately Math_pow (of_decimal 578550668368399 (-5))
                                  (of_decimal 4191919173938 (-2))
    = of_decimal 4770469842306399 (-5).
Proof.
  intros exact. unfold add_rounded_separately.
  rewrite (preciseAdd_eval _ exact _ _ 5) by (vm_compute; intuition congruence).
  rewrite (factor_eval _ exact _ _ 5) by (vm_compute; intuition congruence).
  split; vm_compute; reflexivity.
Qed.

(** C2, as stated, fails: [preciseAdd] is not the sum of the separately
    rounded scaled operands, on finite operands in plain decimal
    notation. *)
Lemma preciseAdd_not_rounded_separately :
  ~ (forall Math_pow : number -> number -> number,
       pow_ten_exact Math_pow ->
       forall a b : number,
         is_finite a = true -> is_finite b = true ->
         preciseAdd Math_pow a b = add_rounded_separately Math_pow a b /\
         preciseSubtract Math_pow a b
           = subtract_rounded_separately Math_pow a b).
Proof.
  intros claim.
  destruct (claim integer_pow integer_pow_exact
              (of_decimal 578550668368399 (-5))
              (of_decimal 4191919173938 (-2))
              eq_refl eq_refl) as [Hadd _].
  destruct (rounded_separately_differs integer_pow integer_pow_exact)
    as [Hcode Hdoc].
  rewrite Hcode, Hdoc in Hadd.
  revert Hadd. apply different. vm_compute. reflexivity.
Qed.

(** C2, amended: [preciseAdd(a, b)] and [preciseSubtract(a, b)] are
    [round(a*factor + b*factor) / factor] and
    [round(a*factor - b*factor) / factor] with
    [factor = 10^max(da, db)]: the scaled operands are added or subtracted
    first and the result is rounded once.  This is what rounding each
    scaled operand separately gives when both scaled operands are exactly
    integers [X] and [Y] with [|X| + |Y| < 2^53]. *)
Theorem preciseAdd_preciseSubtract_round_once
    (Math_pow : number -> number -> number) (a b : number) :
  preciseAdd Math_pow a b
    = fdiv (Math_round (fadd (fmul a (factor Math_pow a b))
                             (fmul b (factor Math_pow a b))))
           (factor Math_pow a b) /\
  preciseSubtract Math_pow a b
    = fdiv (Math_round (fsub (fmul a (factor Math_pow a b))
                             (fmul b (factor Math_pow a b))))
           (factor Math_pow a b) /\
  (forall X Y : Z,
     fmul a (factor Math_pow a b) = of_Z X ->
     fmul b (factor Math_pow a b) = of_Z Y ->
     Z.abs X + Z.abs Y < 2 ^ 53 ->
     preciseAdd Math_pow a b = add_rounded_separately Math_pow a b /\
     preciseSubtract Math_pow a b = subtract_rounded_separately Math_pow a b).
Proof.
  split; [reflexivity |]. split; [reflexivity |].
  intros X Y Ha Hb Hsafe.
  assert (SX : safe X) by (unfold safe; lia).
  assert (SY : safe Y) by (unfold safe; lia).
  unfold add_rounded_separately, subtract_rounded_separately.
  change (preciseAdd Math_pow a b)
    with (fdiv (Math_round (fadd (fmul a (factor Math_pow a b))
                                 (fmul b (factor Math_pow a b))))
               (factor Math_pow a b)).
  change (preciseSubtract Math_pow a b)
    with (fdiv (Math_round (fsub (fmul a (factor Math_pow a b))
                                 (fmul b (factor Math_pow a b))))
               (factor Math_pow a b)).
  rewrite Ha, Hb, !(Math_round_integer X), !(Math_round_integer Y)
    by assumption.
  rewrite fadd_integers, fsub_integers, !Math_round_integer
    by (assumption || unfold safe; lia).
  split; reflexivity.
Qed.

Lemma preciseAdd_preciseSubtract_round_once_witness :
  preciseAdd integer_pow (of_decimal 1 (-1)) (of_decimal 2 (-1))
    = add_rounded_separately integer_pow (of_decimal 1 (-1))
                                         (of_decimal 2 (-1)) /\
  preciseSubtract integer_pow (of_decimal 1 (-1)) (of_decimal 2 (-1))
    = subtract_rounded_separately integer_pow (of_decimal 1 (-1))
                                              (of_decimal 2 (-1)).
Proof.
  exact (proj2 (proj2 (preciseAdd_preciseSubtract_round_once integer_pow
                         (of_decimal 1 (-1)) (of_decimal 2 (-1))))
           1 2
           ltac:(vm_compute; reflexivity)
           ltac:(vm_compute; reflexivity)
           ltac:(vm_compute; reflexivity)).
Defined.

(** ** The sum of [preciseAdd] and [preciseSubtract] *)

(** [preciseAdd(0.0001, 12345678901234)] is [12345678901234] and
    [preciseSubtract(0.0001, 12345678901234)] is [-12345678901234]: the
    scaled operand [1] is absorbed by [123456789012340000], above [2^53]. *)
Lemma absorbed_operand (Math_pow : number -> number -> number) :
  pow_ten_exact Math_pow ->
  preciseAdd Math_pow (of_decimal 1 (-4)) (of_Z 12345678901234)
    = of_Z 12345678901234 /\
  preciseSubtract Math_pow (of_decimal 1 (-4)) (of_Z 12345678901234)
    = of_Z (-12345678901234) /\
  round_to_places Math_pow 4
      (fadd (of_Z 12345678901234) (of_Z (-12345678901234)))
    = of_Z 0 /\
  round_to_places Math_pow 4 (fmul (of_Z 2) (of_decimal 1 (-4)))
    = of_decimal 2 (-4).
Proof.
  intros exact. unfold round_to_places.
  rewrite (preciseAdd_eval _ exact _ _ 4) by (vm_compute; intuition congruence).
  rewrite (preciseSubtract_eval _ exact _ _ 4)
    by (vm_compute; intuition congruence).
  rewrite (exact 4) by lia.
  repeat apply conj; vm_compute; reflexivity.
Qed.


(** ** Division by zero *)

Lemma strict_eq_zero (b : number) :
  strict_eq b (of_Z 0) = is_zero b.
Proof.
  destruct b as [s | s | | s m e]; try reflexivity; now destruct s.
Qed.

(** C3: [preciseDivide(a, b, precision)] throws the division-by-zero error
    exactly when [b] is a zero, whatever the dividend and the precision;
    the check comes first, and for every other [b] the call returns a
    number. *)
Theorem preciseDivide_throws_iff_zero
    (Math_pow : number -> number -> number)
    (a b : number) (precision : option number) :
  (preciseDivide Math_pow a b precision = Throw DivisionByZero
     <-> b = S754_zero false \/ b = S754_zero true) /\
  (forall e, preciseDivide Math_pow a b precision = Throw e
     <-> e = DivisionByZero /\ is_zero b = true) /\
  (forall v, preciseDivide Math_pow a b precision = Return v
     <-> is_zero b = false /\
         v = fdiv (Math_round
                     (fmul (fdiv a b)
                        (Math_pow (of_Z 10) (default (of_Z 10) precision))))
                  (Math_pow (of_Z 10) (default (of_Z 10) precision))) /\
  (exists r, preciseDivide Math_pow a b precision = r /\
     match r with
     | Throw _ => is_zero b = true
     | Return _ => is_zero b = false
     end).
Proof.
  unfold preciseDivide. cbv zeta. rewrite strict_eq_zero.
  destruct b as [s | s | | s m e]; cbn [is_zero].
  - repeat split; try (destruct s; tauto); try congruence;
      try (intros [? ?]; congruence); try (intros; intuition congruence).
    eexists; split; [reflexivity | reflexivity].
  - repeat split; try congruence; try (intros [? | ?]; discriminate);
      try (intros [? ?]; congruence).
    eexists; split; [reflexivity | reflexivity].
  - repeat split; try congruence; try (intros [? | ?]; discriminate);
      try (intros [? ?]; congruence).
    eexists; split; [reflexivity | reflexivity].
  - repeat split; try congruence; try (intros [? | ?]; discriminate);
      try (intros [? ?]; congruence).
    eexists; split; [reflexivity | reflexivity].
Qed.

(** ** The dispatcher *)

(** C7: [preciseCalculate(a, op, b, precision)] is [preciseAdd(a, b)],
    [preciseSubtract(a, b)], [preciseMultiply(a, b)] or
    [preciseDivide(a, b, precision)] for [op] one of ["+"], ["-"], ["*"],
    ["/"]; the precision matters to the division only; any other operator
    throws the unsupported-operator error. *)
Theorem preciseCalculate_dispatch
    (Math_pow : number -> number -> number)
    (a b : number) (precision : option number) :
  preciseCalculate Math_pow a "+" b precision
    = Return (preciseAdd Math_pow a b) /\
  preciseCalculate Math_pow a "-" b precision
    = Return (preciseSubtract Math_pow a b) /\
  preciseCalculate Math_pow a "*" b precision
    = Return (preciseMultiply Math_pow a b) /\
  preciseCalculate Math_pow a "/" b precision
    = preciseDivide Math_pow a b precision /\
  (forall (operator : string) (precision' : option number),
     operator <> "/"%string ->
     preciseCalculate Math_pow a operator b precision
       = preciseCalculate Math_pow a operator b precision') /\
  (forall operator : string,
     ~ In operator ["+"; "-"; "*"; "/"]%string ->
     preciseCalculate Math_pow a operator b precision
       = Throw (UnsupportedOperator operator)).
Proof.
  repeat split; try reflexivity.
  - intros operator precision' Hop. unfold preciseCalculate. cbv zeta.
    destruct (String.eqb_spec operator "/"); [contradiction |].
    reflexivity.
  - intros operator Hop. unfold preciseCalculate. cbv zeta.
    destruct (String.eqb_spec operator "+"); [subst; cbn in Hop; tauto |].
    destruct (String.eqb_spec operator "-"); [subst; cbn in Hop; tauto |].
    destruct (String.eqb_spec operator "*"); [subst; cbn in Hop; tauto |].
    destruct (String.eqb_spec operator "/"); [subst; cbn in Hop; tauto |].
    reflexivity.
Qed.

Lemma preciseCalculate_dispatch_witness :
  preciseCalculate integer_pow (of_Z 7) "%" (of_Z 2) None
    = Throw (UnsupportedOperator "%") /\
  preciseCalculate integer_pow (of_Z 7) "+" (of_Z 2) (Some (of_Z 3))
    = preciseCalculate integer_pow (of_Z 7) "+" (of_Z 2) None.
Proof.
  split.
  - apply (preciseCalculate_dispatch integer_pow (of_Z 7) (of_Z 2) None).
    cbn. intros [H | [H | [H | [H | H]]]];
      try discriminate H; exact H.
  - apply (preciseCalculate_dispatch integer_pow (of_Z 7) (of_Z 2)
             (Some (of_Z 3))).
    discriminate.
Defined.

(** ** Formatting *)

(** C8: [formatNumber(3.1, 2, true)] is ["3.1"], [formatNumber(3.0, 2, true)]
    is ["3"], and [formatNumber(3.14159, 4)] is ["3.1416"]. *)
Theorem formatNumber_examples :
  formatNumber (of_decimal 31 (-1)) (Some (of_Z 2)) (Some true)
    = Return "3.1"%string /\
  formatNumber (of_decimal 30 (-1)) (Some (of_Z 2)) (Some true)
    = Return "3"%string /\
  formatNumber (of_decimal 314159 (-5)) (Some (of_Z 4)) None
    = Return "3.1416"%string.
Proof.
  repeat apply conj; vm_compute; reflexivity.
Qed.

(** ** Trailing zeros of an integer rendering *)

Lemma iterate_zero_run (fuel : nat) :
  forall s : string,
    (String.length s < fuel)%nat ->
    iterate fuel (matches (Chr "0")) s at_end =
    match s with
    | EmptyString => None
    | String _ _ => if all_zeros s then Some EmptyString else None
    end.
Proof.
  induction fuel as [| fuel IH]; intros s Hlen; [inversion Hlen |].
  destruct s as [| d t]; [reflexivity |].
  cbn [iterate matches]. unfold all_zeros. cbn [list_ascii_of_string forallb].
  rewrite (Ascii.eqb_sym "0"%char d).
  destruct (Ascii.eqb d "0"); [| reflexivity].
  cbn [andb]. rewrite IH by (cbn in Hlen; lia).
  destruct t as [| d' t']; [reflexivity |].
  fold (all_zeros (String d' t')).
  now destruct (all_zeros (String d' t')).
Qed.

Lemma matches_trailing_zeros (s : string) :
  match s with
  | String "." _ => False
  | _ => True
  end ->
  matches trailing_zeros s Some =
  match s with
  | EmptyString => None
  | String _ _ => if all_zeros s then Some EmptyString else None
  end.
Proof.
  intros Hdot. unfold trailing_zeros. cbn [matches].
  assert (Hopt : (match s with
                  | String d t =>
                      if Ascii.eqb d "."
                      then iterate (S (String.length t))
                             (matches (Chr "0")) t at_end
                      else None
                  | EmptyString => None
                  end) = None).
  { destruct s as [| d t]; [reflexivity |].
    destruct (Ascii.eqb_spec d "."); [subst d; contradiction | reflexivity]. }
  unfold at_end in Hopt. cbn [matches] in Hopt. rewrite Hopt.
  apply (iterate_zero_run (S (String.length s)) s). lia.
Qed.

Lemma indexOf_from_absent (c : ascii) (s : string) :
  forall i : Z,
    0 <= i -> indexOf_from c s i = -1 ->
    match s with
    | EmptyString => True
    | String d t => d <> c /\ indexOf_from c t (i + 1) = -1
    end.
Proof.
  destruct s as [| d t]; intros i Hi H; [exact I |].
  cbn [indexOf_from] in H.
  destruct (Ascii.eqb_spec d c); [lia |]. now split.
Qed.

Lemma replace_trailing_zeros (s : string) :
  forall i : Z,
    0 <= i -> indexOf_from "." s i = -1 ->
    replace trailing_zeros "" s = strip_trailing_zeros s.
Proof.
  induction s as [| d t IH]; intros i Hi Habsent.
  - reflexivity.
  - destruct (indexOf_from_absent _ _ i Hi Habsent) as [Hd Ht].
    cbn [replace strip_trailing_zeros].
    rewrite matches_trailing_zeros.
    + destruct (all_zeros (String d t)); [reflexivity |].
      f_equal. apply (IH (i + 1)); [lia | exact Ht].
    + destruct d as [[] [] [] [] [] [] [] []]; try exact I.
      now contradiction Hd.
Qed.

(** C10: with [removeTrailingZeros] and a rendering without a decimal
    point ([decimals = 0]), [formatNumber] strips the trailing zeros of the
    integer part itself: [formatNumber(100, 0, true)] and
    [formatNumber(10, 0, true)] are both ["1"]. *)
Theorem formatNumber_strips_integer_zeros :
  formatNumber (of_Z 100) (Some (of_Z 0)) (Some true) = Return "1"%string /\
  formatNumber (of_Z 10) (Some (of_Z 0)) (Some true) = Return "1"%string /\
  toFixed (of_Z 100) (of_Z 0) = Some "100"%string /\
  toFixed (of_Z 10) (of_Z 0) = Some "10"%string /\
  (forall (num : number) (formatted : string),
     toFixed num (of_Z 0) = Some formatted ->
     indexOf formatted "." = -1 ->
     formatNumber num (Some (of_Z 0)) (Some true)
       = Return (strip_trailing_zeros formatted)).
Proof.
  do 4 (split; [vm_compute; reflexivity |]).
  intros num formatted Hfixed Hdot.
  unfold formatNumber. cbn [default]. rewrite Hfixed.
  f_equal. apply (replace_trailing_zeros formatted 0); [lia | exact Hdot].
Qed.

Lemma formatNumber_strips_integer_zeros_witness :
  formatNumber (of_Z 1200) (Some (of_Z 0)) (Some true)
    = Return (strip_trailing_zeros "1200").
Proof.
  apply (proj2 (proj2 (proj2 (proj2 formatNumber_strips_integer_zeros)))).
  - vm_compute. reflexivity.
  - vm_compute. reflexivity.
Defined.

(** ** The Calculator *)

Section CalculatorFacts.

Variable Math_pow : number -> number -> number.

Lemma get_after_set (this : ref) (v : number) (h : heap) :
  value (cells (snd (set_value this v h)) this) = v.
Proof.
  cbn. now rewrite Nat.eqb_refl.
Qed.

(** A call either throws, and leaves the heap as it was, or stores the
    transformed accumulator and returns [this]. *)
Lemma invoke_transform (this : ref) (op : operation) (h : heap) :
  invoke Math_pow this op h =
  match transform Math_pow op (value (cells h this)) with
  | Return v' => (Return this, snd (set_value this v' h))
  | Throw e => (Throw e, h)
  end.
Proof.
  destruct op as [num | num | num | num precision | exponent
                 | | | decimals | decimals | decimals];
    cbn [invoke transform]; try reflexivity.
  unfold sqrt, bind, get_value, throw.
    now destruct (lt (value (cells h this)) (of_Z 0)).
Qed.

Lemma chain_in_call_order (ops : list operation) :
  forall (this : ref) (h : heap),
    match in_call_order Math_pow ops (value (cells h this)) with
    | Return v' =>
        exists h', chain Math_pow this ops h = (Return this, h') /\
                   value (cells h' this) = v'
    | Throw e => exists h', chain Math_pow this ops h = (Throw e, h')
    end.
Proof.
  induction ops as [| op ops IH]; intros this h; cbn [in_call_order chain].
  - now exists h.
  - unfold bind. rewrite invoke_transform.
    destruct (transform Math_pow op (value (cells h this))) as [v' | e].
    + specialize (IH this (snd (set_value this v' h))).
      rewrite get_after_set in IH. exact IH.
    + now exists h.
Qed.

End CalculatorFacts.



(** The chain of the example evaluates to [7.6666666667], and to [3] once
    [divide(3)] comes before [multiply(2)]. *)
Lemma chain_example_eval (Math_pow : number -> number -> number) (h : heap) :
  pow_ten_exact Math_pow ->
  fst (chain_example Math_pow h) = Return (of_decimal 76666666667 (-10)) /\
  fst (chain_reordered Math_pow h) = Return (of_Z 3).
Proof.
  intros exact.
  unfold chain_example, chain_reordered, new_Calculator, add, multiply,
    subtract, divide, result, bind, call, ret, get_value, set_value.
  cbn [fst snd cells value next default].
  rewrite !Nat.eqb_refl. cbn [value].
  rewrite (preciseAdd_eval _ exact _ _ 0) by (vm_compute; intuition congruence).
  split.
  - rewrite (preciseMultiply_eval _ exact _ _ 0)
      by (vm_compute; intuition congruence).
    rewrite (preciseSubtract_eval _ exact _ _ 0)
      by (vm_compute; intuition congruence).
    rewrite (preciseDivide_eval _ exact _ _ 10)
      by (vm_compute; intuition congruence).
    cbn [fst snd cells value]. rewrite !Nat.eqb_refl. cbn [value].
    vm_compute. reflexivity.
  - rewrite (preciseDivide_eval _ exact _ _ 10)
      by (vm_compute; intuition congruence).
    cbn [fst snd cells value]. rewrite !Nat.eqb_refl. cbn [value].
    rewrite (preciseMultiply_eval _ exact _ _ 0)
      by (vm_compute; intuition congruence).
    rewrite (preciseSubtract_eval _ exact _ _ 0)
      by (vm_compute; intuition congruence).
    vm_compute. reflexivity.
Qed.

(** C5, as stated, fails: the chain does not evaluate to
    [3.6666666667]. *)
Lemma chain_example_is_not_3_6666666667 :
  ~ (forall Math_pow : number -> number -> number,
       pow_ten_exact Math_pow ->
       fst (chain_example Math_pow empty_heap)
         = Return (of_decimal 36666666667 (-10))).
Proof.
  intros claim.
  specialize (claim integer_pow integer_pow_exact).
  rewrite (proj1 (chain_example_eval integer_pow empty_heap
                    integer_pow_exact)) in claim.
  apply Return_injective in claim. revert claim.
  apply different. vm_compute. reflexivity.
Qed.

(** C5, amended:
    [Calculator(10).add(5).multiply(2).subtract(7).divide(3).result()] is
    [7.6666666667] at the default division precision of 10, and the chain
    with [divide(3)] before [multiply(2)] gives another result, [3]. *)
Theorem chain_example_result
    (Math_pow : number -> number -> number) (h : heap) :
  pow_ten_exact Math_pow ->
  fst (chain_example Math_pow h) = Return (of_decimal 76666666667 (-10)) /\
  fst (chain_reordered Math_pow h) = Return (of_Z 3) /\
  fst (chain_reordered Math_pow h) <> fst (chain_example Math_pow h).
Proof.
  intros exact.
  destruct (chain_example_eval Math_pow h exact) as [He Hr].
  rewrite He, Hr. repeat apply conj; try reflexivity.
  intros E. apply Return_injective in E. revert E.
  apply different. vm_compute. reflexivity.
Qed.

Lemma chain_example_result_witness :
  fst (chain_example integer_pow empty_heap)
    = Return (of_decimal 76666666667 (-10)) /\
  fst (chain_reordered integer_pow empty_heap) = Return (of_Z 3) /\
  fst (chain_reordered integer_pow empty_heap)
    <> fst (chain_example integer_pow empty_heap).
Proof.
  exact (chain_example_result integer_pow empty_heap integer_pow_exact).
Defined.

(** C6: [sqrt()] throws the negative-operand error exactly when the
    accumulator is below zero, and a call that throws ([sqrt()] on a
    negative accumulator, [divide] by zero) leaves the heap as it was: a
    later [result()] returns the accumulator of before the call. *)
Theorem failing_call_keeps_accumulator
    (Math_pow : number -> number -> number) (this : ref) (h : heap) :
  (fst (sqrt this h) = Throw NegativeOperand
     <-> lt (value (cells h this)) (of_Z 0) = true) /\
  (fst (sqrt this h) = Return this
     <-> lt (value (cells h this)) (of_Z 0) = false) /\
  (forall num precision,
     is_zero num = true ->
     invoke Math_pow this (Divide num precision) h
       = (Throw DivisionByZero, h)) /\
  (forall op e h',
     invoke Math_pow this op h = (Throw e, h') ->
     h' = h /\
     fst (result this h') = Return (value (cells h this)) /\
     ((op = Sqrt /\ e = NegativeOperand /\
       lt (value (cells h this)) (of_Z 0) = true) \/
      (exists num precision,
         op = Divide num precision /\ e = DivisionByZero /\
         is_zero num = true))).
Proof.
  repeat split.
  - unfold sqrt, bind, get_value, throw.
    destruct (lt (value (cells h this)) (of_Z 0)); [reflexivity |].
    discriminate.
  - intros Hlt. unfold sqrt, bind, get_value, throw. now rewrite Hlt.
  - unfold sqrt, bind, get_value, throw.
    destruct (lt (value (cells h this)) (of_Z 0)); [discriminate |].
    reflexivity.
  - intros Hlt. unfold sqrt, bind, get_value, throw. now rewrite Hlt.
  - intros num precision Hz. rewrite invoke_transform. cbn [transform].
    unfold preciseDivide. cbv zeta. now rewrite strict_eq_zero, Hz.
  - rewrite invoke_transform in H.
    destruct (transform Math_pow op (value (cells h this)));
      [discriminate H | now injection H].
  - rewrite invoke_transform in H.
    destruct (transform Math_pow op (value (cells h this)));
      [discriminate H | now injection H as _ <-].
  - rewrite invoke_transform in H.
    destruct (transform Math_pow op (value (cells h this))) as [v' | e0] eqn:T;
      [discriminate H |].
    injection H as -> _.
    destruct op as [num | num | num | num precision | exponent
                   | | | decimals | decimals | decimals];
      cbn [transform] in T; try discriminate T.
    + right. exists num, precision. unfold preciseDivide in T.
      cbv zeta in T. rewrite strict_eq_zero in T.
      destruct (is_zero num); [| discriminate T].
      now injection T as <-.
    + left. destruct (lt (value (cells h this)) (of_Z 0));
        [| discriminate T].
      now injection T as <-.
Qed.

Lemma failing_call_keeps_accumulator_witness :
  let h := snd (new_Calculator (Some (of_Z (-4))) empty_heap) in
  snd (sqrt O h) = h /\
  fst (result O (snd (sqrt O h))) = Return (of_Z (-4)).
Proof.
  intros h.
  destruct (proj2 (proj2 (proj2
              (failing_call_keeps_accumulator integer_pow O h)))
              Sqrt NegativeOperand (snd (sqrt O h)) eq_refl)
    as (Hh & Hres & _).
  split; [exact Hh | exact Hres].
Defined.

(** * Properties of the math utilities and further properties of the
      precise functions *)

Import MathUtils.

(** ** Safe integers under the operators of the math utilities *)

Lemma integer_value_of_Z (z : Z) : safe z -> integer_value (of_Z z) = Some z.
Proof.
  intros Sz. destruct (Z.eq_dec z 0) as [-> | Hz]; [reflexivity |].
  rewrite (of_Z_finite z Hz Sz). unfold integer_value.
  pose proof (exponent_nonpos z Hz Sz) as He.
  pose proof (mantissa_value z Hz Sz) as Hm.
  assert (HP : 0 < 2 ^ (- exponent z)) by (apply Z.pow_pos_nonneg; lia).
  assert (Hsign : cond_Zopp (z <? 0) (Z.abs z) = z)
    by (destruct (Z.ltb_spec z 0); cbn [cond_Zopp]; lia).
  destruct (Z.leb_spec 0 (exponent z)).
  - replace (exponent z) with 0 in * by lia.
    rewrite Z.pow_0_r, Z.mul_1_r in *. now rewrite Hm, Hsign.
  - rewrite Hm, Z.mod_mul, Z.div_mul by lia. cbn [Z.eqb].
    now rewrite Hsign.
Qed.

Lemma Number_isInteger_of_Z (z : Z) :
  safe z -> Number_isInteger (of_Z z) = true.
Proof.
  intros Sz. unfold Number_isInteger. now rewrite integer_value_of_Z.
Qed.

Lemma Math_abs_of_Z (z : Z) : safe z -> Math_abs (of_Z z) = of_Z (Z.abs z).
Proof.
  intros Sz. destruct (Z.eq_dec z 0) as [-> | Hz]; [reflexivity |].
  rewrite (of_Z_finite z Hz Sz), (of_Z_finite (Z.abs z))
    by (lia || unfold safe in *; lia).
  unfold Math_abs, SFabs, mantissa, exponent.
  rewrite Z.abs_idemp, Zdigits2_abs.
  replace (Z.abs z <? 0) with false by (symmetry; apply Z.ltb_ge; lia).
  reflexivity.
Qed.

(** Comparison of two positive safe integers through their canonical
    forms. *)
Lemma compare_canonical (x y : Z) :
  0 < x -> 0 < y -> safe x -> safe y ->
  match exponent x ?= exponent y with
  | Lt => Lt
  | Gt => Gt
  | Eq => Pos.compare_cont Eq (mantissa x) (mantissa y)
  end = (x ?= y).
Proof.
  intros Hx Hy Sx Sy.
  pose proof (Zdigits2_bounds x ltac:(lia)) as [Lx Ux].
  pose proof (Zdigits2_bounds y ltac:(lia)) as [Ly Uy].
  pose proof (Zdigits2_safe x ltac:(lia) Sx) as Dx.
  pose proof (Zdigits2_safe y ltac:(lia) Sy) as Dy.
  rewrite Z.abs_eq in Lx, Ux, Ly, Uy by lia.
  unfold exponent.
  destruct (Z.compare_spec (Zdigits2 x - 53) (Zdigits2 y - 53)) as [He | He | He].
  - assert (Hd : Zdigits2 x = Zdigits2 y) by lia.
    change (Pos.compare_cont Eq (mantissa x) (mantissa y))
      with (Zpos (mantissa x) ?= Zpos (mantissa y)).
    rewrite !mantissa_value by (lia || assumption).
    unfold exponent. rewrite Hd, !Z.abs_eq by lia.
    assert (0 < 2 ^ (- (Zdigits2 y - 53))) by (apply Z.pow_pos_nonneg; lia).
    destruct (Z.compare_spec x y) as [-> | Hlt | Hgt].
    + apply Z.compare_refl.
    + apply Z.compare_lt_iff. nia.
    + apply Z.compare_gt_iff. nia.
  - symmetry. apply Z.compare_lt_iff.
    assert (2 ^ Zdigits2 x <= 2 ^ (Zdigits2 y - 1))
      by (apply Z.pow_le_mono_r; lia).
    lia.
  - symmetry. apply Z.compare_gt_iff.
    assert (2 ^ Zdigits2 y <= 2 ^ (Zdigits2 x - 1))
      by (apply Z.pow_le_mono_r; lia).
    lia.
Qed.

Lemma mantissa_opp (z : Z) : mantissa (- z) = mantissa z.
Proof.
  unfold mantissa. rewrite Z.abs_opp. now destruct z.
Qed.

Lemma exponent_opp (z : Z) : exponent (- z) = exponent z.
Proof.
  unfold exponent. now destruct z.
Qed.

Lemma SFcompare_integers (x y : Z) :
  safe x -> safe y -> SFcompare (of_Z x) (of_Z y) = Some (x ?= y).
Proof.
  intros Sx Sy.
  destruct (Z.eq_dec x 0) as [-> | Hx]; destruct (Z.eq_dec y 0) as [-> | Hy];
    rewrite ?(of_Z_finite x), ?(of_Z_finite y) by assumption;
    change (of_Z 0) with (S754_zero false); cbn [SFcompare].
  - reflexivity.
  - destruct (Z.ltb_spec y 0); f_equal; symmetry;
      [apply Z.compare_gt_iff | apply Z.compare_lt_iff]; lia.
  - destruct (Z.ltb_spec x 0); f_equal; symmetry;
      [apply Z.compare_lt_iff | apply Z.compare_gt_iff]; lia.
  - destruct (Z.ltb_spec x 0), (Z.ltb_spec y 0); f_equal.
    + rewrite <- (mantissa_opp x), <- (mantissa_opp y),
        <- (exponent_opp x), <- (exponent_opp y).
      pose proof (compare_canonical (- x) (- y) ltac:(lia) ltac:(lia)
                    (safe_opp x Sx) (safe_opp y Sy)) as Hc.
      rewrite Z.compare_opp, (Z.compare_antisym x y) in Hc.
      destruct (exponent (- x) ?= exponent (- y));
        [rewrite Hc; apply CompOpp_involutive | |];
        destruct (x ?= y); cbn in Hc; congruence.
    + symmetry. apply Z.compare_lt_iff. lia.
    + symmetry. apply Z.compare_gt_iff. lia.
    + apply compare_canonical; (lia || assumption).
Qed.

Lemma lt_integers (x y : Z) :
  safe x -> safe y -> lt (of_Z x) (of_Z y) = (x <? y).
Proof.
  intros Sx Sy. unfold lt, SFltb. rewrite SFcompare_integers by assumption.
  unfold Z.ltb. now destruct (x ?= y).
Qed.

Lemma le_integers (x y : Z) :
  safe x -> safe y -> le (of_Z x) (of_Z y) = (x <=? y).
Proof.
  intros Sx Sy. unfold le, SFleb. rewrite SFcompare_integers by assumption.
  unfold Z.leb. now destruct (x ?= y).
Qed.

Lemma strict_eq_integers (x y : Z) :
  safe x -> safe y -> strict_eq (of_Z x) (of_Z y) = (x =? y).
Proof.
  intros Sx Sy. unfold strict_eq, SFeqb.
  rewrite SFcompare_integers by assumption.
  destruct (Z.compare_spec x y) as [-> | H | H].
  - now rewrite Z.eqb_refl.
  - symmetry. apply Z.eqb_neq. lia.
  - symmetry. apply Z.eqb_neq. lia.
Qed.

Lemma frem_integers (a b : Z) :
  0 <= a -> 0 < b -> safe a -> safe b ->
  frem (of_Z a) (of_Z b) = of_Z (a mod b).
Proof.
  intros Ha Hb Sa Sb.
  rewrite (of_Z_finite b) by (lia || assumption).
  destruct (Z.eq_dec a 0) as [-> | Hnz]; [reflexivity |].
  rewrite (of_Z_finite a Hnz Sa).
  replace (a <? 0) with false by (symmetry; apply Z.ltb_ge; lia).
  pose proof (exponent_nonpos a Hnz Sa) as Ea.
  pose proof (exponent_nonpos b ltac:(lia) Sb) as Eb.
  pose proof (mantissa_value a Hnz Sa) as Ma.
  pose proof (mantissa_value b ltac:(lia) Sb) as Mb.
  rewrite Z.abs_eq in Ma, Mb by lia.
  cbn [frem]. set (e := Z.min (exponent a) (exponent b)).
  assert (He : e <= 0) by (unfold e; lia).
  assert (HN : Zpos (mantissa a) * 2 ^ (exponent a - e) = a * 2 ^ (- e)).
  { rewrite Ma, <- Z.mul_assoc, <- Z.pow_add_r by (unfold e; lia).
    do 2 f_equal. lia. }
  assert (HD : Zpos (mantissa b) * 2 ^ (exponent b - e) = b * 2 ^ (- e)).
  { rewrite Mb, <- Z.mul_assoc, <- Z.pow_add_r by (unfold e; lia).
    do 2 f_equal. lia. }
  assert (HP : 0 < 2 ^ (- e)) by (apply Z.pow_pos_nonneg; lia).
  rewrite HN, HD, Z.mul_mod_distr_r by lia.
  pose proof (Z.mod_pos_bound a b Hb) as Hr.
  assert (Sr : safe (a mod b)) by (unfold safe in *; lia).
  destruct (Z.eqb_spec (a mod b * 2 ^ (- e)) 0) as [Hz | Hz].
  - replace (a mod b) with 0 by nia. reflexivity.
  - cbn [cond_Zopp]. now apply binary_normalize_integer.
Qed.

Lemma Zdigits2_mul_le (q d : Z) :
  q <> 0 -> d <> 0 -> Zdigits2 (q * d) <= Zdigits2 q + Zdigits2 d.
Proof.
  intros Hq Hd.
  pose proof (Zdigits2_bounds q Hq) as [_ Uq].
  pose proof (Zdigits2_bounds d Hd) as [_ Ud].
  pose proof (Zdigits2_bounds (q * d) ltac:(nia)) as [Lp _].
  assert (0 < Zdigits2 q) by (destruct q; [contradiction | |]; cbn; lia).
  assert (0 < Zdigits2 d) by (destruct d; [contradiction | |]; cbn; lia).
  destruct (Z.le_gt_cases (Zdigits2 (q * d)) (Zdigits2 q + Zdigits2 d))
    as [| Hgt]; [assumption |].
  assert (2 ^ (Zdigits2 q + Zdigits2 d) <= 2 ^ (Zdigits2 (q * d) - 1))
    by (apply Z.pow_le_mono_r; lia).
  rewrite Z.pow_add_r in * by lia. rewrite Z.abs_mul in Lp. nia.
Qed.

(** A division that leaves no remainder is exact. *)
Lemma fdiv_integers (q d : Z) :
  q <> 0 -> d <> 0 -> safe (q * d) ->
  fdiv (of_Z (q * d)) (of_Z d) = of_Z q.
Proof.
  intros Hq Hd Sp.
  assert (Hp : q * d <> 0) by nia.
  assert (Sq : safe q) by (unfold safe in *; nia).
  assert (Sd : safe d) by (unfold safe in *; nia).
  rewrite (of_Z_finite _ Hp Sp), (of_Z_finite d Hd Sd), (of_Z_finite q Hq Sq).
  pose proof (mantissa_value _ Hp Sp) as Mp.
  pose proof (mantissa_value d Hd Sd) as Md.
  pose proof (mantissa_value q Hq Sq) as Mq.
  pose proof (mantissa_canonical q Hq Sq) as Cq.
  pose proof (Zdigits2_safe _ Hp Sp) as Dp.
  pose proof (Zdigits2_safe d Hd Sd) as Dd.
  pose proof (Zdigits2_safe q Hq Sq) as Dq.
  pose proof (Zdigits2_mul_le q d Hq Hd) as Dmul.
  pose proof (Zdigits2_monotone d (q * d) Hd ltac:(nia)) as Dmono.
  assert (Hdp : digits2 (mantissa (q * d)) = 53).
  { destruct (mantissa_canonical _ Hp Sp) as [Hf _].
    unfold fexp, emin, prec, emax, exponent in Hf. lia. }
  assert (Hdd : digits2 (mantissa d) = 53).
  { destruct (mantissa_canonical _ Hd Sd) as [Hf _].
    unfold fexp, emin, prec, emax, exponent in Hf. lia. }
  unfold fdiv, SFdiv, SFdiv_core_binary. cbn [Zdigits2].
  fold (digits2 (mantissa (q * d))). fold (digits2 (mantissa d)).
  rewrite Hdp, Hdd.
  set (ep := exponent (q * d)) in *. set (ed := exponent d) in *.
  assert (Hep : ep - ed = Zdigits2 (q * d) - Zdigits2 d)
    by (unfold ep, ed, exponent; lia).
  replace (Z.min (fexp prec emax (53 + ep - (53 + ed))) (ep - ed))
    with (ep - ed - 53)
    by (unfold fexp, emin, prec, emax; lia).
  replace (ep - ed - (ep - ed - 53)) with 53 by lia.
  rewrite Z.shiftl_mul_pow2 by lia.
  set (Q := Z.abs q * 2 ^ (53 - ep + ed)).
  assert (HPQ : 0 < 2 ^ (53 - ep + ed)) by (apply Z.pow_pos_nonneg; lia).
  assert (HQ : Zpos (mantissa (q * d)) * 2 ^ 53 = Q * Zpos (mantissa d)).
  { unfold Q. rewrite Mp, Md, Z.abs_mul. fold ep ed.
    replace (Z.abs q * Z.abs d * 2 ^ (- ep) * 2 ^ 53)
      with (Z.abs q * Z.abs d * (2 ^ (- ep) * 2 ^ 53)) by ring.
    replace (Z.abs q * 2 ^ (53 - ep + ed) * (Z.abs d * 2 ^ (- ed)))
      with (Z.abs q * Z.abs d * (2 ^ (53 - ep + ed) * 2 ^ (- ed))) by ring.
    rewrite <- !Z.pow_add_r by (unfold ep, ed, exponent in *; lia).
    do 2 f_equal. lia. }
  assert (Hdiv : Z.div_eucl (Zpos (mantissa (q * d)) * 2 ^ 53)
                   (Zpos (mantissa d)) = (Q, 0)).
  { pose proof (Z.div_eucl_eq (Zpos (mantissa (q * d)) * 2 ^ 53)
                  (Zpos (mantissa d)) ltac:(lia)) as Heq.
    pose proof (Z.mod_pos_bound (Zpos (mantissa (q * d)) * 2 ^ 53)
                  (Zpos (mantissa d)) ltac:(lia)) as Hb.
    unfold Z.modulo in Hb.
    destruct (Z.div_eucl (Zpos (mantissa (q * d)) * 2 ^ 53)
                (Zpos (mantissa d))) as [q0 r0].
    rewrite HQ in Heq.
    assert (q0 = Q) by nia. subst q0. f_equal. lia. }
  rewrite Hdiv.
  assert (Hloc : new_location (Zpos (mantissa d)) 0 = loc_Exact).
  { unfold new_location, new_location_even, new_location_odd.
    now destruct (Z.even (Zpos (mantissa d))). }
  rewrite Hloc.
  replace (xorb (q * d <? 0) (d <? 0)) with (q <? 0)
    by (destruct (Z.ltb_spec (q * d) 0), (Z.ltb_spec d 0), (Z.ltb_spec q 0);
        try reflexivity; nia).
  assert (HQpos : 0 < Q) by (unfold Q; nia).
  destruct Q as [| Qp | Qp] eqn:EQ; try lia.
  apply binary_round_aux_exact; [exact Cq | unfold exponent; lia |].
  rewrite <- EQ. unfold Q. rewrite Mq.
  rewrite <- Z.mul_assoc, <- Z.pow_add_r by (unfold exponent in *; lia).
  do 2 f_equal. unfold exponent in *. lia.
Qed.

(** ** The order of numbers *)

Lemma compare_cont_opp (m n : positive) :
  PosDef.Pos.compare_cont Eq n m = CompOpp (PosDef.Pos.compare_cont Eq m n).
Proof. apply Pos.compare_antisym. Qed.

Lemma SFcompare_opp (x y : number) :
  SFcompare y x = option_map CompOpp (SFcompare x y).
Proof.
  destruct x as [a | a | | a m e], y as [b | b | | b n f]; cbn [SFcompare option_map];
    try reflexivity; try (destruct a; reflexivity); try (destruct b; reflexivity);
    try (destruct a, b; reflexivity).
  f_equal. rewrite (Z.compare_antisym f e), (compare_cont_opp n m).
  destruct a, b; try reflexivity;
    destruct (f ?= e); cbn [CompOpp]; try reflexivity;
    destruct (PosDef.Pos.compare_cont Eq n m); reflexivity.
Qed.

Lemma SFcompare_defined (x y : number) :
  is_nan x = false -> is_nan y = false -> exists c, SFcompare x y = Some c.
Proof.
  destruct x, y; cbn [is_nan SFcompare]; try discriminate; intros _ _; eauto.
Qed.

Lemma le_defined (x y : number) :
  le x y = true -> is_nan x = false /\ is_nan y = false.
Proof.
  unfold le, SFleb. destruct x, y; cbn [SFcompare is_nan]; try discriminate; auto.
Qed.

(** Of two numbers, one is below the other. *)
Lemma le_or_lt (x y : number) :
  is_nan x = false -> is_nan y = false -> lt x y = false -> le y x = true.
Proof.
  intros Hx Hy. unfold lt, le, SFltb, SFleb. rewrite (SFcompare_opp x y).
  destruct (SFcompare_defined x y Hx Hy) as [c ->].
  destruct c; cbn [option_map CompOpp]; congruence.
Qed.

Lemma lt_implies_le (x y : number) : lt x y = true -> le x y = true.
Proof.
  unfold lt, le, SFltb, SFleb. destruct (SFcompare x y) as [[| |] |]; congruence.
Qed.

Lemma le_not_lt (x y : number) : le x y = true -> lt y x = false.
Proof.
  unfold lt, le, SFltb, SFleb. rewrite (SFcompare_opp x y).
  destruct (SFcompare x y) as [[| |] |]; cbn [option_map CompOpp]; congruence.
Qed.

Lemma SFcompare_refl (x : number) : is_nan x = false -> SFcompare x x = Some Eq.
Proof.
  destruct x as [a | a | | a m e]; cbn [is_nan SFcompare]; try discriminate;
    intros _; try reflexivity; [destruct a; reflexivity |].
  rewrite Z.compare_refl. change (PosDef.Pos.compare_cont Eq m m) with (m ?= m)%positive.
  rewrite Pos.compare_refl. destruct a; reflexivity.
Qed.

Lemma le_reflexive (x : number) : is_nan x = false -> le x x = true.
Proof.
  intros H. unfold le, SFleb. now rewrite SFcompare_refl.
Qed.

Lemma strict_eq_refl (x : number) : is_nan x = false -> strict_eq x x = true.
Proof.
  intros H. unfold strict_eq, SFeqb. now rewrite SFcompare_refl.
Qed.

(** [Math.max] is one of its arguments, up to the sign of a zero. *)
Lemma Math_max_cases (x y : number) :
  is_nan x = false -> is_nan y = false ->
  (Math_max x y = y /\ le x y = true) \/
  (Math_max x y = x /\ le y x = true) \/
  (exists a b c, x = S754_zero a /\ y = S754_zero b /\ Math_max x y = S754_zero c).
Proof.
  intros Hx Hy.
  assert (H : (if SFltb x y then y else x) = y /\ le x y = true \/
              (if SFltb x y then y else x) = x /\ le y x = true).
  { destruct (SFltb x y) eqn:E.
    - left. split; [reflexivity | now apply lt_implies_le].
    - right. split; [reflexivity | now apply le_or_lt]. }
  destruct x as [a | a | | a m e]; try discriminate Hx;
    destruct y as [b | b | | b n f]; try discriminate Hy;
    cbn [Math_max]; try (destruct H as [H | H]; [left | right; left]; exact H).
  right; right. now exists a, b, (a && b).
Qed.

Lemma Math_min_cases (x y : number) :
  is_nan x = false -> is_nan y = false ->
  (Math_min x y = y /\ le y x = true) \/
  (Math_min x y = x /\ le x y = true) \/
  (exists a b c, x = S754_zero a /\ y = S754_zero b /\ Math_min x y = S754_zero c).
Proof.
  intros Hx Hy.
  assert (H : (if SFltb y x then y else x) = y /\ le y x = true \/
              (if SFltb y x then y else x) = x /\ le x y = true).
  { destruct (SFltb y x) eqn:E.
    - left. split; [reflexivity | now apply lt_implies_le].
    - right. split; [reflexivity | now apply le_or_lt]. }
  destruct x as [a | a | | a m e]; try discriminate Hx;
    destruct y as [b | b | | b n f]; try discriminate Hy;
    cbn [Math_min]; try (destruct H as [H | H]; [left | right; left]; exact H).
  right; right. now exists a, b, (a || b).
Qed.

(** The sign of a zero does not matter to the order. *)
Lemma le_zero_r (x : number) (a b : bool) :
  le x (S754_zero a) = le x (S754_zero b).
Proof. now destruct x. Qed.

Lemma le_zero_l (x : number) (a b : bool) :
  le (S754_zero a) x = le (S754_zero b) x.
Proof. now destruct x. Qed.

Lemma strict_eq_zero_l (x : number) (a b : bool) :
  strict_eq (S754_zero a) x = strict_eq (S754_zero b) x.
Proof. now destruct x. Qed.

Lemma le_antisymmetric (x y : number) :
  le x y = true -> le y x = true -> strict_eq x y = true.
Proof.
  unfold le, strict_eq, SFleb, SFeqb. rewrite (SFcompare_opp x y).
  destruct (SFcompare x y) as [[| |] |]; cbn [option_map CompOpp]; congruence.
Qed.

Lemma strict_eq_cases (x y : number) :
  strict_eq x y = true ->
  x = y \/ exists a b, x = S754_zero a /\ y = S754_zero b.
Proof.
  unfold strict_eq, SFeqb.
  destruct x as [a | a | | a m e], y as [b | b | | b n f]; cbn [SFcompare];
    try discriminate; try (destruct a; discriminate);
    try (destruct b; discriminate).
  - right. now exists a, b.
  - destruct a, b; try discriminate; now left.
  - intros H. left.
    assert (E : a = b /\ e = f /\ m = n).
    { change (PosDef.Pos.compare_cont Eq m n) with (m ?= n)%positive in H.
      destruct a, b; try discriminate H;
        destruct (Z.compare_spec e f); try discriminate H;
        destruct (Pos.compare_spec m n); try discriminate H; auto. }
    destruct E as (-> & -> & ->). reflexivity.
Qed.

Lemma le_strict_eq (x y z : number) :
  strict_eq x y = true -> le z x = true -> le z y = true.
Proof.
  intros E H. destruct (strict_eq_cases _ _ E) as [<- | (a & b & -> & ->)];
    [exact H |].
  now rewrite (le_zero_r z b a).
Qed.

(** X1: for [min <= max] and a [value] that is a number, [clamp] lies
    between [min] and [max], and it equals [value] where [value] does. *)
Theorem clamp_within_bounds (value min max : number) :
  is_nan value = false -> le min max = true ->
  le min (clamp value min max) = true /\
  le (clamp value min max) max = true /\
  (le min value = true -> le value max = true ->
   strict_eq (clamp value min max) value = true).
Proof.
  intros Hv Hle. destruct (le_defined _ _ Hle) as [Hlo Hhi].
  unfold clamp.
  assert (Hm : is_nan (Math_max value min) = false).
  { destruct (Math_max_cases value min Hv Hlo)
      as [[-> _] | [[-> _] | (a & b & c & _ & _ & ->)]]; auto. }
  assert (Hlom : le min (Math_max value min) = true).
  { destruct (Math_max_cases value min Hv Hlo)
      as [[-> _] | [[-> H] | (a & b & c & _ & -> & ->)]];
      [now apply le_reflexive | exact H |].
    rewrite (le_zero_r _ c b). now apply le_reflexive. }
  assert (Hvm : le min value = true ->
                strict_eq (Math_max value min) value = true).
  { intros H.
    destruct (Math_max_cases value min Hv Hlo)
      as [[-> H'] | [[-> _] | (a & b & c & -> & _ & ->)]];
      [now apply le_antisymmetric | now apply strict_eq_refl | reflexivity]. }
  set (m := Math_max value min) in *.
  destruct (Math_min_cases m max Hm Hhi)
    as [[-> H] | [[-> H] | (a & b & c & Em & Emax & ->)]].
  - repeat split; [exact Hle | now apply le_reflexive |].
    intros H1 H2. apply le_antisymmetric; [| exact H2].
    exact (le_strict_eq _ _ _ (Hvm H1) H).
  - repeat split; [exact Hlom | exact H |]. intros H1 _. exact (Hvm H1).
  - repeat split.
    + rewrite (le_zero_r _ c a), <- Em. exact Hlom.
    + rewrite Emax. reflexivity.
    + intros H1 _. rewrite (strict_eq_zero_l _ c a), <- Em. now apply Hvm.
Qed.

Lemma clamp_within_bounds_witness :
  le (of_Z 0) (clamp (of_Z 7) (of_Z 0) (of_Z 10)) = true /\
  le (clamp (of_Z 7) (of_Z 0) (of_Z 10)) (of_Z 10) = true /\
  (le (of_Z 0) (of_Z 7) = true -> le (of_Z 7) (of_Z 10) = true ->
   strict_eq (clamp (of_Z 7) (of_Z 0) (of_Z 10)) (of_Z 7) = true).
Proof.
  apply (clamp_within_bounds (of_Z 7) (of_Z 0) (of_Z 10));
    vm_compute; reflexivity.
Defined.

Lemma lt_le_trans (x y z : number) :
  lt x y = true -> le y z = true -> lt x z = true.
Proof.
  unfold lt, le, SFltb, SFleb.
  destruct x as [a | a | | a m e], y as [b | b | | b n f],
    z as [c | c | | c p g]; cbn [SFcompare];
    try discriminate; try reflexivity;
    try (destruct a; discriminate); try (destruct b; discriminate);
    try (destruct c; discriminate);
    try (destruct a, b; discriminate); try (destruct b, c; discriminate);
    try (destruct a, c; discriminate);
    try (destruct a, b, c; (discriminate || reflexivity)).
  all: change PosDef.Pos.compare_cont with Pos.compare_cont;
    rewrite <- ?Pos.compare_cont_spec; cbn [Pos.switch_Eq];
    fold (Pos.compare m n) (Pos.compare n p) (Pos.compare m p).
  all: destruct a, b, c; try discriminate; try reflexivity;
    destruct (Z.compare_spec e f); try discriminate;
    destruct (Z.compare_spec f g); try discriminate;
    destruct (Z.compare_spec e g); try lia; try reflexivity;
    destruct (Pos.compare_spec m n); try discriminate;
    destruct (Pos.compare_spec n p); try discriminate;
    destruct (Pos.compare_spec m p); try lia; try reflexivity;
    cbn [CompOpp]; try discriminate; try reflexivity.
Qed.

(** X2: called with [min] above [max], [clamp] returns [max], whatever the
    value, as long as it is a number. *)
Theorem clamp_of_crossed_bounds (value min max : number) :
  is_nan value = false -> lt max min = true ->
  clamp value min max = max.
Proof.
  intros Hv Hlt.
  destruct (le_defined _ _ (lt_implies_le _ _ Hlt)) as [Hhi Hlo].
  unfold clamp.
  assert (Hlom : le min (Math_max value min) = true).
  { destruct (Math_max_cases value min Hv Hlo)
      as [[-> _] | [[-> H] | (a & b & c & _ & -> & ->)]];
      [now apply le_reflexive | exact H |].
    rewrite (le_zero_r _ c b). now apply le_reflexive. }
  pose proof (lt_le_trans _ _ _ Hlt Hlom) as H.
  destruct (le_defined _ _ Hlom) as [_ Hm].
  set (m := Math_max value min) in *.
  destruct m as [a | a | | a p e]; try discriminate Hm;
    destruct max as [b | b | | b q f]; try discriminate Hhi;
    cbn [Math_min]; try (unfold lt in H; now rewrite H).
  discriminate H.
Qed.

Lemma clamp_of_crossed_bounds_witness :
  clamp (of_Z 5) (of_Z 10) (of_Z 0) = of_Z 0.
Proof.
  apply (clamp_of_crossed_bounds (of_Z 5) (of_Z 10) (of_Z 0));
    vm_compute; reflexivity.
Defined.

(** ** Scaling by one *)

Lemma valid_canonical (s : bool) (m : positive) (e : Z) :
  valid (S754_finite s m e) = true -> canonical m e.
Proof.
  unfold valid, valid_binary, bounded, canonical_mantissa, canonical, digits2.
  intros H. apply andb_prop in H as [Hc He].
  apply Z.eqb_eq in Hc. apply Z.leb_le in He. now split.
Qed.

Lemma fmul_one (x : number) : valid x = true -> fmul x (of_Z 1) = x.
Proof.
  intros Hx. change (of_Z 1) with (S754_finite false 4503599627370496 (-52)).
  unfold fmul, SFmul.
  destruct x as [s | s | | s m e]; rewrite ?xorb_false_r; try reflexivity.
  apply binary_round_aux_exact; [now apply (valid_canonical s) | lia |].
  replace (e - (e + -52)) with 52 by lia. rewrite Pos2Z.inj_mul. reflexivity.
Qed.

Lemma fdiv_one (x : number) : valid x = true -> fdiv x (of_Z 1) = x.
Proof.
  intros Hx. change (of_Z 1) with (S754_finite false 4503599627370496 (-52)).
  unfold fdiv, SFdiv.
  destruct x as [s | s | | s m e]; rewrite ?xorb_false_r; try reflexivity.
  pose proof (valid_canonical s m e Hx) as Hc. pose proof Hc as [Hf Hmax].
  unfold SFdiv_core_binary. cbn [Zdigits2].
  fold (digits2 m).
  change (Zpos (digits2_pos 4503599627370496)) with 53.
  pose proof (digits2_bounds m) as Hd.
  assert (Hd1 : 1 <= digits2 m) by (unfold digits2; lia).
  set (e' := fexp prec emax (digits2 m + e - (53 + -52))).
  assert (He' : e - 1 <= e' <= e).
  { unfold e'. unfold fexp, emin, prec, emax in *. lia. }
  replace (Z.min e' (e - -52)) with e' by lia.
  assert (Hs : 0 < e - -52 - e') by lia.
  destruct (e - -52 - e') as [| p | p] eqn:Es; try lia.
  rewrite Z.shiftl_mul_pow2 by lia. rewrite <- Es.
  assert (Hdiv : Z.div_eucl (Zpos m * 2 ^ (e - -52 - e')) 4503599627370496
                 = (Zpos m * 2 ^ (e - e'), 0)).
  { replace (e - -52 - e') with ((e - e') + 52) by lia.
    rewrite Z.pow_add_r by lia. change (2 ^ 52) with 4503599627370496.
    pose proof (Z.div_eucl_eq (Zpos m * (2 ^ (e - e') * 4503599627370496))
                  4503599627370496 ltac:(lia)) as Heq.
    pose proof (Z.mod_pos_bound (Zpos m * (2 ^ (e - e') * 4503599627370496))
                  4503599627370496 ltac:(lia)) as Hb.
    unfold Z.modulo in Hb.
    destruct (Z.div_eucl (Zpos m * (2 ^ (e - e') * 4503599627370496))
                4503599627370496) as [q r].
    assert (q = Zpos m * 2 ^ (e - e')) by nia.
    f_equal; lia. }
  rewrite Hdiv.
  assert (Hloc : new_location 4503599627370496 0 = loc_Exact) by reflexivity.
  rewrite Hloc.
  assert (HP : 0 < 2 ^ (e - e')) by (apply Z.pow_pos_nonneg; lia).
  destruct (Zpos m * 2 ^ (e - e')) as [| M | M] eqn:EM; try lia.
  apply binary_round_aux_exact; [exact Hc | lia | now rewrite EM].
Qed.

Lemma canonical_mantissa_below (m : positive) (e : Z) :
  canonical m e -> Zpos m < 2 ^ 53.
Proof.
  intros [Hf _]. pose proof (digits2_bounds m) as [_ Hd].
  assert (Hle : digits2 m <= 53)
    by (unfold fexp, emin, prec, emax in Hf; lia).
  assert (2 ^ digits2 m <= 2 ^ 53) by (apply Z.pow_le_mono_r; lia).
  lia.
Qed.

Lemma quotient_safe (a P : Z) : safe a -> 1 <= P -> safe (a / P).
Proof.
  unfold safe. intros Ha HP.
  assert (- 2 ^ 53 < a / P < 2 ^ 53); [| lia].
  split.
  - assert (- 2 ^ 53 + 1 <= a / P); [| lia].
    apply Z.div_le_lower_bound; [lia | nia].
  - apply Z.div_lt_upper_bound; [lia | nia].
Qed.

Lemma nearest_safe (a P : Z) :
  safe a -> 2 <= P -> safe ((2 * a + P) / (2 * P)).
Proof.
  unfold safe. intros Ha HP.
  assert (- 2 ^ 53 < (2 * a + P) / (2 * P) < 2 ^ 53); [| lia].
  split.
  - assert (- 2 ^ 53 + 1 <= (2 * a + P) / (2 * P)); [| lia].
    apply Z.div_le_lower_bound; [lia | nia].
  - apply Z.div_lt_upper_bound; [lia | nia].
Qed.

Lemma integral_div_one (s : bool) (r : Z) :
  safe r -> fdiv (integral s r) (of_Z 1) = integral s r.
Proof.
  intros Sr. unfold integral. destruct (r =? 0).
  - now destruct s.
  - now apply fdiv_integer_by_one.
Qed.

Lemma signed_mantissa_safe (s : bool) (m : positive) (e : Z) :
  canonical m e -> safe (cond_Zopp s (Zpos m)).
Proof.
  intros Hc. pose proof (canonical_mantissa_below m e Hc).
  unfold safe. destruct s; cbn [cond_Zopp]; lia.
Qed.

(** What [Math.round], [Math.floor] and [Math.ceil] return is left as it
    is by a division by one. *)
Lemma integers_div_one (x : number) :
  valid x = true ->
  fdiv (Math_round x) (of_Z 1) = Math_round x /\
  fdiv (Math_floor x) (of_Z 1) = Math_floor x /\
  fdiv (Math_ceil x) (of_Z 1) = Math_ceil x.
Proof.
  intros Hx.
  destruct x as [s | s | | s m e]; cbn [Math_round Math_floor Math_ceil];
    try (repeat split; now apply fdiv_one).
  pose proof (valid_canonical s m e Hx) as Hc.
  destruct (Z.leb_spec 0 e) as [He | He];
    [repeat split; now apply fdiv_one |].
  assert (HP : 2 <= 2 ^ (- e)).
  { change 2 with (2 ^ 1) at 1. apply Z.pow_le_mono_r; lia. }
  replace (2 ^ (1 - e)) with (2 * 2 ^ (- e))
    by (replace (1 - e) with (1 + - e) by lia;
        now rewrite Z.pow_add_r by lia).
  repeat split; apply integral_div_one.
  - apply nearest_safe; [now apply (signed_mantissa_safe s m e) | exact HP].
  - apply quotient_safe; [now apply (signed_mantissa_safe s m e) | lia].
  - apply safe_opp, quotient_safe;
      [now apply (signed_mantissa_safe (negb s) m e) | lia].
Qed.

(** X3: called without [decimals], [round], [ceil] and [floor] are
    [Math.round], [Math.ceil] and [Math.floor]: the scaling by [10^0] and
    back changes no binary64 value. *)
Theorem round_ceil_floor_without_decimals
    (Math_pow : number -> number -> number) (value : number) :
  pow_ten_exact Math_pow -> valid value = true ->
  round Math_pow value None = Math_round value /\
  ceil Math_pow value None = Math_ceil value /\
  floor Math_pow value None = Math_floor value.
Proof.
  intros exact Hv. unfold round, ceil, floor. cbn [default]. cbv zeta.
  rewrite (exact 0) by lia. change (10 ^ 0) with 1.
  rewrite (fmul_one value Hv).
  exact (conj (proj1 (integers_div_one value Hv))
           (conj (proj2 (proj2 (integers_div_one value Hv)))
                 (proj1 (proj2 (integers_div_one value Hv))))).
Qed.

Lemma round_ceil_floor_without_decimals_witness :
  round integer_pow (of_decimal (-25) (-1)) None
    = Math_round (of_decimal (-25) (-1)) /\
  ceil integer_pow (of_decimal (-25) (-1)) None
    = Math_ceil (of_decimal (-25) (-1)) /\
  floor integer_pow (of_decimal (-25) (-1)) None
    = Math_floor (of_decimal (-25) (-1)).
Proof.
  apply (round_ceil_floor_without_decimals integer_pow
           (of_decimal (-25) (-1)));
    [exact integer_pow_exact | vm_compute; reflexivity].
Defined.

(** ** Interpolation *)

Lemma clamp_below_zero (t : number) :
  le t (of_Z 0) = true -> clamp t (of_Z 0) (of_Z 1) = of_Z 0.
Proof.
  destruct t as [s | s | | s m e]; try discriminate;
    destruct s; try discriminate; intros _; reflexivity.
Qed.

Lemma clamp_above_one (t : number) :
  le (of_Z 1) t = true -> clamp t (of_Z 0) (of_Z 1) = of_Z 1.
Proof.
  intros H. unfold clamp.
  assert (Hmax : Math_max t (of_Z 0) = t).
  { destruct t as [s | s | | s m e]; try discriminate H;
      destruct s; try discriminate H; reflexivity. }
  rewrite Hmax.
  assert (Hmin : Math_min t (of_Z 1) = if SFltb (of_Z 1) t then of_Z 1 else t).
  { destruct t as [s | s | | s m e]; try discriminate H; reflexivity. }
  rewrite Hmin. destruct (SFltb (of_Z 1) t) eqn:E; [reflexivity |].
  destruct (le_defined _ _ H) as [H1 Ht].
  pose proof (le_or_lt _ _ H1 Ht E) as Hle.
  destruct (strict_eq_cases _ _ (le_antisymmetric _ _ H Hle))
    as [<- | (a & b & Ea & _)]; [reflexivity | discriminate Ea].
Qed.

(** X4: [lerp] clamps its factor: for [t <= 0] it returns what it returns
    for [0], and for [t >= 1] what it returns for [1]. *)
Theorem lerp_clamps_factor (start end_ t : number) :
  (le t (of_Z 0) = true -> lerp start end_ t = lerp start end_ (of_Z 0)) /\
  (le (of_Z 1) t = true -> lerp start end_ t = lerp start end_ (of_Z 1)).
Proof.
  unfold lerp. split; intros H.
  - now rewrite (clamp_below_zero t H).
  - now rewrite (clamp_above_one t H).
Qed.

(** ** Distances *)

Lemma abs_binary_round_aux (s : bool) (mx ex : Z) (lx : location) :
  SFabs (binary_round_aux prec emax s mx ex lx)
  = binary_round_aux prec emax false mx ex lx.
Proof.
  unfold binary_round_aux.
  destruct (shr_fexp prec emax mx ex lx) as [mrs' e'].
  destruct (shr_fexp prec emax _ e' loc_Exact) as [mrs'' e''].
  destruct (shr_m mrs''); [reflexivity | | reflexivity].
  now destruct (e'' <=? emax - prec).
Qed.

Lemma abs_binary_round (s : bool) (m : positive) (e : Z) :
  SFabs (binary_round prec emax s m e) = binary_round prec emax false m e.
Proof.
  unfold binary_round. destruct (shl_align m e _) as [mz ez].
  apply abs_binary_round_aux.
Qed.

Lemma abs_binary_normalize_opp (z e : Z) :
  SFabs (binary_normalize prec emax (- z) e false)
  = SFabs (binary_normalize prec emax z e false).
Proof.
  destruct z as [| p | p]; cbn [Z.opp binary_normalize]; [reflexivity | |];
    now rewrite !abs_binary_round.
Qed.

(** [|x - y| = |y - x|] for all numbers. *)
Lemma abs_fsub_comm (x y : number) :
  Math_abs (fsub x y) = Math_abs (fsub y x).
Proof.
  unfold Math_abs, fsub.
  destruct x as [a | a | | a m e], y as [b | b | | b n f]; cbn [SFsub SFabs];
    try reflexivity; try (destruct a, b; reflexivity).
  replace (IntDef.Z.min f e) with (IntDef.Z.min e f) by apply Z.min_comm.
  set (A := cond_Zopp a _). set (B := cond_Zopp b _).
  replace (B - A) with (- (A - B)) by lia.
  symmetry. apply abs_binary_normalize_opp.
Qed.

Lemma negative_abs (x : number) : negative (Math_abs x) = false.
Proof. now destruct x. Qed.

Lemma negative_binary_round_aux (mx ex : Z) (lx : location) :
  negative (binary_round_aux prec emax false mx ex lx) = false.
Proof.
  unfold binary_round_aux.
  destruct (shr_fexp prec emax mx ex lx) as [mrs' e'].
  destruct (shr_fexp prec emax _ e' loc_Exact) as [mrs'' e''].
  destruct (shr_m mrs''); [reflexivity | | reflexivity].
  now destruct (e'' <=? emax - prec).
Qed.

Lemma negative_fadd (x y : number) :
  negative x = false -> negative y = false -> negative (fadd x y) = false.
Proof.
  unfold fadd. intros Hx Hy.
  destruct x as [a | a | | a m e], y as [b | b | | b n f];
    cbn [negative] in Hx, Hy; subst; cbn [negative SFadd]; try reflexivity.
  cbn [cond_Zopp Z.add binary_normalize]. unfold binary_round.
  destruct (shl_align _ _ _) as [mz ez]. apply negative_binary_round_aux.
Qed.

Lemma not_negative_not_below_zero (x : number) :
  negative x = false -> lt x (of_Z 0) = false.
Proof.
  intros H. destruct x as [a | a | | a m e]; cbn [negative] in H; subst;
    reflexivity.
Qed.

(** X5: [manhattanDistance] is symmetric in its two points and never below
    zero, for all numbers. *)
Theorem manhattanDistance_symmetric_not_negative (x1 y1 x2 y2 : number) :
  manhattanDistance x1 y1 x2 y2 = manhattanDistance x2 y2 x1 y1 /\
  lt (manhattanDistance x1 y1 x2 y2) (of_Z 0) = false.
Proof.
  unfold manhattanDistance. split.
  - now rewrite (abs_fsub_comm x2 x1), (abs_fsub_comm y2 y1).
  - apply not_negative_not_below_zero, negative_fadd; apply negative_abs.
Qed.

(** X6: on points with integer coordinates [manhattanDistance] is the exact
    distance [|x2 - x1| + |y2 - y1|], as long as this stays below
    [2^53]. *)
Theorem manhattanDistance_of_integers (x1 y1 x2 y2 : Z) :
  safe x1 -> safe y1 -> safe x2 -> safe y2 ->
  Z.abs (x2 - x1) + Z.abs (y2 - y1) < 2 ^ 53 ->
  manhattanDistance (of_Z x1) (of_Z y1) (of_Z x2) (of_Z y2)
  = of_Z (Z.abs (x2 - x1) + Z.abs (y2 - y1)).
Proof.
  intros Sx1 Sy1 Sx2 Sy2 H. unfold manhattanDistance.
  rewrite !fsub_integers, !Math_abs_of_Z, fadd_integers;
    unfold safe in *; try lia.
  reflexivity.
Qed.

Lemma manhattanDistance_of_integers_witness :
  manhattanDistance (of_Z 3) (of_Z (-4)) (of_Z (-2)) (of_Z 8) = of_Z 17.
Proof.
  apply (manhattanDistance_of_integers 3 (-4) (-2) 8);
    vm_compute; reflexivity.
Defined.

(** ** Sums *)

Lemma sum_from (l : list Z) :
  forall acc : Z,
    Z.abs acc + total_magnitude l < 2 ^ 53 ->
    fold_left (fun acc val => fadd acc val) (map of_Z l) (of_Z acc)
    = of_Z (acc + total l).
Proof.
  induction l as [| z l IH]; intros acc Hsafe; cbn [map fold_left total
                                                     fold_right].
  - now rewrite Z.add_0_r.
  - cbn [total_magnitude fold_right] in Hsafe.
    fold (total_magnitude l) in Hsafe. fold (total l).
    assert (0 <= total_magnitude l).
    { clear. induction l; cbn; [lia |]. fold (total_magnitude l). lia. }
    rewrite fadd_integers by (unfold safe; lia).
    rewrite IH by lia. f_equal. lia.
Qed.

(** X7: the sum of integers whose magnitudes add up to less than [2^53] is
    exact, in whatever order they come; the sum of no number is [0]. *)
Theorem sum_of_integers (l : list Z) :
  total_magnitude l < 2 ^ 53 ->
  sum (map of_Z l) = of_Z (total l).
Proof.
  intros Hsafe. unfold sum. now rewrite sum_from by (cbn; lia).
Qed.

Lemma sum_of_integers_witness :
  sum (map of_Z [4503599627370000; -4503599627370000; 991]) = of_Z 991.
Proof.
  apply (sum_of_integers [4503599627370000; -4503599627370000; 991]).
  vm_compute. reflexivity.
Defined.

(** ** Greatest common divisor and least common multiple *)

Lemma gcd_of_naturals (fuel : nat) :
  forall a b : Z,
    0 <= a -> 0 <= b -> safe a -> safe b -> (Z.to_nat b < fuel)%nat ->
    gcd fuel (of_Z a) (of_Z b) = Some (Return (of_Z (Z.gcd a b))).
Proof.
  induction fuel as [| fuel IH]; intros a b Ha Hb Sa Sb Hfuel; [lia |].
  cbn [gcd].
  rewrite !Math_abs_of_Z, !Z.abs_eq by assumption.
  rewrite !Number_isInteger_of_Z by assumption. cbn [negb orb].
  rewrite strict_eq_integers by (assumption || unfold safe; cbn; lia).
  destruct (Z.eqb_spec b 0) as [-> | Hnz].
  - now rewrite Z.gcd_0_r, Z.abs_eq.
  - rewrite frem_integers by (lia || assumption).
    pose proof (Z.mod_pos_bound a b ltac:(lia)) as Hr.
    rewrite IH; try lia; try assumption; try (unfold safe in *; lia).
    do 3 f_equal. rewrite (Z.gcd_comm b), Z.gcd_mod by lia.
    apply Z.gcd_comm.
Qed.

Lemma gcd_of_signed (fuel : nat) (a b : Z) :
  safe a -> safe b -> (Z.to_nat (Z.abs b) < fuel)%nat ->
  gcd fuel (of_Z a) (of_Z b) = Some (Return (of_Z (Z.gcd a b))).
Proof.
  intros Sa Sb Hf.
  rewrite <- (Z.gcd_abs_l a), <- (Z.gcd_abs_r (Z.abs a)).
  rewrite <- (gcd_of_naturals fuel (Z.abs a) (Z.abs b))
    by (lia || unfold safe in *; lia).
  destruct fuel as [| fuel']; [lia |]. cbn [gcd].
  rewrite !Math_abs_of_Z by (assumption || unfold safe in *; lia).
  now rewrite !Z.abs_idemp.
Qed.

(** X8: on integers below [2^53], of either sign, [gcd] is the greatest
    common divisor, [gcd(a, 0)] being [|a|]; the recursion ends within
    [|b| + 1] calls. *)
Theorem gcd_of_integers (fuel : nat) (a b : Z) :
  safe a -> safe b -> (Z.to_nat (Z.abs b) < fuel)%nat ->
  gcd fuel (of_Z a) (of_Z b) = Some (Return (of_Z (Z.gcd a b))) /\
  gcd fuel (of_Z a) (of_Z 0) = Some (Return (of_Z (Z.abs a))).
Proof.
  intros Sa Sb Hfuel.
  split; [now apply gcd_of_signed |].
  rewrite (gcd_of_signed fuel a 0 Sa) by (unfold safe; cbn; lia).
  now rewrite Z.gcd_0_r.
Qed.

Lemma gcd_of_integers_witness :
  gcd 19 (of_Z (-48)) (of_Z 18) = Some (Return (of_Z 6)) /\
  gcd 19 (of_Z (-48)) (of_Z 0) = Some (Return (of_Z 48)).
Proof.
  apply (gcd_of_integers 19 (-48) 18); vm_compute; reflexivity.
Defined.

(** X9: on integers whose product is below [2^53] and that are not both
    zero, [lcm] is the least common multiple; [lcm(0, 0)] is [NaN], from
    the division [0 / 0]. *)
Theorem lcm_of_integers (fuel : nat) (a b : Z) :
  safe (a * b) -> safe a -> safe b -> (Z.to_nat (Z.abs b) < fuel)%nat ->
  lcm fuel (of_Z a) (of_Z b)
  = Some (Return (if (a =? 0) && (b =? 0) then NaN else of_Z (Z.lcm a b))).
Proof.
  intros Sab Sa Sb Hfuel. unfold lcm.
  rewrite !Math_abs_of_Z by assumption.
  rewrite !Number_isInteger_of_Z by (unfold safe in *; lia).
  cbn [negb orb].
  rewrite (gcd_of_signed fuel (Z.abs a) (Z.abs b))
    by (unfold safe in *; lia).
  rewrite Z.gcd_abs_l, Z.gcd_abs_r. do 2 f_equal.
  assert (Sabs : safe (Z.abs a * Z.abs b))
    by (unfold safe in *; rewrite <- Z.abs_mul; lia).
  destruct (Z.eqb_spec a 0) as [-> | Ha]; destruct (Z.eqb_spec b 0) as [-> | Hb];
    cbn [andb Z.abs Z.mul].
  - reflexivity.
  - replace (Z.gcd 0 b) with (Z.abs b) by (symmetry; apply Z.gcd_0_l).
    replace (Z.lcm 0 b) with 0 by (symmetry; apply Z.lcm_0_l).
    rewrite fmul_positive_integer_r by (lia || unfold safe in *; cbn; lia).
    cbn [Z.mul]. rewrite (of_Z_finite (Z.abs b)) by (lia || unfold safe in *; lia).
    replace (Z.abs b <? 0) with false by (symmetry; apply Z.ltb_ge; lia).
    reflexivity.
  - replace (Z.gcd a 0) with (Z.abs a) by (symmetry; apply Z.gcd_0_r).
    replace (Z.lcm a 0) with 0 by (symmetry; apply Z.lcm_0_r).
    rewrite fmul_positive_integer_l by (lia || unfold safe in *; cbn; lia).
    rewrite Z.mul_0_r, (of_Z_finite (Z.abs a)) by (lia || unfold safe in *; lia).
    replace (Z.abs a <? 0) with false by (symmetry; apply Z.ltb_ge; lia).
    reflexivity.
  - rewrite fmul_nonzero_integers by (lia || unfold safe in *; lia).
    pose proof (Z.gcd_nonneg a b).
    assert (Hg0 : Z.gcd a b <> 0)
      by (intros E; apply Z.gcd_eq_0 in E; lia).
    assert (Hl0 : Z.lcm a b <> 0)
      by (intros E; apply Z.lcm_eq_0 in E; lia).
    assert (Hgl : Z.lcm a b * Z.gcd a b = Z.abs a * Z.abs b).
    { unfold Z.lcm. destruct (Z.gcd_divide_r a b) as [c Hc].
      set (g := Z.gcd a b) in *.
      assert (Hq : b / g = c) by (rewrite Hc; now apply Z.div_mul).
      assert (Hb' : Z.abs b = Z.abs c * g)
        by (rewrite Hc at 1; rewrite Z.abs_mul, (Z.abs_eq g); auto).
      rewrite Hq, Hb', Z.abs_mul. ring. }
    rewrite <- Hgl.
    apply fdiv_integers; try assumption.
    unfold safe in *. rewrite Z.abs_mul in *. lia.
Qed.

Lemma lcm_of_integers_witness :
  lcm 7 (of_Z 4) (of_Z (-6)) = Some (Return (of_Z 12)) /\
  lcm 1 (of_Z 0) (of_Z 0) = Some (Return NaN).
Proof.
  split.
  - apply (lcm_of_integers 7 4 (-6)); vm_compute; reflexivity.
  - apply (lcm_of_integers 1 0 0); vm_compute; reflexivity.
Defined.

(** X10: the average of integers is exact when their sum is a multiple of
    their number: it is the integer quotient [q]. *)
Theorem average_of_integers (l : list Z) (q : Z) :
  (0 < List.length l)%nat -> total l = q * Z.of_nat (List.length l) ->
  total_magnitude l < 2 ^ 53 -> Z.of_nat (List.length l) < 2 ^ 53 ->
  average (map of_Z l) = of_Z q.
Proof.
  intros Hne Hq Hsafe Hlen. unfold average, sum.
  rewrite length_map.
  destruct (Nat.eqb_spec (List.length l) 0) as [E | E]; [lia |].
  rewrite sum_from by (cbn; lia). cbn [Z.add]. rewrite Hq.
  destruct (Z.eq_dec q 0) as [-> | Hq0].
  - cbn [Z.mul]. rewrite (of_Z_finite (Z.of_nat (List.length l)))
      by (lia || unfold safe; lia).
    replace (Z.of_nat (List.length l) <? 0) with false
      by (symmetry; apply Z.ltb_ge; lia).
    reflexivity.
  - apply fdiv_integers; [exact Hq0 | lia |].
    assert (Habs : Z.abs (total l) <= total_magnitude l).
    { clear. induction l as [| z l IH]; cbn; [lia |].
      fold (total l) (total_magnitude l). lia. }
    unfold safe. rewrite <- Hq. lia.
Qed.

Lemma average_of_integers_witness :
  average (map of_Z [7; -2; 4]) = of_Z 3.
Proof.
  apply (average_of_integers [7; -2; 4] 3);
    [cbn; lia | reflexivity | vm_compute; reflexivity
    | vm_compute; reflexivity].
Defined.

(** ** The most frequent values *)

(** Two numbers are the same key when they are stored as the same key. *)
Lemma SameValueZero_stored (x y : number) :
  SameValueZero x y = true <-> stored_key x = stored_key y.
Proof.
  split.
  - intros H.
    assert (Hs : x = S754_nan /\ y = S754_nan \/ strict_eq x y = true).
    { destruct x, y; cbn [SameValueZero] in H; auto. }
    destruct Hs as [[-> ->] | Hs]; [reflexivity |].
    destruct (strict_eq_cases _ _ Hs) as [-> | (a & b & -> & ->)];
      reflexivity.
  - intros H.
    destruct x as [a | a | | a m e], y as [b | b | | b n f];
      cbn [stored_key] in H; try discriminate H; try reflexivity.
    + injection H as ->. now destruct b.
    + injection H as -> -> ->.
      apply (strict_eq_refl (S754_finite b n f)). reflexivity.
Qed.

Lemma stored_key_idempotent (x : number) :
  stored_key (stored_key x) = stored_key x.
Proof. now destruct x. Qed.

Lemma SameValueZero_class (x y z : number) :
  stored_key x = stored_key y -> SameValueZero x z = SameValueZero y z.
Proof.
  intros H.
  destruct (SameValueZero x z) eqn:Ex, (SameValueZero y z) eqn:Ey;
    try reflexivity.
  - apply SameValueZero_stored in Ex.
    assert (Hy : SameValueZero y z = true)
      by (apply SameValueZero_stored; congruence).
    congruence.
  - apply SameValueZero_stored in Ey.
    assert (Hx : SameValueZero x z = true)
      by (apply SameValueZero_stored; congruence).
    congruence.
Qed.

Lemma occurrences_class (x y : number) (l : list number) :
  stored_key x = stored_key y -> occurrences x l = occurrences y l.
Proof.
  intros H. unfold occurrences. f_equal.
  apply filter_ext. intros z. now apply SameValueZero_class.
Qed.

Lemma occurrences_snoc (x num : number) (p : list number) :
  occurrences x (p ++ [num])
  = (occurrences x p + if SameValueZero x num then 1 else 0)%nat.
Proof.
  unfold occurrences. rewrite filter_app, length_app. cbn [filter].
  now destruct (SameValueZero x num).
Qed.

Lemma occurrences_positive (x : number) (l : list number) :
  (1 <= occurrences x l)%nat <->
  exists y, In y l /\ stored_key x = stored_key y.
Proof.
  unfold occurrences. split.
  - intros H.
    destruct (filter (SameValueZero x) l) as [| y t] eqn:E;
      [cbn in H; lia |].
    assert (Hy : In y (filter (SameValueZero x) l))
      by (rewrite E; now left).
    apply filter_In in Hy as [Hin Hs]. exists y. split; [exact Hin |].
    now apply SameValueZero_stored.
  - intros (y & Hin & Hs).
    assert (Hy : In y (filter (SameValueZero x) l))
      by (apply filter_In; split; [exact Hin |];
          now apply SameValueZero_stored).
    destruct (filter (SameValueZero x) l); [contradiction | cbn; lia].
Qed.

Lemma occurrences_le_length (x : number) (l : list number) :
  (occurrences x l <= List.length l)%nat.
Proof. apply filter_length_le. Qed.

Lemma Map_get_some (counts : list (number * number)) (x v : number) :
  (forall k w, In (k, w) counts -> stored_key k = k) ->
  Map_get counts x = Some v -> In (stored_key x, v) counts.
Proof.
  induction counts as [| [k w] counts IH]; intros Hkeys H;
    [discriminate H |].
  cbn [Map_get] in H. destruct (SameValueZero k x) eqn:E.
  - injection H as ->. apply SameValueZero_stored in E.
    rewrite (Hkeys k v (or_introl eq_refl)) in E. left. now rewrite E.
  - right. apply IH; [| exact H].
    intros k' w' H'. apply (Hkeys k' w'). now right.
Qed.

Lemma Map_get_none (counts : list (number * number)) (x : number) :
  (forall k w, In (k, w) counts -> stored_key k = k) ->
  Map_get counts x = None -> ~ In (stored_key x) (map fst counts).
Proof.
  induction counts as [| [k w] counts IH]; intros Hkeys H; [intros [] |].
  cbn [Map_get] in H. destruct (SameValueZero k x) eqn:E;
    [discriminate H |].
  cbn [map fst In]. intros [Hk | Hin].
  - assert (SameValueZero k x = true); [| congruence].
    apply SameValueZero_stored.
    now rewrite (Hkeys k w (or_introl eq_refl)).
  - revert Hin. apply IH; [| exact H].
    intros k' w' H'. apply (Hkeys k' w'). now right.
Qed.

Lemma Map_set_keys (counts : list (number * number)) (x c : number) :
  (forall k w, In (k, w) counts -> stored_key k = k) ->
  (In (stored_key x) (map fst counts) ->
   map fst (Map_set counts x c) = map fst counts) /\
  (~ In (stored_key x) (map fst counts) ->
   map fst (Map_set counts x c) = map fst counts ++ [stored_key x]).
Proof.
  induction counts as [| [k w] counts IH]; intros Hkeys.
  - split; [intros [] | reflexivity].
  - assert (Hk : stored_key k = k) by (apply (Hkeys k w); now left).
    assert (Hkeys' : forall k' w', In (k', w') counts -> stored_key k' = k')
      by (intros k' w' H'; apply (Hkeys k' w'); now right).
    destruct (IH Hkeys') as [IHin IHout].
    cbn [Map_set map fst In app]. destruct (SameValueZero k x) eqn:E.
    + apply SameValueZero_stored in E. rewrite Hk in E.
      split; [reflexivity |]. intros H. exfalso. apply H. now left.
    + assert (Hne : k <> stored_key x).
      { intros ->.
        assert (SameValueZero (stored_key x) x = true)
          by (apply SameValueZero_stored, stored_key_idempotent).
        congruence. }
      cbn [map fst]. split; intros H.
      * f_equal. apply IHin. destruct H as [H | H]; [contradiction | exact H].
      * f_equal. apply IHout. intros H'. apply H. now right.
Qed.

Lemma Map_set_entries (counts : list (number * number)) (x c : number) :
  (forall k w, In (k, w) counts -> stored_key k = k) ->
  NoDup (map fst counts) ->
  forall k v,
    In (k, v) (Map_set counts x c) ->
    (k = stored_key x /\ v = c) \/ (k <> stored_key x /\ In (k, v) counts).
Proof.
  induction counts as [| [k0 w0] counts IH]; intros Hkeys Hnd k v Hin.
  - cbn [Map_set In] in Hin. destruct Hin as [H | []].
    injection H as <- <-. now left.
  - assert (Hk0 : stored_key k0 = k0) by (apply (Hkeys k0 w0); now left).
    assert (Hkeys' : forall k' w', In (k', w') counts -> stored_key k' = k')
      by (intros k' w' H'; apply (Hkeys k' w'); now right).
    cbn [map fst] in Hnd. inversion Hnd as [| ? ? Hnotin Hnd']. subst.
    cbn [Map_set] in Hin. destruct (SameValueZero k0 x) eqn:E.
    + apply SameValueZero_stored in E. rewrite Hk0 in E. subst k0.
      destruct Hin as [H | H]; [injection H as <- <-; now left |].
      right. split; [| now right].
      intros ->. apply Hnotin.
      change (stored_key x) with (fst (stored_key x, v)). now apply in_map.
    + destruct Hin as [H | H].
      * injection H as <- <-. right. split; [| now left].
        intros ->.
        assert (SameValueZero (stored_key x) x = true)
          by (apply SameValueZero_stored, stored_key_idempotent).
        congruence.
      * destruct (IH Hkeys' Hnd' k v H) as [H' | [Hne H']]; [now left |].
        right. split; [exact Hne | now right].
Qed.

Lemma counted_keys (p : list number) (counts : list (number * number))
    (M : Z) :
  counted p counts M -> forall k w, In (k, w) counts -> stored_key k = k.
Proof.
  intros [He _ _ _ _] k w H. now destruct (He k w H).
Qed.

(** One round of the loop keeps the entries and the largest count right. *)
Lemma counted_step (p : list number) (counts : list (number * number))
    (M : Z) (num : number) :
  counted p counts M -> Z.of_nat (List.length (p ++ [num])) < 2 ^ 53 ->
  let count := fadd (or_zero (Map_get counts num)) (of_Z 1) in
  count = of_Z (Z.of_nat (occurrences num (p ++ [num]))) /\
  counted (p ++ [num]) (Map_set counts num count)
    (Z.max M (Z.of_nat (occurrences num (p ++ [num])))).
Proof.
  intros Hc Hlen count.
  pose proof (counted_keys _ _ _ Hc) as Hkeys.
  destruct Hc as [He Hnd Hall Hbound Hreached].
  assert (Hself : SameValueZero num num = true)
    by now apply SameValueZero_stored.
  assert (Hstored : SameValueZero (stored_key num) num = true)
    by (apply SameValueZero_stored, stored_key_idempotent).
  assert (Hsnoc : occurrences num (p ++ [num]) = S (occurrences num p))
    by (rewrite occurrences_snoc, Hself; lia).
  pose proof (occurrences_le_length num (p ++ [num])) as Hle.
  assert (Hcount : count = of_Z (Z.of_nat (occurrences num (p ++ [num])))).
  { unfold count. destruct (Map_get counts num) as [v |] eqn:G.
    - apply (Map_get_some _ _ _ Hkeys) in G.
      destruct (He _ _ G) as (_ & Hpos & ->).
      rewrite (occurrences_class (stored_key num) num)
        in * by apply stored_key_idempotent.
      rewrite (of_Z_finite (Z.of_nat (occurrences num p)))
        by (lia || unfold safe; lia).
      cbn [or_zero].
      rewrite <- (of_Z_finite (Z.of_nat (occurrences num p)))
        by (lia || unfold safe; lia).
      rewrite fadd_integers by (unfold safe; lia). f_equal. lia.
    - apply (Map_get_none _ _ Hkeys) in G.
      assert (H0 : occurrences num p = O).
      { destruct (occurrences num p) eqn:E; [reflexivity |].
        exfalso. apply G.
        destruct (proj1 (occurrences_positive num p) ltac:(lia))
          as (y & Hin & Hs).
        rewrite Hs. now apply Hall. }
      cbn [or_zero]. rewrite Hsnoc, H0. reflexivity. }
  split; [exact Hcount |].
  fold count. rewrite Hcount.
  set (c := of_Z (Z.of_nat (occurrences num (p ++ [num])))).
  destruct (Map_set_keys counts num c Hkeys) as [Kin Kout].
  assert (Hother : forall k, stored_key k = k -> k <> stored_key num ->
            occurrences k (p ++ [num]) = occurrences k p).
  { intros k Hk Hne. rewrite occurrences_snoc.
    destruct (SameValueZero k num) eqn:E; [| lia].
    apply SameValueZero_stored in E. congruence. }
  constructor.
  - intros k v Hin.
    destruct (Map_set_entries counts num c Hkeys Hnd k v Hin)
      as [[-> ->] | [Hne Hin']].
    + rewrite stored_key_idempotent.
      rewrite (occurrences_class (stored_key num) num)
        by apply stored_key_idempotent.
      repeat split. lia.
    + destruct (He k v Hin') as (Hk & Hpos & ->).
      rewrite (Hother k Hk Hne). now repeat split.
  - destruct (Map_get counts num) as [v |] eqn:G.
    + apply (Map_get_some _ _ _ Hkeys) in G.
      rewrite Kin; [exact Hnd |].
      change (stored_key num) with (fst (stored_key num, v)).
      now apply in_map.
    + apply (Map_get_none _ _ Hkeys) in G. rewrite (Kout G).
      apply NoDup_app; [exact Hnd | repeat constructor; intros [] |].
      intros a Ha [<- | []]. contradiction.
  - intros y Hy.
    assert (Hin : In (stored_key y) (map fst counts) \/
                  stored_key y = stored_key num).
    { apply in_app_or in Hy as [Hy | [<- | []]]; [left | now right].
      now apply Hall. }
    destruct (Map_get counts num) as [v |] eqn:G.
    + apply (Map_get_some _ _ _ Hkeys) in G.
      assert (Hk : In (stored_key num) (map fst counts)).
      { change (stored_key num) with (fst (stored_key num, v)).
        now apply in_map. }
      rewrite (Kin Hk). destruct Hin as [Hin | ->]; assumption.
    + apply (Map_get_none _ _ Hkeys) in G. rewrite (Kout G).
      apply in_or_app. destruct Hin as [Hin | ->]; [now left |].
      right. now left.
  - intros y Hy. rewrite occurrences_snoc.
    destruct (SameValueZero y num) eqn:E.
    + apply SameValueZero_stored in E.
      rewrite (occurrences_class y num p E). lia.
    + apply in_app_or in Hy as [Hy | [<- | []]]; [| congruence].
      pose proof (Hbound y Hy). lia.
  - right.
    destruct (Z.max_spec M (Z.of_nat (occurrences num (p ++ [num]))))
      as [[Hlt ->] | [Hge ->]].
    + exists num. split; [apply in_or_app; right; now left | reflexivity].
    + destruct Hreached as [[-> ->] | (y & Hy & HM)]; [cbn in *; lia |].
      exists y. split; [apply in_or_app; now left |].
      rewrite occurrences_snoc.
      destruct (SameValueZero y num) eqn:E; [| lia].
      apply SameValueZero_stored in E.
      rewrite (occurrences_class y num p E) in HM. lia.
Qed.

Lemma mode_for_counted (numbers : list number) :
  forall (p : list number) (counts : list (number * number)) (M : Z),
    counted p counts M -> 0 <= M < 2 ^ 53 ->
    Z.of_nat (List.length (p ++ numbers)) < 2 ^ 53 ->
    exists counts' M',
      mode_for numbers counts (of_Z M) = (counts', of_Z M') /\
      counted (p ++ numbers) counts' M' /\ 0 <= M' < 2 ^ 53.
Proof.
  induction numbers as [| num numbers IH]; intros p counts M Hc HM Hlen.
  - exists counts, M. rewrite app_nil_r.
    split; [reflexivity |]. split; [exact Hc | exact HM].
  - cbn [mode_for].
    assert (Hlen' : Z.of_nat (List.length (p ++ [num])) < 2 ^ 53).
    { rewrite !length_app in *. cbn [List.length] in *. lia. }
    destruct (counted_step p counts M num Hc Hlen') as [Hcount Hc'].
    cbv zeta in Hcount, Hc'. rewrite Hcount in *.
    pose proof (occurrences_le_length num (p ++ [num])) as Hle.
    set (c := Z.of_nat (occurrences num (p ++ [num]))) in *.
    unfold gt. change SFltb with lt.
    rewrite lt_integers by (unfold safe; lia).
    assert (Hmax : (if M <? c then of_Z c else of_Z M) = of_Z (Z.max M c)).
    { destruct (Z.ltb_spec M c); f_equal; lia. }
    rewrite Hmax.
    replace (p ++ num :: numbers) with ((p ++ [num]) ++ numbers) in *
      by (rewrite <- app_assoc; reflexivity).
    apply IH; [exact Hc' | lia | exact Hlen].
Qed.

Lemma counted_nothing : counted [] [] 0.
Proof.
  constructor.
  - intros k v [].
  - constructor.
  - intros y [].
  - intros y [].
  - now left.
Qed.

(** X11: for an array shorter than [2^53], [mode] returns the values that
    occur most often, each once: a number is in the result exactly when
    it is (as a key of the map, [-0] being stored as [+0]) an element
    that no element occurs more often than.  [NaN] counts as a value
    like another, and [-0] and [+0] as one value. *)
Theorem mode_most_frequent (numbers : list number) :
  Z.of_nat (List.length numbers) < 2 ^ 53 ->
  NoDup (mode numbers) /\
  forall x : number,
    In x (mode numbers) <->
    exists y, In y numbers /\ x = stored_key y /\
              forall z, In z numbers ->
                (occurrences z numbers <= occurrences y numbers)%nat.
Proof.
  intros Hlen. unfold mode.
  destruct (Nat.eqb_spec (List.length numbers) 0) as [E | E].
  - destruct numbers; [| discriminate E]. split; [constructor |].
    intros x. split; [intros [] | intros (y & [] & _)].
  - destruct (mode_for_counted numbers [] [] 0 counted_nothing ltac:(lia) Hlen)
      as (counts & M & Hrun & Hc & HM).
    rewrite Hrun. cbn [app] in Hc.
    pose proof (counted_keys _ _ _ Hc) as Hkeys.
    destruct Hc as [He Hnd Hall Hbound Hreached].
    assert (Hfilter : forall k v,
              In (k, v) counts ->
              strict_eq v (of_Z M) = (Z.of_nat (occurrences k numbers) =? M)).
    { intros k v Hin. destruct (He k v Hin) as (_ & _ & ->).
      pose proof (occurrences_le_length k numbers).
      apply strict_eq_integers; unfold safe; lia. }
    split.
    + clear - Hnd. induction counts as [| [k v] counts IH]; [constructor |].
      cbn [map fst] in Hnd. inversion Hnd as [| ? ? Hnotin Hnd']. subst.
      cbn [filter snd]. destruct (strict_eq v (of_Z M)); [| now apply IH].
      cbn [map fst]. constructor; [| now apply IH].
      intros H. apply Hnotin. apply in_map_iff in H as ([k' v'] & <- & H).
      apply filter_In in H as [H _].
      now apply in_map.
    + intros x. split.
      * intros H. apply in_map_iff in H as ([k v] & <- & H).
        apply filter_In in H as [Hin Hv]. cbn [fst snd] in *.
        rewrite (Hfilter k v Hin) in Hv. apply Z.eqb_eq in Hv.
        destruct (He k v Hin) as (Hk & Hpos & _).
        destruct (proj1 (occurrences_positive k numbers) Hpos)
          as (y & Hy & Hs).
        exists y. rewrite Hk in Hs. repeat split; [exact Hy | exact Hs |].
        intros z Hz. pose proof (Hbound z Hz).
        rewrite <- (occurrences_class k y numbers) by now rewrite Hk.
        lia.
      * intros (y & Hy & -> & Hmax).
        destruct Hreached as [[-> _] | (w & Hw & HwM)]; [contradiction |].
        pose proof (Hmax w Hw). pose proof (Hbound y Hy).
        pose proof (Hall y Hy) as Hkey.
        apply in_map_iff in Hkey as ([k v] & Hk & Hin). cbn [fst] in Hk.
        subst k.
        apply in_map_iff. exists (stored_key y, v). split; [reflexivity |].
        apply filter_In. split; [exact Hin |]. cbn [snd].
        rewrite (Hfilter _ _ Hin).
        rewrite (occurrences_class (stored_key y) y)
          by apply stored_key_idempotent.
        apply Z.eqb_eq. lia.
Qed.

Lemma mode_most_frequent_witness :
  let numbers := map of_Z [1; 2; 2; 3; 3; 0] in
  NoDup (mode numbers) /\
  forall x : number,
    In x (mode numbers) <->
    exists y, In y numbers /\ x = stored_key y /\
              forall z, In z numbers ->
                (occurrences z numbers <= occurrences y numbers)%nat.
Proof.
  intros numbers. apply (mode_most_frequent numbers).
  vm_compute. reflexivity.
Defined.

(** ** Factorials and arrangements *)

Lemma product_from_positive (steps : nat) :
  forall i, 1 <= i -> 1 <= product_from i steps.
Proof.
  induction steps as [| steps IH]; intros i Hi; cbn [product_from]; [lia |].
  specialize (IH (i + 1) ltac:(lia)). nia.
Qed.

(** The loop multiplies [result] by [i], [i + 1], ..., [n]. *)
Lemma factorial_loop_product (steps : nat) :
  forall (fuel : nat) (n i R : Z),
    1 <= i -> 1 <= R -> n = i + Z.of_nat steps - 1 -> n + 1 < 2 ^ 53 ->
    safe (R * product_from i steps) ->
    (steps < fuel)%nat ->
    factorial_loop fuel (of_Z n) (of_Z i) (of_Z R)
    = Some (of_Z (R * product_from i steps)).
Proof.
  induction steps as [| steps IH]; intros fuel n i R Hi HR Hn Hsafe HP Hfuel;
    (destruct fuel as [| fuel]; [lia |]); cbn [factorial_loop product_from].
  - rewrite le_integers by (unfold safe; lia).
    replace (i <=? n) with false by (symmetry; apply Z.leb_gt; lia).
    now rewrite Z.mul_1_r.
  - rewrite le_integers by (unfold safe; lia).
    replace (i <=? n) with true by (symmetry; apply Z.leb_le; lia).
    cbn [product_from] in HP.
    pose proof (product_from_positive steps (i + 1) ltac:(lia)) as Hpos.
    assert (SRi : safe (R * i)) by (unfold safe in *; nia).
    rewrite fadd_integers, fmul_nonzero_integers
      by (try (unfold safe in *; lia); unfold safe in *; nia).
    rewrite (IH fuel n (i + 1) (R * i)); try lia; try nia.
    + f_equal. f_equal. ring.
    + replace (R * i * product_from (i + 1) steps)
        with (R * (i * product_from (i + 1) steps)) by ring.
      exact HP.
Qed.

(** X12: [factorial(n)] is [n!] for every integer [n >= 0] with
    [n! < 2^53] (that is, up to [18]); the loop ends within [n] rounds. *)
Theorem factorial_of_integer (fuel : nat) (n : Z) :
  0 <= n -> Zfactorial n < 2 ^ 53 -> (Z.to_nat n <= fuel)%nat ->
  factorial fuel (of_Z n) = Some (Return (of_Z (Zfactorial n))).
Proof.
  intros Hn Hsafe Hfuel.
  assert (Hle : n + 1 < 2 ^ 53).
  { assert (G : forall (k : nat) (i : Z), 2 <= i -> (2 <= k)%nat ->
              i + Z.of_nat k <= product_from i k).
    { induction k as [| k IH]; intros i Hi Hk; [lia |].
      cbn [product_from]. destruct k as [| [| k]]; [lia | cbn; nia |].
      specialize (IH (i + 1) ltac:(lia) ltac:(lia)). nia. }
    destruct (Z.le_gt_cases n 2) as [| Hgt]; [lia |].
    unfold Zfactorial in Hsafe.
    replace (Z.to_nat n) with (S (Z.to_nat n - 1)) in Hsafe by lia.
    cbn [product_from] in Hsafe. change (1 + 1) with 2 in Hsafe.
    specialize (G (Z.to_nat n - 1)%nat 2 ltac:(lia) ltac:(lia)). lia. }
  assert (Sn : safe n) by (unfold safe; lia).
  unfold factorial.
  rewrite lt_integers, Number_isInteger_of_Z by (assumption || unfold safe; cbn; lia).
  replace (n <? 0) with false by (symmetry; apply Z.ltb_ge; lia).
  cbn [negb orb].
  rewrite !strict_eq_integers by (assumption || unfold safe; cbn; lia).
  destruct (Z.eqb_spec n 0) as [-> | H0]; [reflexivity |].
  destruct (Z.eqb_spec n 1) as [-> | H1]; [reflexivity |].
  cbn [orb].
  rewrite (factorial_loop_product (Z.to_nat n - 1) fuel n 2 1);
    try lia; try (unfold safe; lia).
  - do 2 f_equal. unfold Zfactorial.
    replace (Z.to_nat n) with (S (Z.to_nat n - 1)) at 2 by lia.
    cbn [product_from]. change (1 + 1) with 2. now rewrite !Z.mul_1_l.
  - unfold Zfactorial in Hsafe.
    replace (Z.to_nat n) with (S (Z.to_nat n - 1)) in Hsafe by lia.
    cbn [product_from] in Hsafe. change (1 + 1) with 2 in Hsafe.
    rewrite !Z.mul_1_l in *.
    pose proof (product_from_positive (Z.to_nat n - 1) 2 ltac:(lia)).
    unfold safe. lia.
Qed.

Lemma factorial_of_integer_witness :
  factorial 18 (of_Z 18) = Some (Return (of_Z 6402373705728000)).
Proof.
  apply (factorial_of_integer 18 18); [lia | vm_compute; reflexivity | lia].
Defined.

(** X13: [permutation(n, k)] is [n * (n - 1) * ... * (n - k + 1)] for
    integers [0 <= k <= n] when that product is below [2^53], and [0] for
    [k > n]. *)
Theorem permutation_of_integers (fuel : nat) (n k : Z) :
  0 <= n -> 0 <= k -> n + 1 < 2 ^ 53 -> k < 2 ^ 53 ->
  (k <= n -> arrangements n k < 2 ^ 53) ->
  (Z.to_nat k < fuel)%nat ->
  permutation fuel (of_Z n) (of_Z k)
  = Some (Return (of_Z (if n <? k then 0 else arrangements n k))).
Proof.
  intros Hn Hk Sn1 Sk1 Hsafe Hfuel.
  assert (Sn : safe n) by (unfold safe; lia).
  assert (Sk : safe k) by (unfold safe; lia).
  unfold permutation.
  rewrite !lt_integers, !Number_isInteger_of_Z
    by (assumption || unfold safe; cbn; lia).
  replace (n <? 0) with false by (symmetry; apply Z.ltb_ge; lia).
  replace (k <? 0) with false by (symmetry; apply Z.ltb_ge; lia).
  cbn [negb orb]. unfold gt. change SFltb with lt.
  rewrite lt_integers by assumption.
  destruct (Z.ltb_spec n k) as [| Hle]; [reflexivity |].
  rewrite fsub_integers, fadd_integers by (unfold safe; lia).
  specialize (Hsafe Hle). unfold arrangements in *.
  pose proof (product_from_positive (Z.to_nat k) (n - k + 1) ltac:(lia)).
  rewrite (factorial_loop_product (Z.to_nat k) fuel n (n - k + 1) 1);
    try lia; try (unfold safe; lia).
  now rewrite Z.mul_1_l.
Qed.

Lemma permutation_of_integers_witness :
  permutation 4 (of_Z 1000000) (of_Z 2)
    = Some (Return (of_Z 999999000000)) /\
  permutation 4 (of_Z 2) (of_Z 3) = Some (Return (of_Z 0)).
Proof.
  split.
  - apply (permutation_of_integers 4 1000000 2); try lia.
    intros _. vm_compute. reflexivity.
  - apply (permutation_of_integers 4 2 3); lia.
Defined.

(** ** Fibonacci numbers *)

Lemma fibonacci_pair_monotone (n : nat) :
  0 <= fst (fibonacci_pair n) <= snd (fibonacci_pair n) /\
  snd (fibonacci_pair n) <= snd (fibonacci_pair (S n)).
Proof.
  induction n as [| n IH]; [cbn; lia |].
  cbn [fibonacci_pair] in *.
  destruct (fibonacci_pair n) as [a b]. cbn [fst snd] in *. lia.
Qed.

(** The loop steps from [(F(i-2), F(i-1))] to [F(n)]. *)
Lemma fibonacci_loop_pair (steps : nat) :
  forall (fuel : nat) (n : Z) (m : nat),
    n = Z.of_nat m + Z.of_nat steps + 1 -> n + 1 < 2 ^ 53 ->
    snd (fibonacci_pair (m + steps)) < 2 ^ 53 ->
    (steps < fuel)%nat ->
    fibonacci_loop fuel (of_Z n) (of_Z (Z.of_nat m + 2))
      (of_Z (fst (fibonacci_pair m))) (of_Z (snd (fibonacci_pair m)))
    = Some (of_Z (snd (fibonacci_pair (m + steps)))).
Proof.
  induction steps as [| steps IH]; intros fuel n m Hn Sn Hsafe Hfuel;
    (destruct fuel as [| fuel]; [lia |]); cbn [fibonacci_loop].
  - rewrite le_integers by (unfold safe; lia).
    replace (Z.of_nat m + 2 <=? n) with false
      by (symmetry; apply Z.leb_gt; lia).
    do 4 f_equal. lia.
  - rewrite le_integers by (unfold safe; lia).
    replace (Z.of_nat m + 2 <=? n) with true
      by (symmetry; apply Z.leb_le; lia).
    assert (Hmono : forall a b : nat, (a <= b)%nat ->
              snd (fibonacci_pair a) <= snd (fibonacci_pair b)).
    { intros a b Hab. induction Hab as [| b Hab IHab]; [lia |].
      pose proof (fibonacci_pair_monotone b). lia. }
    pose proof (fibonacci_pair_monotone m) as [Hm1 _].
    pose proof (Hmono (S m) (m + S steps)%nat ltac:(lia)) as Hm2.
    assert (Hpair : fibonacci_pair (S m)
                    = (snd (fibonacci_pair m),
                       fst (fibonacci_pair m) + snd (fibonacci_pair m))).
    { cbn [fibonacci_pair]. now destruct (fibonacci_pair m). }
    rewrite Hpair in Hm2. cbn [snd] in Hm2.
    rewrite !fadd_integers by (unfold safe; lia).
    specialize (IH fuel n (S m)).
    rewrite Hpair in IH. cbn [fst snd] in IH.
    replace (Z.of_nat m + 2 + 1) with (Z.of_nat (S m) + 2) by lia.
    rewrite IH; try lia.
    + do 4 f_equal. lia.
    + replace (S m + steps)%nat with (m + S steps)%nat by lia.
      exact Hsafe.
Qed.

(** X14: [fibonacci(n)] is the [n]-th Fibonacci number for every integer
    [n >= 0] with [F(n) < 2^53] (that is, up to [78]). *)
Theorem fibonacci_of_integer (fuel : nat) (n : Z) :
  0 <= n -> n + 1 < 2 ^ 53 -> Zfibonacci n < 2 ^ 53 ->
  (Z.to_nat n <= fuel)%nat ->
  fibonacci fuel (of_Z n) = Some (Return (of_Z (Zfibonacci n))).
Proof.
  intros Hn Sn1 Hsafe Hfuel.
  assert (Sn : safe n) by (unfold safe; lia).
  unfold fibonacci.
  rewrite lt_integers, Number_isInteger_of_Z
    by (assumption || unfold safe; cbn; lia).
  replace (n <? 0) with false by (symmetry; apply Z.ltb_ge; lia).
  cbn [negb orb].
  rewrite !strict_eq_integers by (assumption || unfold safe; cbn; lia).
  destruct (Z.eqb_spec n 0) as [-> | H0]; [reflexivity |].
  destruct (Z.eqb_spec n 1) as [-> | H1]; [reflexivity |].
  assert (Hfib : Zfibonacci n = snd (fibonacci_pair (Z.to_nat n - 1))).
  { unfold Zfibonacci.
    replace (Z.to_nat n) with (S (Z.to_nat n - 1)) at 1 by lia.
    cbn [fibonacci_pair]. now destruct (fibonacci_pair (Z.to_nat n - 1)). }
  pose proof (fibonacci_loop_pair (Z.to_nat n - 1) fuel n O) as HL.
  cbn [fibonacci_pair fst snd Z.of_nat Nat.add Z.add] in HL.
  rewrite HL; try lia.
  now rewrite Hfib.
Qed.

Lemma fibonacci_of_integer_witness :
  fibonacci 78 (of_Z 78) = Some (Return (of_Z 8944394323791464)).
Proof.
  apply (fibonacci_of_integer 78 78);
    [lia | lia | vm_compute; reflexivity | lia].
Defined.

(** ** Binomial coefficients *)

Lemma binomial_0_r (n : nat) : binomial n 0 = 1.
Proof. now destruct n. Qed.

Lemma binomial_above (n : nat) : forall k : nat, (n < k)%nat -> binomial n k = 0.
Proof.
  induction n as [| n IH]; intros [| k] H; try lia; cbn [binomial];
    [reflexivity |].
  rewrite !IH by lia. reflexivity.
Qed.

Lemma binomial_diagonal (n : nat) : binomial n n = 1.
Proof.
  induction n as [| n IH]; [reflexivity |].
  cbn [binomial]. rewrite IH, binomial_above by lia. reflexivity.
Qed.

Lemma binomial_positive (n : nat) :
  forall k : nat, (k <= n)%nat -> 1 <= binomial n k.
Proof.
  induction n as [| n IH]; intros [| k] H; try lia; cbn [binomial]; try lia.
  destruct (Nat.eq_dec k n) as [-> | Hne].
  - rewrite binomial_diagonal, binomial_above by lia. lia.
  - pose proof (IH k ltac:(lia)). pose proof (IH (S k) ltac:(lia)). lia.
Qed.

(** [(k + 1) * C(n, k + 1) = (n - k) * C(n, k)] *)
Lemma binomial_step (n : nat) :
  forall k : nat,
    Z.of_nat (S k) * binomial n (S k)
    = (Z.of_nat n - Z.of_nat k) * binomial n k.
Proof.
  induction n as [| n IH]; intros k.
  - destruct k; cbn [binomial]; lia.
  - destruct k as [| k].
    + cbn [binomial]. rewrite binomial_0_r.
      pose proof (IH O) as H. rewrite binomial_0_r in H. lia.
    + cbn [binomial].
      pose proof (IH k) as H1. pose proof (IH (S k)) as H2.
      set (a := binomial n k) in *. set (b := binomial n (S k)) in *.
      set (c := binomial n (S (S k))) in *.
      rewrite !Nat2Z.inj_succ in *. nia.
Qed.

(** [C(n, n - k) = C(n, k)] *)
Lemma binomial_symmetry (n : nat) :
  forall k : nat, (k <= n)%nat -> binomial n (n - k) = binomial n k.
Proof.
  induction n as [| n IH]; intros k Hk.
  - now replace k with O by lia.
  - destruct k as [| k].
    + rewrite Nat.sub_0_r, binomial_diagonal. reflexivity.
    + cbn [Nat.sub binomial].
      destruct (Nat.eq_dec k n) as [-> | Hne].
      * rewrite Nat.sub_diag, binomial_diagonal, binomial_above by lia.
        now destruct n.
      * replace (n - k)%nat with (S (n - S k)) by lia. cbn [binomial].
        rewrite (IH (S k)) by lia.
        replace (S (n - S k)) with (n - k)%nat by lia.
        rewrite (IH k) by lia. lia.
Qed.

(** Up to the middle, [j * C(n, j)] grows with [j]. *)
Lemma binomial_growth (n m : nat) :
  (2 * m <= n)%nat ->
  forall j : nat, (1 <= j <= m)%nat ->
    Z.of_nat j * binomial n j <= Z.of_nat m * binomial n m.
Proof.
  intros Hm. induction m as [| m IH]; intros j Hj; [lia |].
  destruct (Nat.eq_dec j (S m)) as [-> | Hne]; [lia |].
  specialize (IH ltac:(lia) j ltac:(lia)).
  pose proof (binomial_step n m) as Hs.
  pose proof (binomial_positive n m ltac:(lia)).
  pose proof (binomial_positive n (S m) ltac:(lia)).
  rewrite Nat2Z.inj_succ in *. nia.
Qed.

(** ** Halving *)

Lemma fdiv_by_two (n : Z) :
  n <> 0 -> safe n ->
  fdiv (of_Z n) (of_Z 2)
  = S754_finite (n <? 0) (mantissa n) (exponent n - 1).
Proof.
  intros Hn Sn.
  rewrite (of_Z_finite n Hn Sn).
  change (of_Z 2) with (S754_finite false 4503599627370496 (-51)).
  pose proof (mantissa_canonical n Hn Sn) as Hc.
  pose proof (Zdigits2_safe n Hn Sn) as Hd.
  assert (Hdm : digits2 (mantissa n) = 53).
  { destruct Hc as [Hf _]. unfold fexp, emin, prec, emax, exponent in Hf.
    unfold exponent in *. lia. }
  unfold fdiv, SFdiv, SFdiv_core_binary. cbn [Zdigits2].
  fold (digits2 (mantissa n)). rewrite Hdm.
  change (Zpos (digits2_pos 4503599627370496)) with 53.
  set (e := exponent n) in *.
  replace (Z.min (fexp prec emax (53 + e - (53 + -51))) (e - -51))
    with (e - 2)
    by (unfold fexp, emin, prec, emax, e, exponent; lia).
  replace (e - -51 - (e - 2)) with 53 by lia.
  rewrite Z.shiftl_mul_pow2 by lia.
  assert (Hdiv : Z.div_eucl (Zpos (mantissa n) * 2 ^ 53) 4503599627370496
                 = (2 * Zpos (mantissa n), 0)).
  { pose proof (Z.div_eucl_eq (Zpos (mantissa n) * 2 ^ 53) 4503599627370496
                  ltac:(lia)) as Heq.
    pose proof (Z.mod_pos_bound (Zpos (mantissa n) * 2 ^ 53) 4503599627370496
                  ltac:(lia)) as Hb.
    unfold Z.modulo in Hb.
    destruct (Z.div_eucl (Zpos (mantissa n) * 2 ^ 53) 4503599627370496)
      as [q0 r0].
    change (2 ^ 53) with (2 * 4503599627370496) in Heq.
    f_equal; lia. }
  cbv zeta. rewrite Hdiv.
  change (new_location 4503599627370496 0) with loc_Exact.
  rewrite xorb_false_r.
  change (2 * Zpos (mantissa n)) with (Zpos (mantissa n)~0).
  apply binary_round_aux_exact.
  - destruct Hc as [Hf Hmax]. split; [| lia].
    rewrite Hdm. unfold fexp, emin, prec, emax. unfold e, exponent. lia.
  - lia.
  - replace (e - 1 - (e - 2)) with 1 by lia. lia.
Qed.

Lemma mantissa_double (k : Z) :
  k <> 0 -> safe (2 * k) ->
  mantissa (2 * k) = mantissa k /\ exponent (2 * k) = exponent k + 1.
Proof.
  intros Hk Sk.
  assert (Hd : Zdigits2 (2 * k) = Zdigits2 k + 1).
  { destruct k as [| p | p]; [contradiction | |].
    - change (2 * Zpos p) with (Zpos p~0). cbn [Zdigits2 digits2_pos]. lia.
    - change (2 * Zneg p) with (Zneg p~0). cbn [Zdigits2 digits2_pos]. lia. }
  pose proof (Zdigits2_safe (2 * k) ltac:(lia) Sk) as Hs.
  unfold mantissa, exponent. rewrite Hd. split; [| lia].
  f_equal. rewrite Z.abs_mul. change (Z.abs 2) with 2.
  replace (53 - Zdigits2 k) with (1 + (53 - (Zdigits2 k + 1))) by lia.
  rewrite Z.pow_add_r by lia. lia.
Qed.

(** [k > n / 2] on integers. *)
Lemma gt_half (n k : Z) :
  0 <= k -> 0 <= n -> n < 2 ^ 52 -> k < 2 ^ 52 ->
  gt (of_Z k) (fdiv (of_Z n) (of_Z 2)) = (n <? 2 * k).
Proof.
  intros Hk Hn Sn Sk.
  destruct (Z.eq_dec n 0) as [-> | Hn0].
  - change (fdiv (of_Z 0) (of_Z 2)) with (of_Z 0). unfold gt.
    change SFltb with lt. rewrite lt_integers by (unfold safe; cbn; lia).
    destruct (Z.ltb_spec 0 k), (Z.ltb_spec 0 (2 * k)); lia || reflexivity.
  - rewrite fdiv_by_two by (unfold safe; lia).
    replace (n <? 0) with false by (symmetry; apply Z.ltb_ge; lia).
    destruct (Z.eq_dec k 0) as [-> | Hk0].
    + cbn [Z.mul]. replace (n <? 0) with false by (symmetry; apply Z.ltb_ge; lia).
      reflexivity.
    + rewrite (of_Z_finite k) by (unfold safe; lia).
      replace (k <? 0) with false by (symmetry; apply Z.ltb_ge; lia).
      unfold gt, SFltb. cbn [SFcompare].
      pose proof (compare_canonical n (2 * k) ltac:(lia) ltac:(lia)
                    ltac:(unfold safe; lia) ltac:(unfold safe; lia)) as Hc.
      destruct (mantissa_double k Hk0 ltac:(unfold safe; lia)) as [Hm He]. rewrite Hm, He in Hc.
      replace (exponent n - 1 ?= exponent k)
        with (exponent n ?= exponent k + 1)
        by (destruct (Z.compare_spec (exponent n) (exponent k + 1)),
                     (Z.compare_spec (exponent n - 1) (exponent k));
            lia || reflexivity).
      change PosDef.Pos.compare_cont with Pos.compare_cont.
      rewrite Hc. unfold Z.ltb. now destruct (n ?= 2 * k).
Qed.

(** ** Combinations *)

(** The loop takes [C(n, i - 1)] to [C(n, k)] through the integers
    [C(n, j - 1) * (n - (j - 1)) = j * C(n, j)]. *)
Lemma combination_loop_binomial (steps : nat) :
  forall (fuel : nat) (n k : nat) (i : nat),
    (1 <= i)%nat -> (i + steps = S k)%nat -> (k <= n)%nat ->
    Z.of_nat n < 2 ^ 52 ->
    (forall j : nat, (i <= j <= k)%nat ->
       Z.of_nat j * binomial n j < 2 ^ 53) ->
    (steps < fuel)%nat ->
    combination_loop fuel (of_Z (Z.of_nat n)) (of_Z (Z.of_nat k))
      (of_Z (Z.of_nat i)) (of_Z (binomial n (i - 1)))
    = Some (of_Z (binomial n k)).
Proof.
  induction steps as [| steps IH]; intros fuel n k i Hi Hsteps Hk Sn Hsafe Hfuel;
    (destruct fuel as [| fuel]; [lia |]); cbn [combination_loop].
  - rewrite le_integers by (unfold safe; lia).
    replace (Z.of_nat i <=? Z.of_nat k) with false
      by (symmetry; apply Z.leb_gt; lia).
    do 3 f_equal. lia.
  - rewrite le_integers by (unfold safe; lia).
    replace (Z.of_nat i <=? Z.of_nat k) with true
      by (symmetry; apply Z.leb_le; lia).
    pose proof (binomial_step n (i - 1)) as Hstep.
    replace (S (i - 1)) with i in Hstep by lia.
    pose proof (binomial_positive n (i - 1) ltac:(lia)) as Hp1.
    pose proof (binomial_positive n i ltac:(lia)) as Hp2.
    pose proof (Hsafe i ltac:(lia)) as Hs.
    rewrite !fsub_integers by (unfold safe; lia).
    rewrite fmul_nonzero_integers; try lia; try (unfold safe; nia).
    replace (binomial n (i - 1)
             * (Z.of_nat n - (Z.of_nat i - 1)))
      with (binomial n i * Z.of_nat i) by (rewrite Nat2Z.inj_sub in Hstep; lia).
    rewrite fdiv_integers by (lia || unfold safe; lia).
    rewrite fadd_integers by (unfold safe; lia).
    replace (Z.of_nat i + 1) with (Z.of_nat (S i)) by lia.
    replace i with (S i - 1)%nat at 2 by lia.
    apply IH; try lia; try assumption.
    intros j Hj. apply Hsafe. lia.
Qed.

(** X15: [combination(n, k)] is the binomial coefficient [C(n, k)] for
    integers [0 <= k <= n < 2^52], as long as [m * C(n, m)] is below
    [2^53] for [m] the smaller of [k] and [n - k]: every intermediate
    result of the loop is an integer.  It is [0] for [k > n]. *)
Theorem combination_of_integers (fuel : nat) (n k : Z) :
  0 <= n -> 0 <= k -> n < 2 ^ 52 -> k < 2 ^ 52 ->
  (k <= n ->
   Z.min k (n - k) * Zbinomial n (Z.min k (n - k)) < 2 ^ 53) ->
  (Z.to_nat (Z.min k (n - k)) < fuel)%nat ->
  combination fuel (of_Z n) (of_Z k)
  = Some (Return (of_Z (Zbinomial n k))).
Proof.
  intros Hn Hk Sn1 Sk1 Hsafe Hfuel.
  assert (Sn : safe n) by (unfold safe; lia).
  assert (Sk : safe k) by (unfold safe; lia).
  unfold combination.
  rewrite !lt_integers, !Number_isInteger_of_Z
    by (assumption || unfold safe; cbn; lia).
  replace (n <? 0) with false by (symmetry; apply Z.ltb_ge; lia).
  replace (k <? 0) with false by (symmetry; apply Z.ltb_ge; lia).
  cbn [negb orb]. unfold gt at 1. change SFltb with lt.
  rewrite lt_integers by assumption.
  destruct (Z.ltb_spec n k) as [Hlt | Hle].
  - unfold Zbinomial. now rewrite binomial_above by lia.
  - specialize (Hsafe Hle). cbv zeta.
    rewrite gt_half by lia.
    set (m := Z.min k (n - k)) in *.
    assert (Hm : (if n <? 2 * k then fsub (of_Z n) (of_Z k) else of_Z k)
                 = of_Z m).
    { destruct (Z.ltb_spec n (2 * k)).
      - rewrite fsub_integers by (unfold safe; lia). f_equal. lia.
      - f_equal. lia. }
    rewrite Hm.
    assert (Hsym : Zbinomial n k = Zbinomial n m).
    { unfold Zbinomial, m. destruct (Z.min_spec k (n - k)) as [[_ ->] | [_ ->]];
        [reflexivity |].
      rewrite Z2Nat.inj_sub by lia. now rewrite binomial_symmetry by lia. }
    rewrite Hsym. unfold Zbinomial in *.
    pose proof (combination_loop_binomial (Z.to_nat m) fuel
                  (Z.to_nat n) (Z.to_nat m) 1) as HL.
    rewrite !Z2Nat.id in HL by lia. cbn [Nat.sub] in HL.
    rewrite binomial_0_r in HL. change (Z.of_nat 1) with 1 in HL.
    rewrite HL; try lia; [reflexivity |].
    intros j Hj.
    pose proof (binomial_growth (Z.to_nat n) (Z.to_nat m) ltac:(lia) j Hj).
    rewrite Z2Nat.id in * by lia. lia.
Qed.

Lemma combination_of_integers_witness :
  combination 4 (of_Z 20) (of_Z 17) = Some (Return (of_Z 1140)) /\
  combination 1 (of_Z 3) (of_Z 5) = Some (Return (of_Z 0)).
Proof.
  split.
  - apply (combination_of_integers 4 20 17); try lia.
    intros _. vm_compute. reflexivity.
  - apply (combination_of_integers 1 3 5); lia.
Defined.

(** ** Loops that do not end

    Above [2^53] the counter of a loop [for (i = 2; i <= n; i++)] stops
    growing: [2^53 + 1] is [2^53] again. *)

Lemma le_transitive (x y z : number) :
  le x y = true -> le y z = true -> le x z = true.
Proof.
  intros Hxy Hyz. destruct (lt x y) eqn:E.
  - apply lt_implies_le. now apply (lt_le_trans x y z).
  - destruct (le_defined _ _ Hxy) as [Hx Hy].
    pose proof (le_or_lt _ _ Hx Hy E) as Hyx.
    destruct (strict_eq_cases _ _ (le_antisymmetric _ _ Hxy Hyx))
      as [-> | (a & b & -> & ->)]; [exact Hyz |].
    now rewrite (le_zero_l z a b).
Qed.

Lemma counter_below (n : number) (j : Z) :
  lt (of_Z (2 ^ 53)) n = true -> 0 <= j <= 2 ^ 53 ->
  le (of_Z j) n = true.
Proof.
  intros Hn Hj. apply (le_transitive _ (of_Z (2 ^ 53))); [| now apply lt_implies_le].
  destruct (Z.eq_dec j (2 ^ 53)) as [-> | Hne]; [reflexivity |].
  apply (le_transitive _ (of_Z (2 ^ 53 - 1))); [| reflexivity].
  rewrite le_integers by (unfold safe; lia). apply Z.leb_le. lia.
Qed.

Lemma counter_next (j : Z) :
  0 <= j <= 2 ^ 53 ->
  fadd (of_Z j) (of_Z 1) = of_Z (Z.min (j + 1) (2 ^ 53)).
Proof.
  intros Hj.
  destruct (Z.eq_dec j (2 ^ 53)) as [-> | H1]; [vm_compute; reflexivity |].
  destruct (Z.eq_dec j (2 ^ 53 - 1)) as [-> | H2]; [vm_compute; reflexivity |].
  rewrite fadd_integers by (unfold safe; lia). f_equal. lia.
Qed.

Lemma factorial_loop_stuck (fuel : nat) :
  forall (n : number) (j : Z) (result : number),
    lt (of_Z (2 ^ 53)) n = true -> 0 <= j <= 2 ^ 53 ->
    factorial_loop fuel n (of_Z j) result = None.
Proof.
  induction fuel as [| fuel IH]; intros n j result Hn Hj; [reflexivity |].
  cbn [factorial_loop]. rewrite (counter_below n j Hn Hj).
  rewrite (counter_next j Hj). apply IH; [exact Hn | lia].
Qed.

Lemma fibonacci_loop_stuck (fuel : nat) :
  forall (n : number) (j : Z) (a b : number),
    lt (of_Z (2 ^ 53)) n = true -> 0 <= j <= 2 ^ 53 ->
    fibonacci_loop fuel n (of_Z j) a b = None.
Proof.
  induction fuel as [| fuel IH]; intros n j a b Hn Hj; [reflexivity |].
  cbn [fibonacci_loop]. rewrite (counter_below n j Hn Hj).
  rewrite (counter_next j Hj). apply IH; [exact Hn | lia].
Qed.

Lemma above_2_53 (n : number) (j : Z) :
  lt (of_Z (2 ^ 53)) n = true -> 0 <= j <= 2 ^ 53 ->
  lt n (of_Z j) = false /\ strict_eq n (of_Z j) = false.
Proof.
  intros Hn Hj. pose proof (counter_below n j Hn Hj) as Hle.
  split; [now apply le_not_lt |].
  destruct (strict_eq n (of_Z j)) eqn:E; [| reflexivity].
  pose proof (lt_le_trans _ _ _ Hn
                (le_strict_eq _ _ _ E
                   (le_reflexive n (proj2 (le_defined _ _ Hle))))) as H.
  pose proof (counter_below (of_Z j) (2 ^ 53)) as H'.
  assert (Hc : le (of_Z j) (of_Z (2 ^ 53)) = true).
  { destruct (Z.eq_dec j (2 ^ 53)) as [-> | Hne]; [reflexivity |].
    apply (le_transitive _ (of_Z (2 ^ 53 - 1))); [| reflexivity].
    rewrite le_integers by (unfold safe; lia). apply Z.leb_le. lia. }
  apply le_not_lt in Hc. congruence.
Qed.

(** X16: on an integer above [2^53], [factorial] and [fibonacci] never
    return: whatever the bound on the number of rounds, their loop has not
    ended, its counter being stuck at [2^53]. *)
Theorem factorial_fibonacci_never_return_above_2_53
    (fuel : nat) (n : number) :
  Number_isInteger n = true -> lt (of_Z (2 ^ 53)) n = true ->
  factorial fuel n = None /\ fibonacci fuel n = None.
Proof.
  intros Hint Hn.
  destruct (above_2_53 n 0 Hn ltac:(lia)) as [H0 E0].
  destruct (above_2_53 n 1 Hn ltac:(lia)) as [_ E1].
  unfold factorial, fibonacci. rewrite H0, Hint, E0, E1. cbn [negb orb].
  now rewrite (factorial_loop_stuck fuel n 2 _ Hn ltac:(lia)),
    (fibonacci_loop_stuck fuel n 2 _ _ Hn ltac:(lia)).
Qed.

Lemma factorial_fibonacci_never_return_above_2_53_witness :
  factorial 1000 (of_Z (2 ^ 53 + 2)) = None /\
  fibonacci 1000 (of_Z (2 ^ 53 + 2)) = None.
Proof.
  apply (factorial_fibonacci_never_return_above_2_53 1000
           (of_Z (2 ^ 53 + 2))); vm_compute; reflexivity.
Defined.

(** ** Roman numerals *)

Lemma same_eq (x y : number) : same x y = true -> x = y.
Proof.
  destruct x as [a | a | | a m e], y as [b | b | | b n f]; cbn [same];
    try discriminate; try reflexivity; intros H.
  - now apply eqb_prop in H; subst.
  - now apply eqb_prop in H; subst.
  - apply andb_prop in H as [H He]. apply andb_prop in H as [Hs Hm].
    apply eqb_prop in Hs. apply Pos.eqb_eq in Hm. apply Z.eqb_eq in He.
    now subst.
Qed.

Lemma upto_spec (p : Z -> bool) (k : nat) :
  upto k p = true -> forall n : Z, 1 <= n <= Z.of_nat k -> p n = true.
Proof.
  induction k as [| k IH]; intros H n Hn; [lia |].
  cbn [upto] in H. apply andb_prop in H as [Hk H].
  destruct (Z.eq_dec n (Z.of_nat (S k))) as [-> | Hne]; [exact Hk |].
  apply IH; [exact H | lia].
Qed.

(** More fuel does not change a finished loop. *)
Lemma toRoman_while_fuel (fuel : nat) :
  forall (fuel' : nat) value symbol result remaining out,
    (fuel <= fuel')%nat ->
    toRoman_while fuel value symbol result remaining = Some out ->
    toRoman_while fuel' value symbol result remaining = Some out.
Proof.
  induction fuel as [| fuel IH]; intros fuel' value symbol result remaining out
    Hle H; [discriminate H |].
  destruct fuel' as [| fuel']; [lia |].
  cbn [toRoman_while] in *.
  destruct (ge remaining value); [| exact H].
  apply (IH fuel'); [lia | exact H].
Qed.

Lemma toRoman_for_fuel (fuel fuel' : nat) (numerals : list (number * string)) :
  (fuel <= fuel')%nat ->
  forall result remaining out,
    toRoman_for fuel numerals result remaining = Some out ->
    toRoman_for fuel' numerals result remaining = Some out.
Proof.
  intros Hle. induction numerals as [| [value symbol] numerals IH];
    intros result remaining out H; cbn [toRoman_for] in *; [exact H |].
  destruct (toRoman_while fuel value symbol result remaining)
    as [[result' remaining'] |] eqn:Hw; [| discriminate H].
  rewrite (toRoman_while_fuel fuel fuel' _ _ _ _ _ Hle Hw).
  now apply IH.
Qed.

Lemma toRoman_fuel (fuel fuel' : nat) (num : number) (roman : string) :
  (fuel <= fuel')%nat ->
  toRoman fuel num = Some (Return roman) ->
  toRoman fuel' num = Some (Return roman).
Proof.
  intros Hle. unfold toRoman.
  destruct (lt num (of_Z 1) || gt num (of_Z 3999) || negb (Number_isInteger num));
    [discriminate |].
  destruct (toRoman_for fuel romanNumerals "" num) as [result |] eqn:Hf;
    [| discriminate].
  intros H. now rewrite (toRoman_for_fuel fuel fuel' _ Hle _ _ _ Hf).
Qed.

Lemma round_trips_upto_3999 : upto 3999 (round_trips 4) = true.
Proof. vm_compute. reflexivity. Qed.

(** X17: for every integer [n] from 1 to 3999, [toRoman(n)] returns a numeral
    and [fromRoman] maps that numeral back to [n]. *)
Theorem toRoman_fromRoman_round_trip (fuel : nat) (n : Z) :
  1 <= n <= 3999 -> (4 <= fuel)%nat ->
  exists roman : string,
    toRoman fuel (of_Z n) = Some (Return roman) /\
    fromRoman roman = Return (of_Z n).
Proof.
  intros Hn Hfuel.
  pose proof (upto_spec _ _ round_trips_upto_3999 n) as H.
  change (Z.of_nat 3999) with 3999 in H. specialize (H Hn).
  unfold round_trips in H.
  destruct (toRoman 4 (of_Z n)) as [[roman | e] |] eqn:Ht; try discriminate H.
  exists roman. split.
  - now apply (toRoman_fuel 4 fuel).
  - destruct (fromRoman roman) as [v | e]; [| discriminate H].
    now rewrite (same_eq _ _ H).
Qed.

Lemma toRoman_fromRoman_round_trip_witness :
  exists roman : string,
    toRoman 5 (of_Z 1984) = Some (Return roman) /\
    fromRoman roman = Return (of_Z 1984).
Proof.
  apply (toRoman_fromRoman_round_trip 5 1984); lia.
Defined.

(** X18: [toRoman] throws on every integer below 1 or above 3999, whatever
    the bound on its loops. *)
Theorem toRoman_rejects_out_of_range (fuel : nat) (n : Z) :
  safe n -> n < 1 \/ 3999 < n ->
  toRoman fuel (of_Z n) = Some (Throw RomanOutOfRange).
Proof.
  intros Sn Hn. unfold toRoman, gt.
  rewrite !lt_integers by (assumption || unfold safe; cbn; lia).
  destruct Hn as [Hn | Hn].
  - replace (n <? 1) with true by (symmetry; apply Z.ltb_lt; lia).
    reflexivity.
  - replace (3999 <? n) with true by (symmetry; apply Z.ltb_lt; lia).
    now rewrite orb_true_r.
Qed.

Lemma toRoman_rejects_out_of_range_witness :
  toRoman 0 (of_Z 0) = Some (Throw RomanOutOfRange) /\
  toRoman 0 (of_Z 4000) = Some (Throw RomanOutOfRange).
Proof.
  split.
  - apply (toRoman_rejects_out_of_range 0 0); [vm_compute; reflexivity | lia].
  - apply (toRoman_rejects_out_of_range 0 4000);
      [vm_compute; reflexivity | lia].
Defined.

Lemma romanMap_letter (char : ascii) :
  roman_letter char = match romanMap char with Some _ => true | None => false end.
Proof.
  unfold roman_letter, romanMap. cbn [existsb].
  repeat (destruct (Ascii.eqb char _); [reflexivity |]). reflexivity.
Qed.

Lemma fromRoman_for_validation (chars : list ascii) :
  forall result prevValue : number,
    match find (fun char => negb (roman_letter char)) chars with
    | Some char =>
        fromRoman_for chars result prevValue
        = Throw (InvalidRomanCharacter char)
    | None => exists v, fromRoman_for chars result prevValue = Return v
    end.
Proof.
  induction chars as [| char chars IH]; intros result prevValue;
    cbn [find fromRoman_for].
  - now exists result.
  - rewrite romanMap_letter.
    destruct (romanMap char) as [value |]; cbn [negb]; [apply IH | reflexivity].
Qed.

(** X19: [fromRoman] checks the characters of its argument and nothing else:
    it throws exactly when some character is none of [IVXLCDM], and its
    message names the last such character of the string when that is an
    ASCII character; it returns a number for every string of these letters,
    the empty one and those that are no numeral included. *)
Theorem fromRoman_checks_characters_only (roman : string) :
  match foreign_character roman with
  | Some char =>
      (exists e : exn, fromRoman roman = Throw e) /\
      (ascii_character char = true ->
       fromRoman roman = Throw (InvalidRomanCharacter char))
  | None => exists v : number, fromRoman roman = Return v
  end.
Proof.
  pose proof (fromRoman_for_validation (rev (list_ascii_of_string roman))
                (of_Z 0) (of_Z 0)) as H.
  unfold foreign_character, fromRoman.
  destruct (find _ (rev (list_ascii_of_string roman))) as [char |].
  - split; [eexists; exact H | intros _; exact H].
  - exact H.
Qed.

Lemma fromRoman_checks_characters_only_witness :
  fromRoman "X?I" = Throw (InvalidRomanCharacter "?").
Proof.
  exact (proj2 (fromRoman_checks_characters_only "X?I") eq_refl).
Defined.

(** ** The order of the operands of [preciseAdd] *)

Lemma fadd_commutative (x y : number) : fadd x y = fadd y x.
Proof.
  unfold fadd.
  destruct x as [a | a | | a m e], y as [b | b | | b n f]; cbn [SFadd];
    try reflexivity; try (destruct a, b; reflexivity).
  replace (IntDef.Z.min f e) with (IntDef.Z.min e f) by apply Z.min_comm.
  f_equal. apply Z.add_comm.
Qed.

(** X20: [preciseAdd] is commutative, for all numbers and whatever
    [Math.pow] computes. *)
Theorem preciseAdd_commutative
    (Math_pow : number -> number -> number) (a b : number) :
  preciseAdd Math_pow a b = preciseAdd Math_pow b a.
Proof.
  unfold preciseAdd. cbv zeta.
  rewrite (Z.max_comm (getDecimalPlaces b) (getDecimalPlaces a)).
  now rewrite fadd_commutative.
Qed.

(** ** The precise functions on integers *)

Lemma safe_factor_l (x y : Z) : y <> 0 -> safe (x * y) -> safe x.
Proof. unfold safe. intros Hy H. rewrite Z.abs_mul in H. nia. Qed.

Lemma safe_factor_r (x y : Z) : x <> 0 -> safe (x * y) -> safe y.
Proof. unfold safe. intros Hx H. rewrite Z.abs_mul in H. nia. Qed.

(** X21: on non-zero integers whose product is below [2^53],
    [preciseMultiply] is the exact product. *)
Theorem preciseMultiply_of_integers
    (Math_pow : number -> number -> number) (x y : Z) :
  pow_ten_exact Math_pow -> x <> 0 -> y <> 0 -> safe (x * y) ->
  preciseMultiply Math_pow (of_Z x) (of_Z y) = of_Z (x * y).
Proof.
  intros exact Hx Hy Sxy.
  pose proof (safe_factor_l x y Hy Sxy) as Sx.
  pose proof (safe_factor_r x y Hx Sxy) as Sy.
  rewrite (preciseMultiply_eval _ exact _ _ 0)
    by (rewrite ?getDecimalPlaces_integer by assumption; lia).
  change (10 ^ 0) with 1.
  rewrite (fmul_positive_integer_r x 1), Z.mul_1_r
    by (rewrite ?Z.mul_1_r; assumption || lia || (unfold safe; cbn; lia)).
  rewrite fmul_nonzero_integers, Math_round_integer by assumption.
  now apply fdiv_integer_by_one.
Qed.

Lemma preciseMultiply_of_integers_witness :
  preciseMultiply integer_pow (of_Z (-12)) (of_Z 34) = of_Z (-408).
Proof.
  apply (preciseMultiply_of_integers integer_pow (-12) 34);
    [exact integer_pow_exact | lia | lia | vm_compute; reflexivity].
Defined.

(** X22: when the divisor divides the dividend, [preciseDivide] returns the
    exact integer quotient [q], provided [q * 10^precision] is below
    [2^53]; at the default precision of 10 this is [|q| <= 900719]. *)
Theorem preciseDivide_exact_quotient
    (Math_pow : number -> number -> number) (q d p : Z) :
  pow_ten_exact Math_pow ->
  q <> 0 -> d <> 0 -> safe (q * d) -> 0 <= p <= 22 -> safe (q * 10 ^ p) ->
  preciseDivide Math_pow (of_Z (q * d)) (of_Z d) (Some (of_Z p))
    = Return (of_Z q) /\
  (p = 10 ->
   preciseDivide Math_pow (of_Z (q * d)) (of_Z d) None = Return (of_Z q)).
Proof.
  intros exact Hq Hd Sqd Hp Sqp.
  assert (Hpow : 0 < 10 ^ p) by (apply Z.pow_pos_nonneg; lia).
  pose proof (safe_factor_l q d Hd Sqd) as Sq.
  pose proof (safe_factor_r q d Hq Sqd) as Sd.
  pose proof (safe_factor_r q (10 ^ p) Hq Sqp) as Sp.
  assert (H : preciseDivide Math_pow (of_Z (q * d)) (of_Z d) (Some (of_Z p))
              = Return (of_Z q)).
  { rewrite (preciseDivide_eval _ exact _ _ p); [| | exact Hp].
    - rewrite fdiv_integers by assumption.
      rewrite fmul_nonzero_integers, Math_round_integer
        by (assumption || lia).
      f_equal. apply fdiv_integers; (assumption || lia).
    - rewrite strict_eq_integers by (assumption || unfold safe; cbn; lia).
      now apply Z.eqb_neq. }
  split; [exact H |].
  intros ->. exact H.
Qed.

Lemma preciseDivide_exact_quotient_witness :
  preciseDivide integer_pow (of_Z (-84)) (of_Z 7) (Some (of_Z 10))
    = Return (of_Z (-12)) /\
  (10 = 10 ->
   preciseDivide integer_pow (of_Z (-84)) (of_Z 7) None = Return (of_Z (-12))).
Proof.
  apply (preciseDivide_exact_quotient integer_pow (-12) 7 10);
    [exact integer_pow_exact | lia | lia | vm_compute; reflexivity | lia
    | vm_compute; reflexivity].
Defined.

(** ** Calculator instances *)

Lemma invoke_frame (Math_pow : number -> number -> number)
    (this other : ref) (op : operation) (h : heap) :
  other <> this ->
  cells (snd (invoke Math_pow this op h)) other = cells h other /\
  next (snd (invoke Math_pow this op h)) = next h.
Proof.
  intros Hne. rewrite invoke_transform.
  destruct (transform Math_pow op (value (cells h this))) as [v' | e];
    cbn [snd set_value cells next]; [| auto].
  apply Nat.eqb_neq in Hne. now rewrite Hne.
Qed.

Lemma chain_frame (Math_pow : number -> number -> number)
    (this other : ref) (ops : list operation) :
  other <> this ->
  forall h : heap,
    cells (snd (chain Math_pow this ops h)) other = cells h other /\
    next (snd (chain Math_pow this ops h)) = next h.
Proof.
  intros Hne. induction ops as [| op ops IH]; intros h; cbn [chain];
    [now split |].
  unfold bind.
  pose proof (invoke_frame Math_pow this other op h Hne) as [Hc Hn].
  rewrite invoke_transform in *.
  destruct (transform Math_pow op (value (cells h this))) as [v' | e].
  - destruct (IH (snd (set_value this v' h))) as [IHc IHn].
    rewrite IHc, IHn. now split.
  - now split.
Qed.

(** X23: a chain of calls on one instance, finished or cut short by a
    throw, changes no other instance: [result()] on another instance
    returns what it returned before, and no instance is created. *)
Theorem chain_leaves_other_instances
    (Math_pow : number -> number -> number)
    (this other : ref) (ops : list operation) (h : heap) :
  other <> this ->
  fst (result other (snd (chain Math_pow this ops h)))
    = fst (result other h) /\
  next (snd (chain Math_pow this ops h)) = next h.
Proof.
  intros Hne. destruct (chain_frame Math_pow this other ops Hne h) as [Hc Hn].
  unfold result, get_value. cbn [fst]. now rewrite Hc, Hn.
Qed.

Lemma chain_leaves_other_instances_witness :
  let h := snd (calculate (Some (of_Z 2))
                 (snd (calculate (Some (of_Z 9)) empty_heap))) in
  let ops := [Add (of_Z 5); Sqrt; Subtract (of_Z 7); Sqrt; Abs] in
  fst (result 1%nat (snd (chain integer_pow O ops h)))
    = fst (result 1%nat h) /\
  next (snd (chain integer_pow O ops h)) = next h.
Proof.
  intros h ops.
  apply (chain_leaves_other_instances integer_pow O 1%nat ops h). lia.
Defined.

(** X24: [abs()] followed by [sqrt()] never throws, whatever the
    accumulator: it becomes [Math.sqrt(Math.abs(value))]. *)
Theorem abs_then_sqrt_never_throws
    (Math_pow : number -> number -> number) (this : ref) (h : heap) :
  fst (chain Math_pow this [Abs; Sqrt] h) = Return this /\
  fst (result this (snd (chain Math_pow this [Abs; Sqrt] h)))
    = Return (Math_sqrt (Math_abs (value (cells h this)))).
Proof.
  cbn [chain]. unfold bind. rewrite invoke_transform. cbn [transform].
  rewrite invoke_transform. cbn [transform]. rewrite get_after_set.
  rewrite (not_negative_not_below_zero _ (negative_abs _)).
  unfold ret, result, get_value. cbn [fst snd].
  now rewrite get_after_set.
Qed.

(** X25: on a [Calculator] whose accumulator is a binary64 value,
    [round()], [ceil()] and [floor()] without argument set it to
    [Math.round], [Math.ceil] and [Math.floor] of that value: [result()]
    returns these. *)
Theorem calculator_rounds_to_integers
    (Math_pow : number -> number -> number) (this : ref) (h : heap) :
  pow_ten_exact Math_pow -> valid (value (cells h this)) = true ->
  fst (result this (snd (invoke Math_pow this (Round None) h)))
    = Return (Math_round (value (cells h this))) /\
  fst (result this (snd (invoke Math_pow this (Ceil None) h)))
    = Return (Math_ceil (value (cells h this))) /\
  fst (result this (snd (invoke Math_pow this (Floor None) h)))
    = Return (Math_floor (value (cells h this))).
Proof.
  intros exact Hv.
  rewrite !invoke_transform. cbn [transform default]. cbv zeta.
  rewrite (exact 0) by lia. change (10 ^ 0) with 1.
  rewrite (fmul_one _ Hv).
  destruct (integers_div_one _ Hv) as (-> & -> & ->).
  unfold result, get_value. cbn [fst snd].
  now rewrite !get_after_set.
Qed.

Lemma calculator_rounds_to_integers_witness :
  let h := snd (new_Calculator (Some (of_decimal (-25) (-1))) empty_heap) in
  fst (result O (snd (invoke integer_pow O (Round None) h)))
    = Return (Math_round (of_decimal (-25) (-1))) /\
  fst (result O (snd (invoke integer_pow O (Ceil None) h)))
    = Return (Math_ceil (of_decimal (-25) (-1))) /\
  fst (result O (snd (invoke integer_pow O (Floor None) h)))
    = Return (Math_floor (of_decimal (-25) (-1))).
Proof.
  intros h.
  apply (calculator_rounds_to_integers integer_pow O h);
    [exact integer_pow_exact | vm_compute; reflexivity].
Defined.

(** ** Trailing zeros after a decimal point *)

Lemma dotless_substring (s : string) :
  forall n m : nat, dotless s -> dotless (substring n m s).
Proof.
  induction s as [| c t IH]; intros n m Hs.
  - destruct n, m; exact I.
  - destruct Hs as [Hc Ht]. destruct n as [| n]; cbn [substring].
    + destruct m as [| m]; [exact I |]. split; [exact Hc | now apply IH].
    + now apply IH.
Qed.

Lemma string_length_substring (s : string) :
  forall n m : nat,
    (n + m <= String.length s)%nat -> String.length (substring n m s) = m.
Proof.
  induction s as [| c t IH]; intros n m H; cbn [String.length] in H.
  - destruct n, m; try lia; reflexivity.
  - destruct n as [| n]; cbn [substring].
    + destruct m as [| m]; [reflexivity |]. cbn [String.length].
      f_equal. apply IH. lia.
    + apply IH. lia.
Qed.

Lemma string_length_append (s t : string) :
  String.length (s ++ t) = (String.length s + String.length t)%nat.
Proof.
  induction s as [| c s IH]; [reflexivity |].
  cbn [append String.length]. now rewrite IH.
Qed.

Lemma string_length_zeros (n : nat) : String.length (zeros n) = n.
Proof.
  induction n as [| n IH]; [reflexivity |]. cbn [zeros String.length].
  now rewrite IH.
Qed.

(** With [f >= 1] fraction digits the rendering is an integer part, a
    point and [f] digits. *)
Lemma fixed_digits_shape (N D f : Z) :
  1 <= f ->
  exists int frac : string,
    fixed_digits N D f = (int ++ String "." frac)%string /\
    dotless int /\ dotless frac /\ len frac = f.
Proof.
  intros Hf. unfold fixed_digits. cbv zeta.
  replace (f =? 0) with false by (symmetry; apply Z.eqb_neq; lia).
  set (n := (2 * N * 10 ^ f + D) / (2 * D)).
  set (m0 := if n =? 0 then "0"%string else digits n).
  assert (Hm0 : dotless m0).
  { unfold m0. destruct (n =? 0); [cbn; intuition discriminate |].
    apply dotless_digits. }
  set (m := if len m0 <=? f
            then (zeros (Z.to_nat (f + 1 - len m0)) ++ m0)%string
            else m0).
  assert (Hm : dotless m).
  { unfold m. destruct (len m0 <=? f); [| exact Hm0].
    apply dotless_append; [apply dotless_zeros | exact Hm0]. }
  assert (Hk : f + 1 <= len m).
  { unfold m. destruct (Z.leb_spec (len m0) f) as [Hle | Hgt]; [| lia].
    unfold len in *. rewrite string_length_append, string_length_zeros. lia. }
  exists (take (len m - f) m), (drop (len m - f) m).
  repeat split.
  - now apply dotless_substring.
  - now apply dotless_substring.
  - unfold drop, len in *. rewrite string_length_substring; lia.
Qed.

Lemma all_zeros_with_dot (int rest : string) :
  all_zeros (int ++ String "." rest)%string = false.
Proof.
  unfold all_zeros.
  induction int as [| c int IH]; cbn [append list_ascii_of_string forallb];
    [reflexivity |].
  rewrite IH. apply andb_false_r.
Qed.

Lemma replace_skips_dotless (int rest : string) :
  dotless int ->
  replace trailing_zeros "" (int ++ String "." rest)%string
  = (int ++ replace trailing_zeros "" (String "." rest))%string.
Proof.
  induction int as [| d t IH]; intros Hint; [reflexivity |].
  destruct Hint as [Hd Ht]. cbn [append].
  change (replace trailing_zeros "" (String d (t ++ String "." rest)%string))
    with (match matches trailing_zeros
                  (String d (t ++ String "." rest)%string) Some with
          | Some rest' => ("" ++ rest')%string
          | None =>
              String d
                (replace trailing_zeros "" (t ++ String "." rest)%string)
          end).
  rewrite matches_trailing_zeros.
  - change (String d (t ++ String "." rest)%string)
      with ((String d t) ++ String "." rest)%string.
    rewrite all_zeros_with_dot. f_equal. now apply IH.
  - destruct d as [[] [] [] [] [] [] [] []]; try exact I.
    now contradiction Hd.
Qed.

Lemma matches_at_point (frac : string) :
  matches trailing_zeros (String "." frac) Some =
  match frac with
  | EmptyString => None
  | String _ _ => if all_zeros frac then Some EmptyString else None
  end.
Proof.
  change (matches trailing_zeros (String "." frac) Some)
    with (match iterate (S (String.length frac)) (matches (Chr "0")) frac
                  at_end with
          | Some u => Some u
          | None =>
              iterate (S (String.length (String "." frac)))
                (matches (Chr "0")) (String "." frac) at_end
          end).
  rewrite (iterate_zero_run (S (String.length frac)) frac) by lia.
  destruct frac as [| c t]; [reflexivity |].
  now destruct (all_zeros (String c t)).
Qed.

Lemma replace_after_point (frac : string) :
  dotless frac -> frac <> EmptyString ->
  replace trailing_zeros "" (String "." frac)
  = if all_zeros frac then EmptyString
    else String "." (strip_trailing_zeros frac).
Proof.
  intros Hfrac Hne.
  change (replace trailing_zeros "" (String "." frac))
    with (match matches trailing_zeros (String "." frac) Some with
          | Some rest' => ("" ++ rest')%string
          | None => String "." (replace trailing_zeros "" frac)
          end).
  rewrite matches_at_point.
  destruct frac as [| c t]; [contradiction |].
  destruct (all_zeros (String c t)); [reflexivity |].
  f_equal. apply (replace_trailing_zeros _ 0); [lia |].
  now apply dotless_indexOf.
Qed.

Lemma ToIntegerOrInfinity_of_Z (z : Z) :
  safe z -> ToIntegerOrInfinity (of_Z z) = Some z.
Proof.
  intros Sz. destruct (Z.eq_dec z 0) as [-> | Hz]; [reflexivity |].
  rewrite (of_Z_finite z Hz Sz). unfold ToIntegerOrInfinity.
  pose proof (exponent_nonpos z Hz Sz) as He.
  pose proof (mantissa_value z Hz Sz) as Hm.
  assert (HP : 0 < 2 ^ (- exponent z)) by (apply Z.pow_pos_nonneg; lia).
  assert (Hsign : cond_Zopp (z <? 0) (Z.abs z) = z)
    by (destruct (Z.ltb_spec z 0); cbn [cond_Zopp]; lia).
  destruct (Z.leb_spec 0 (exponent z)).
  - replace (exponent z) with 0 in * by lia.
    rewrite Z.pow_0_r, Z.mul_1_r in *. now rewrite Hm, Hsign.
  - rewrite Hm, Z.div_mul by lia. now rewrite Hsign.
Qed.

(** X26: with one to a hundred fraction digits and [|num| < 10^21],
    [toFixed] renders an integer part, a point and the fraction digits,
    and [formatNumber] with [removeTrailingZeros] leaves the integer part
    as it is: it removes the zeros that end the fraction, and the point
    with them when all fraction digits are zeros. *)
Theorem formatNumber_keeps_integer_part (num : number) (f : Z) :
  below_1e21 num = true -> 1 <= f <= 100 ->
  exists int frac : string,
    toFixed num (of_Z f) = Some (int ++ String "." frac)%string /\
    dotless int /\ dotless frac /\ len frac = f /\
    formatNumber num (Some (of_Z f)) (Some true)
    = Return (int ++ (if all_zeros frac then EmptyString
                      else String "." (strip_trailing_zeros frac)))%string.
Proof.
  intros Hnum Hf.
  assert (Hshape : exists int frac : string,
            toFixed num (of_Z f) = Some (int ++ String "." frac)%string /\
            dotless int /\ dotless frac /\ len frac = f).
  { unfold toFixed. rewrite ToIntegerOrInfinity_of_Z by (unfold safe; lia).
    replace ((f <? 0) || (100 <? f)) with false
      by (symmetry; apply orb_false_iff; split; apply Z.ltb_ge; lia).
    destruct num as [s | s | | s m e]; try discriminate Hnum.
    - destruct (fixed_digits_shape 0 1 f ltac:(lia))
        as (int & frac & E & Hi & Hfr & Hl).
      exists int, frac. now rewrite E.
    - cbn [below_1e21] in Hnum. unfold positive_toFixed.
      destruct (fraction m e) as [N D].
      apply negb_true_iff in Hnum. rewrite Hnum.
      destruct (fixed_digits_shape N D f ltac:(lia))
        as (int & frac & E & Hi & Hfr & Hl).
      destruct s.
      + exists ("-" ++ int)%string, frac. rewrite E.
        repeat split; try assumption. discriminate.
      + exists int, frac. now rewrite E. }
  destruct Hshape as (int & frac & E & Hi & Hfr & Hl).
  exists int, frac. repeat split; try assumption.
  unfold formatNumber. cbn [default]. rewrite E. f_equal.
  rewrite replace_skips_dotless by assumption. f_equal.
  apply replace_after_point; [assumption |].
  intros ->. cbn in Hl. lia.
Qed.

Lemma formatNumber_keeps_integer_part_witness :
  exists int frac : string,
    toFixed (of_decimal 12005 (-1)) (of_Z 3)
      = Some (int ++ String "." frac)%string /\
    dotless int /\ dotless frac /\ len frac = 3 /\
    formatNumber (of_decimal 12005 (-1)) (Some (of_Z 3)) (Some true)
    = Return (int ++ (if all_zeros frac then EmptyString
                      else String "." (strip_trailing_zeros frac)))%string.
Proof.
  apply (formatNumber_keeps_integer_part (of_decimal 12005 (-1)) 3);
    [vm_compute; reflexivity | lia].
Defined.

(** * Rounding errors of the operations *)

Lemma canonical_valid (s : bool) (m : positive) (e : Z) :
  canonical m e -> valid (S754_finite s m e) = true.
Proof.
  unfold valid, valid_binary, bounded, canonical_mantissa, canonical, digits2.
  intros [Hc He]. apply andb_true_intro. split.
  - now apply Z.eqb_eq.
  - now apply Z.leb_le.
Qed.

Lemma approximates_shr_1 (mrs : shr_record) (N D : Z) :
  approximates mrs N D -> approximates (shr_1 mrs) N (2 * D).
Proof.
  destruct mrs as [m r s]. unfold approximates. cbn [shr_m shr_r shr_s].
  intros (HD & Hm & Hq & Hs).
  assert (Hshift : exists m' r',
             shr_1 {| shr_m := m; shr_r := r; shr_s := s |}
             = {| shr_m := m'; shr_r := r'; shr_s := r || s |}
             /\ m = 2 * m' + Z.b2z r' /\ 0 <= m').
  { destruct m as [| [p | p |] |]; try lia; cbn [shr_1].
    - exists 0, false. repeat split; lia.
    - exists (Zpos p), true. repeat split; lia.
    - exists (Zpos p), false. repeat split; lia.
    - exists 0, true. repeat split; lia. }
  destruct Hshift as (m' & r' & -> & -> & Hm'). cbn [shr_m shr_r shr_s].
  repeat apply conj; try lia.
  - destruct r, r'; cbn [Z.b2z] in *; nia.
  - destruct r, r'; cbn [Z.b2z] in *; nia.
  - rewrite Hs. destruct r; cbn [orb Z.b2z] in *.
    + symmetry. apply negb_true_iff, Z.eqb_neq. destruct r'; cbn [Z.b2z] in *; nia.
    + f_equal. destruct r'; cbn [Z.b2z] in *;
        apply Bool.eq_iff_eq_true; rewrite !Z.eqb_eq; split; intros; nia.
Qed.

Lemma approximates_iter (n : nat) (mrs : shr_record) (N D : Z) :
  approximates mrs N D ->
  approximates (Nat.iter n shr_1 mrs) N (D * 2 ^ Z.of_nat n).
Proof.
  intros H. induction n as [| n IH].
  - cbn [Nat.iter]. change (Z.of_nat 0) with 0. now rewrite Z.pow_0_r, Z.mul_1_r.
  - cbn [Nat.iter]. rewrite Nat2Z.inj_succ, Z.pow_succ_r by lia.
    replace (D * (2 * 2 ^ Z.of_nat n)) with (2 * (D * 2 ^ Z.of_nat n)) by lia.
    now apply approximates_shr_1.
Qed.

Lemma approximates_shr (mrs : shr_record) (N D e n : Z) :
  0 <= n -> approximates mrs N D ->
  approximates (fst (shr mrs e n)) N (D * 2 ^ n) /\ snd (shr mrs e n) = e + n.
Proof.
  intros Hn H. destruct n as [| p | p]; try lia; cbn [shr fst snd].
  - rewrite Z.pow_0_r, Z.mul_1_r. split; [exact H | lia].
  - rewrite iter_pos_nat. split; [| reflexivity].
    rewrite <- (positive_nat_Z p). now apply approximates_iter.
Qed.

Lemma round_nearest_even_error (mrs : shr_record) (N D : Z) :
  approximates mrs N D ->
  shr_m mrs <= round_nearest_even (shr_m mrs) (loc_of_shr_record mrs)
            <= shr_m mrs + 1 /\
  Z.abs (2 * D * round_nearest_even (shr_m mrs) (loc_of_shr_record mrs)
         - 2 * N) <= D.
Proof.
  destruct mrs as [m r s]. unfold approximates. cbn [shr_m shr_r shr_s].
  intros (HD & Hm & Hq & Hs).
  destruct r, s; cbn [loc_of_shr_record round_nearest_even Z.b2z] in *;
    try (symmetry in Hs; apply negb_true_iff, Z.eqb_neq in Hs);
    try (symmetry in Hs; apply negb_false_iff, Z.eqb_eq in Hs);
    try (destruct (IntDef.Z.even m)); split; lia.
Qed.

Lemma shr_unchanged (mrs : shr_record) (e n : Z) :
  n <= 0 -> shr mrs e n = (mrs, e).
Proof.
  intros Hn. destruct n; try reflexivity; lia.
Qed.

Lemma shifted_mantissa_bounds (M d n m1 r1 N D : Z) :
  0 < D -> 0 <= n -> 0 < d -> 2 ^ (d - 1) <= M < 2 ^ d ->
  D * M <= N < D * (M + 1) ->
  D * 2 ^ n * (2 * m1 + r1) <= 2 * N < D * 2 ^ n * (2 * m1 + r1 + 1) ->
  0 <= r1 <= 1 -> 0 <= m1 ->
  (d - n <= 53 -> m1 < 2 ^ 53) /\ (n = d - 53 -> 2 ^ 52 <= m1).
Proof.
  intros HD Hn Hd HM HN Hm Hr Hm1.
  assert (HP : 0 < 2 ^ n) by (apply Z.pow_pos_nonneg; lia).
  split.
  - intros Hle.
    assert (H : 2 ^ d <= 2 ^ n * 2 ^ 53).
    { rewrite <- Z.pow_add_r by lia. apply Z.pow_le_mono_r; lia. }
    destruct (Z.lt_ge_cases (shr_m {| shr_m := m1; shr_r := false; shr_s := false |}) (2 ^ 53))
      as [Hlt | Hge]; cbn [shr_m] in *; [exact Hlt | exfalso].
    assert (D * 2 ^ n * (2 * 2 ^ 53) <= D * 2 ^ n * (2 * m1 + r1)).
    { apply Z.mul_le_mono_nonneg_l; nia. }
    assert (D * (2 ^ n * 2 ^ 53) < D * 2 ^ d) by nia.
    assert (2 ^ n * 2 ^ 53 < 2 ^ d) by nia.
    lia.
  - intros ->.
    assert (H : 2 ^ (d - 1) = 2 ^ (d - 53) * 2 ^ 52).
    { rewrite <- Z.pow_add_r by lia. f_equal. lia. }
    assert (D * M < D * (2 ^ (d - 53) * (m1 + 1))) by nia.
    assert (M < 2 ^ (d - 53) * (m1 + 1)) by nia.
    assert (2 ^ (d - 53) * 2 ^ 52 < 2 ^ (d - 53) * (m1 + 1)) by lia.
    nia.
Qed.

Lemma binary_round_aux_cases (s : bool) (M : positive) (E N D : Z)
    (l : location) :
  approximates (shr_record_of_loc (Zpos M) l) N D ->
  E <= fexp prec emax (digits2 M + E) ->
  exists m2 : Z,
    0 <= m2 /\
    Z.abs (2 * (D * 2 ^ (fexp prec emax (digits2 M + E) - E)) * m2 - 2 * N)
      <= D * 2 ^ (fexp prec emax (digits2 M + E) - E) /\
    ((m2 = 0 /\
      binary_round_aux prec emax s (Zpos M) E l = S754_zero s) \/
     (exists q : positive,
        m2 = Zpos q /\
        fexp prec emax (digits2 q + fexp prec emax (digits2 M + E))
        = fexp prec emax (digits2 M + E) /\
        binary_round_aux prec emax s (Zpos M) E l
        = if fexp prec emax (digits2 M + E) <=? emax - prec
          then S754_finite s q (fexp prec emax (digits2 M + E))
          else S754_infinity s) \/
     (m2 = 2 ^ 53 /\
      binary_round_aux prec emax s (Zpos M) E l
      = if fexp prec emax (digits2 M + E) + 1 <=? emax - prec
        then S754_finite s (2 ^ 52) (fexp prec emax (digits2 M + E) + 1)
        else S754_infinity s)).
Proof.
  intros Ha HE.
  unfold binary_round_aux, shr_fexp. cbn [Zdigits2]. fold (digits2 M).
  set (e1 := fexp prec emax (digits2 M + E)) in *.
  destruct (approximates_shr _ N D E (e1 - E) ltac:(lia) Ha) as [Ha1 He1].
  destruct (shr (shr_record_of_loc (Zpos M) l) E (e1 - E)) as [mrs1 e'].
  cbn [fst snd] in Ha1, He1.
  replace e' with e1 by lia. clear He1 e'.
  destruct (round_nearest_even_error mrs1 N _ Ha1) as [Hm2 Herr].
  set (m2 := round_nearest_even (shr_m mrs1) (loc_of_shr_record mrs1)) in *.
  assert (Hbounds : (digits2 M - (e1 - E) <= 53 -> shr_m mrs1 < 2 ^ 53) /\
                    (e1 - E = digits2 M - 53 -> 2 ^ 52 <= shr_m mrs1)).
  { destruct Ha as (HD & _ & HN & _), Ha1 as (_ & Hm1 & HN1 & _).
    apply (shifted_mantissa_bounds (Zpos M) (digits2 M) (e1 - E) (shr_m mrs1)
             (Z.b2z (shr_r mrs1)) N D); try assumption; try lia.
    - unfold digits2. lia.
    - apply digits2_bounds.
    - destruct l as [| []]; cbn [shr_record_of_loc shr_m shr_r Z.b2z] in HN; nia.
    - destruct (shr_r mrs1); cbn; lia. }
  destruct Hbounds as [Hhi Hlo].
  assert (Hfexp : e1 = Z.max (digits2 M + E - 53) (-1074)) by reflexivity.
  assert (Hm1 : 0 <= shr_m mrs1) by (destruct Ha1 as (_ & H & _); exact H).
  specialize (Hhi ltac:(lia)).
  exists m2. split; [lia |]. split; [exact Herr |].
  destruct m2 as [| q | q] eqn:Hq; try lia.
  - left. split; [reflexivity |].
    cbn [Zdigits2 shr_record_of_loc].
    rewrite shr_unchanged; [reflexivity |].
    unfold fexp, emin, prec, emax. lia.
  - destruct (Z.eq_dec (Zpos q) (2 ^ 53)) as [Hcarry | Hcarry].
    + right. right. split; [exact Hcarry |].
      assert (q = 9007199254740992%positive) as ->
        by (apply Pos2Z.inj; exact Hcarry).
      cbn [Zdigits2 shr_record_of_loc].
      change (Zpos (digits2_pos 9007199254740992)) with 54.
      replace (fexp prec emax (54 + e1) - e1) with 1
        by (unfold fexp, emin, prec, emax; lia).
      cbn [shr iter_pos shr_1 orb shr_m]. reflexivity.
    + right. left. exists q. split; [reflexivity |].
      assert (Hdq : digits2 q <= 53).
      { pose proof (digits2_bounds q) as [Blo _].
        destruct (Z.le_gt_cases (digits2 q) 53) as [|Hgt]; [assumption |].
        assert (2 ^ 53 <= 2 ^ (digits2 q - 1)) by (apply Z.pow_le_mono_r; lia).
        lia. }
      assert (Hcq : fexp prec emax (digits2 q + e1) = e1).
      { destruct (Z.eq_dec e1 (-1074)) as [Hsub | Hnorm].
        - unfold fexp, emin, prec, emax. lia.
        - specialize (Hlo ltac:(lia)).
          assert (digits2 q = 53).
          { apply digits2_unique. change (53 - 1) with 52. lia. }
          unfold fexp, emin, prec, emax. lia. }
      split; [exact Hcq |].
      cbn [Zdigits2 shr_record_of_loc]. fold (digits2 q).
      rewrite shr_unchanged by lia. cbn [shr_m]. reflexivity.
Qed.

(** The exponent at which a quotient below [2^k] is rounded. *)
Lemma rounding_exponent_bound (M : positive) (E N D k : Z) (l : location) :
  approximates (shr_record_of_loc (Zpos M) l) N D ->
  0 <= E + 1200 -> 0 <= k + 1200 ->
  N * 2 ^ (E + 1200) < D * 2 ^ (k + 1200) ->
  fexp prec emax (digits2 M + E) <= fexp prec emax k.
Proof.
  intros (HD & _ & HN & _) HE Hk Hlt.
  assert (HM : D * Zpos M <= N)
    by (destruct l as [| []]; cbn [shr_record_of_loc shr_m shr_r Z.b2z] in HN; nia).
  pose proof (digits2_bounds M) as [Blo _].
  assert (Hd : 0 < digits2 M) by (unfold digits2; lia).
  assert (Hle : digits2 M + E <= k).
  { destruct (Z.le_gt_cases (digits2 M + E) k) as [| Hgt]; [assumption |].
    exfalso.
    assert (H1 : 2 ^ (k + 1200) <= 2 ^ (digits2 M - 1) * 2 ^ (E + 1200)).
    { rewrite <- Z.pow_add_r by lia. apply Z.pow_le_mono_r; lia. }
    assert (HP : 0 < 2 ^ (E + 1200)) by (apply Z.pow_pos_nonneg; lia).
    assert (H2 : D * 2 ^ (k + 1200) <= D * (Zpos M * 2 ^ (E + 1200))).
    { apply Z.mul_le_mono_nonneg_l; [lia |].
      etransitivity; [exact H1 |]. apply Z.mul_le_mono_nonneg_r; lia. }
    assert (H3 : D * Zpos M * 2 ^ (E + 1200) <= N * 2 ^ (E + 1200))
      by (apply Z.mul_le_mono_nonneg_r; lia).
    lia. }
  unfold fexp, emin, prec, emax. lia.
Qed.

(** The error of one rounding: at most half a unit of the exponent at which
    the mantissa is cut. *)
Lemma binary_round_aux_units (s : bool) (M : positive) (E N D : Z)
    (l : location) :
  approximates (shr_record_of_loc (Zpos M) l) N D ->
  E <= fexp prec emax (digits2 M + E) ->
  0 <= E + 1200 ->
  (binary_round_aux prec emax s (Zpos M) E l = S754_infinity s /\
   emax - prec <= fexp prec emax (digits2 M + E)) \/
  (valid (binary_round_aux prec emax s (Zpos M) E l) = true /\
   is_finite (binary_round_aux prec emax s (Zpos M) E l) = true /\
   (forall (s' : bool) (m : positive) (e : Z),
      binary_round_aux prec emax s (Zpos M) E l = S754_finite s' m e ->
      fexp prec emax (digits2 M + E) <= e) /\
   exists v : Z,
     0 <= v /\
     units (binary_round_aux prec emax s (Zpos M) E l) = cond_Zopp s v /\
     Z.abs (2 * D * v - 2 * N * 2 ^ (E + 1200))
       <= D * 2 ^ (fexp prec emax (digits2 M + E) + 1200)).
Proof.
  intros Ha HE HL.
  destruct (binary_round_aux_cases s M E N D l Ha HE)
    as (m2 & Hm2 & Herr & Hcases).
  set (e1 := fexp prec emax (digits2 M + E)) in *.
  assert (HD : 0 < D) by (destruct Ha as (H & _); exact H).
  assert (HP : 0 < 2 ^ (E + 1200)) by (apply Z.pow_pos_nonneg; lia).
  assert (Hpow : 2 ^ (e1 + 1200) = 2 ^ (e1 - E) * 2 ^ (E + 1200)).
  { rewrite <- Z.pow_add_r by lia. f_equal. lia. }
  assert (Hgen : Z.abs (2 * D * (m2 * 2 ^ (e1 + 1200)) - 2 * N * 2 ^ (E + 1200))
                 <= D * 2 ^ (e1 + 1200)).
  { rewrite Hpow.
    replace (2 * D * (m2 * (2 ^ (e1 - E) * 2 ^ (E + 1200)))
             - 2 * N * 2 ^ (E + 1200))
      with ((2 * (D * 2 ^ (e1 - E)) * m2 - 2 * N) * 2 ^ (E + 1200)) by ring.
    rewrite Z.abs_mul, (Z.abs_eq (2 ^ (E + 1200))) by lia.
    replace (D * (2 ^ (e1 - E) * 2 ^ (E + 1200)))
      with (D * 2 ^ (e1 - E) * 2 ^ (E + 1200)) by ring.
    apply Z.mul_le_mono_nonneg_r; lia. }
  destruct Hcases as [[-> Hr] | [(q & -> & Hc & Hr) | [-> Hr]]].
  - right. rewrite Hr. repeat apply conj; try reflexivity.
    + intros s' m e H. discriminate H.
    + exists 0. repeat apply conj; [lia | now destruct s | ].
      rewrite Z.mul_0_l in Hgen. exact Hgen.
  - destruct (Z.leb_spec e1 (emax - prec)) as [Hle | Hgt].
    + right. rewrite Hr. repeat apply conj.
      * apply canonical_valid. split; [exact Hc | exact Hle].
      * reflexivity.
      * intros s' m e H. injection H as _ _ <-. lia.
      * exists (Zpos q * 2 ^ (e1 + 1200)). repeat apply conj.
        -- apply Z.mul_nonneg_nonneg; [lia |]. apply Z.pow_nonneg. lia.
        -- reflexivity.
        -- exact Hgen.
    + left. split; [exact Hr | lia].
  - destruct (Z.leb_spec (e1 + 1) (emax - prec)) as [Hle | Hgt].
    + right. rewrite Hr. repeat apply conj.
      * apply canonical_valid. split; [| exact Hle].
        change (digits2 (2 ^ 52)) with 53.
        assert (e1 = Z.max (digits2 M + E - 53) (-1074)) by reflexivity.
        unfold fexp, emin, prec, emax. lia.
      * reflexivity.
      * intros s' m e H. injection H as _ _ <-. lia.
      * exists (2 ^ 53 * 2 ^ (e1 + 1200)). repeat apply conj.
        -- apply Z.mul_nonneg_nonneg; [lia |]. apply Z.pow_nonneg. lia.
        -- cbn [units]. f_equal.
           replace (e1 + 1 + 1200) with (Z.succ (e1 + 1200)) by lia.
           assert (e1 = Z.max (digits2 M + E - 53) (-1074)) by reflexivity.
           rewrite Z.pow_succ_r by lia.
           change (Zpos (2 ^ 52)) with (2 ^ 52). change (2 ^ 53) with (2 * 2 ^ 52).
           ring.
        -- exact Hgen.
    + left. split; [exact Hr | lia].
Qed.

Lemma canonical_bounds (m : positive) (e : Z) :
  canonical m e -> -1074 <= e /\ digits2 m <= 53.
Proof.
  unfold canonical, fexp, emin, prec, emax. lia.
Qed.

Lemma exact_approximates (M : positive) :
  approximates (shr_record_of_loc (Zpos M) loc_Exact) (Zpos M) 1.
Proof.
  unfold approximates. cbn [shr_record_of_loc shr_m shr_r shr_s Z.b2z].
  repeat apply conj; try lia.
Qed.

Lemma digits2_lower (M : positive) (d : Z) :
  2 ^ (d - 1) <= Zpos M -> d <= digits2 M.
Proof.
  intros H. pose proof (digits2_bounds M) as [_ Bhi].
  destruct (Z.le_gt_cases d (digits2 M)) as [| Hgt]; [assumption |].
  assert (2 ^ digits2 M <= 2 ^ (d - 1))
    by (apply Z.pow_le_mono_r; unfold digits2 in *; lia).
  lia.
Qed.

Lemma represents_positive (F : Z) (m : positive) (e : Z) :
  represents F m e -> 0 < F.
Proof.
  intros (_ & He & H).
  assert (0 < 2 ^ (e + 52)) by (apply Z.pow_pos_nonneg; lia).
  nia.
Qed.

(** The product of a mantissa at exponent [ex] and [F], in units. *)
Lemma product_units (mx m : positive) (ex e F : Z) :
  -1074 <= ex -> represents F m e ->
  Zpos (mx * m) * 2 ^ (ex + e + 1200) = Zpos mx * 2 ^ (ex + 1200) * F.
Proof.
  intros Hex (_ & He & H).
  assert (Hpow : 2 ^ (ex + e + 1200) * 2 ^ 52 = 2 ^ (ex + 1200) * 2 ^ (e + 52)).
  { rewrite <- !Z.pow_add_r by lia. f_equal. lia. }
  apply (Z.mul_reg_r _ _ (2 ^ 52)); [lia |].
  rewrite Pos2Z.inj_mul.
  replace (Zpos mx * Zpos m * 2 ^ (ex + e + 1200) * 2 ^ 52)
    with (Zpos mx * Zpos m * (2 ^ (ex + e + 1200) * 2 ^ 52)) by ring.
  rewrite Hpow.
  replace (Zpos mx * 2 ^ (ex + 1200) * F * 2 ^ 52)
    with (Zpos mx * 2 ^ (ex + 1200) * (F * 2 ^ 52)) by ring.
  rewrite <- H. ring.
Qed.

(** [fmul] by a positive integer [F]: the exponent [e1] at which the
    product is cut, and the error. *)
Lemma fmul_units (sx : bool) (mx m : positive) (ex e F : Z) :
  canonical mx ex -> represents F m e ->
  exists e1 : Z,
    (forall k : Z, -1200 <= k ->
       Zpos mx * 2 ^ (ex + 1200) * F < 2 ^ (k + 1200) ->
       e1 <= fexp prec emax k) /\
    ((fmul (S754_finite sx mx ex) (S754_finite false m e) = S754_infinity sx
      /\ emax - prec <= e1) \/
     (valid (fmul (S754_finite sx mx ex) (S754_finite false m e)) = true /\
      is_finite (fmul (S754_finite sx mx ex) (S754_finite false m e)) = true /\
      (forall (s' : bool) (m' : positive) (e' : Z),
         fmul (S754_finite sx mx ex) (S754_finite false m e)
         = S754_finite s' m' e' -> e1 <= e') /\
      Z.abs (units (fmul (S754_finite sx mx ex) (S754_finite false m e))
             - units (S754_finite sx mx ex) * F) <= 2 ^ (e1 + 1199))).
Proof.
  intros Hc Hrep. pose proof (canonical_bounds mx ex Hc) as [Hex Hdx].
  pose proof Hrep as (Hd & He & HF).
  pose proof (product_units mx m ex e F Hex Hrep) as Hprod.
  pose proof (exact_approximates (mx * m)) as Ha.
  unfold fmul, SFmul. rewrite xorb_false_r.
  assert (Hdig : 53 <= digits2 (mx * m)).
  { apply digits2_lower. rewrite Pos2Z.inj_mul.
    pose proof (digits2_bounds m) as [Blo _]. rewrite Hd in Blo.
    change (53 - 1) with 52 in *. nia. }
  set (e1 := fexp prec emax (digits2 (mx * m) + (ex + e))).
  assert (He1 : e1 = Z.max (digits2 (mx * m) + (ex + e) - 53) (-1074))
    by reflexivity.
  exists e1. split.
  - intros k Hk Hlt.
    apply (rounding_exponent_bound (mx * m) (ex + e) (Zpos (mx * m)) 1 k
             loc_Exact Ha); lia.
  - destruct (binary_round_aux_units sx (mx * m) (ex + e) (Zpos (mx * m)) 1
                loc_Exact Ha ltac:(fold e1; lia) ltac:(lia))
      as [[Hinf Hbig] | (Hv & Hf & Hres & v & Hv0 & Hu & Herr)].
    + left. split; [exact Hinf | exact Hbig].
    + right. repeat apply conj; try assumption.
      rewrite Hu. fold e1 in Herr.
      assert (Hhalf : 2 ^ (e1 + 1200) = 2 * 2 ^ (e1 + 1199)).
      { replace (e1 + 1200) with (Z.succ (e1 + 1199)) by lia.
        apply Z.pow_succ_r. lia. }
      rewrite Hhalf in Herr. cbn [units].
      destruct sx; cbn [cond_Zopp]; lia.
Qed.

Lemma fmul_error (x : number) (F : Z) (m : positive) (e k : Z) :
  valid x = true -> is_finite x = true -> represents F m e ->
  -1021 <= k <= 1000 ->
  Z.abs (units x) * F < 2 ^ (k + 1200) ->
  valid (fmul x (S754_finite false m e)) = true /\
  is_finite (fmul x (S754_finite false m e)) = true /\
  Z.abs (units (fmul x (S754_finite false m e)) - units x * F)
    <= 2 ^ (k + 1146).
Proof.
  intros Hv Hf Hrep Hk Hlt.
  assert (Hpos : 0 < 2 ^ (k + 1146)) by (apply Z.pow_pos_nonneg; lia).
  destruct x as [s | s | | sx mx ex]; try discriminate Hf.
  - cbn. repeat apply conj; try reflexivity. lia.
  - destruct (fmul_units sx mx m ex e F (valid_canonical _ _ _ Hv) Hrep)
      as (e1 & Hbound & Hcases).
    assert (He1 : e1 <= k - 53).
    { transitivity (fexp prec emax k).
      - apply Hbound; [lia |].
        assert (0 <= Zpos mx * 2 ^ (ex + 1200))
          by (apply Z.mul_nonneg_nonneg; [lia | apply Z.pow_nonneg; lia]).
        cbn [units] in Hlt.
        destruct sx; cbn [cond_Zopp] in Hlt;
          rewrite ?Z.abs_opp, Z.abs_eq in Hlt by assumption; exact Hlt.
      - unfold fexp, emin, prec, emax. lia. }
    destruct Hcases as [[_ Hbig] | (Hvr & Hfr & _ & Herr)].
    + unfold emax, prec in Hbig. lia.
    + repeat apply conj; try assumption.
      etransitivity; [exact Herr |]. apply Z.pow_le_mono_r; lia.
Qed.

Lemma fmul_error_of_result (x : number) (F : Z) (m : positive) (e : Z)
    (s' : bool) (m' : positive) (e' : Z) :
  valid x = true -> represents F m e ->
  fmul x (S754_finite false m e) = S754_finite s' m' e' ->
  -1074 <= e' /\
  Z.abs (units (S754_finite s' m' e') - units x * F) <= 2 ^ (e' + 1199).
Proof.
  intros Hv Hrep Hr.
  destruct x as [s | s | | sx mx ex]; try discriminate Hr.
  destruct (fmul_units sx mx m ex e F (valid_canonical _ _ _ Hv) Hrep)
    as (e1 & Hbound & Hcases).
  destruct Hcases as [[Hinf _] | (Hvr & _ & Hres & Herr)].
  - rewrite Hinf in Hr. discriminate Hr.
  - specialize (Hres _ _ _ Hr). rewrite Hr in Herr, Hvr.
    pose proof (canonical_bounds _ _ (valid_canonical _ _ _ Hvr)) as [He' _].
    split; [exact He' |].
    etransitivity; [exact Herr |]. apply Z.pow_le_mono_r; lia.
Qed.

(** ** Division *)

Lemma new_location_approximates (q r D : Z) :
  0 < D -> 0 <= q -> 0 <= r < D ->
  approximates (shr_record_of_loc q (new_location D r)) (q * D + r) D.
Proof.
  intros HD Hq Hr. unfold new_location, new_location_even, new_location_odd.
  change IntDef.Z.even with Z.even. change IntDef.Z.eqb with Z.eqb.
  change IntDef.Z.compare with Z.compare. change IntDef.Z.mul with Z.mul.
  change IntDef.Z.add with Z.add.
  assert (Hparity : Z.even D = false -> 2 * r <> D).
  { intros Heven Heq. rewrite <- Heq, Z.even_mul in Heven. discriminate Heven. }
  destruct (Z.even D); [clear Hparity | specialize (Hparity eq_refl)].
  - destruct (Z.eqb_spec r 0) as [Hr0 | Hr0];
      [| destruct (Z.compare_spec (2 * r) D) as [Heq | Hlt | Hgt]];
      unfold approximates; cbn [shr_record_of_loc shr_m shr_r shr_s Z.b2z];
      repeat apply conj; try lia;
      symmetry;
      (apply negb_false_iff, Z.eqb_eq || apply negb_true_iff, Z.eqb_neq); lia.
  - destruct (Z.eqb_spec r 0) as [Hr0 | Hr0];
      [| destruct (Z.compare_spec (2 * r + 1) D) as [Heq | Hlt | Hgt]];
      unfold approximates; cbn [shr_record_of_loc shr_m shr_r shr_s Z.b2z];
      repeat apply conj; try lia;
      symmetry;
      (apply negb_false_iff, Z.eqb_eq || apply negb_true_iff, Z.eqb_neq); lia.
Qed.

Lemma SFdiv_core_binary_eval (mx m : positive) (ex e : Z) :
  digits2 mx = 53 -> digits2 m = 53 -> -1021 <= ex - e ->
  SFdiv_core_binary prec emax (Zpos mx) ex (Zpos m) e
  = ((Zpos mx * 2 ^ 53) / Zpos m, ex - e - 53,
     new_location (Zpos m) ((Zpos mx * 2 ^ 53) mod Zpos m)).
Proof.
  intros Hdx Hd He. unfold SFdiv_core_binary. cbv zeta.
  cbn [Zdigits2]. fold (digits2 mx) (digits2 m). rewrite Hdx, Hd.
  change IntDef.Z.min with Z.min.
  replace (Z.min (fexp prec emax (53 + ex - (53 + e))) (ex - e))
    with (ex - e - 53) by (unfold fexp, emin, prec, emax; lia).
  replace (ex - e - (ex - e - 53)) with 53 by lia.
  change (IntDef.Z.shiftl (Zpos mx) 53) with (Z.shiftl (Zpos mx) 53).
  rewrite Z.shiftl_mul_pow2 by lia.
  change IntDef.Z.div_eucl with Z.div_eucl.
  unfold Z.div, Z.modulo.
  destruct (Z.div_eucl (Zpos mx * 2 ^ 53) (Zpos m)) as [q r]. reflexivity.
Qed.

(** [fdiv] of a 53-bit mantissa by a positive integer [F]. *)
Lemma fdiv_units (sx : bool) (mx m : positive) (ex e F : Z) :
  digits2 mx = 53 -> -200 <= ex <= 200 -> represents F m e ->
  exists e1 : Z,
    (forall k : Z, -1200 <= k ->
       Zpos mx * 2 ^ (ex + 1200) < F * 2 ^ (k + 1200) ->
       e1 <= fexp prec emax k) /\
    valid (fdiv (S754_finite sx mx ex) (S754_finite false m e)) = true /\
    is_finite (fdiv (S754_finite sx mx ex) (S754_finite false m e)) = true /\
    Z.abs (units (fdiv (S754_finite sx mx ex) (S754_finite false m e)) * F
           - units (S754_finite sx mx ex)) <= F * 2 ^ (e1 + 1199).
Proof.
  intros Hdx Hex Hrep. pose proof Hrep as (Hd & He & HF).
  pose proof (represents_positive F m e Hrep) as HFpos.
  unfold fdiv, SFdiv.
  rewrite (SFdiv_core_binary_eval mx m ex e Hdx Hd ltac:(lia)).
  rewrite xorb_false_r.
  set (N := Zpos mx * 2 ^ 53).
  pose proof (Z.div_mod N (Zpos m) ltac:(lia)) as Hdiv.
  pose proof (Z.mod_pos_bound N (Zpos m) ltac:(lia)) as Hmod.
  set (q := N / Zpos m) in *. set (r := N mod Zpos m) in *.
  pose proof (digits2_bounds mx) as Bx. rewrite Hdx in Bx.
  pose proof (digits2_bounds m) as Bm. rewrite Hd in Bm.
  change (53 - 1) with 52 in *.
  assert (Hq : 2 ^ 52 <= q < 2 ^ 54).
  { unfold N in Hdiv. split.
    - destruct (Z.le_gt_cases (2 ^ 52) q) as [| Hlt]; [assumption | exfalso].
      assert (Zpos m * q <= Zpos m * (2 ^ 52 - 1))
        by (apply Z.mul_le_mono_nonneg_l; lia).
      lia.
    - destruct (Z.lt_ge_cases q (2 ^ 54)) as [| Hge]; [assumption | exfalso].
      assert (Zpos m * 2 ^ 54 <= Zpos m * q)
        by (apply Z.mul_le_mono_nonneg_l; lia).
      lia. }
  destruct q as [| Q | Q] eqn:HQ; try lia.
  assert (HdQ : 53 <= digits2 Q <= 54).
  { split.
    - apply digits2_lower. change (53 - 1) with 52. lia.
    - pose proof (digits2_bounds Q) as [Blo _].
      destruct (Z.le_gt_cases (digits2 Q) 54) as [| Hgt]; [assumption |].
      assert (2 ^ 54 <= 2 ^ (digits2 Q - 1)) by (apply Z.pow_le_mono_r; lia).
      lia. }
  pose proof (new_location_approximates (Zpos Q) r (Zpos m)
                ltac:(lia) ltac:(lia) Hmod) as Ha.
  replace (Zpos Q * Zpos m + r) with N in Ha by lia.
  set (E := ex - e - 53) in *.
  set (e1 := fexp prec emax (digits2 Q + E)).
  assert (He1 : e1 = Z.max (digits2 Q + E - 53) (-1074)) by reflexivity.
  set (a := 2 ^ (e + 52)). set (t := 2 ^ (ex + 1200)).
  set (W := 2 ^ (E + 1200)).
  assert (Ha0 : 0 < a) by (apply Z.pow_pos_nonneg; lia).
  assert (Ht0 : 0 < t) by (apply Z.pow_pos_nonneg; lia).
  assert (HJ : 2 ^ 53 * W * a = t * 2 ^ 52).
  { unfold W, a, t, E. rewrite <- !Z.pow_add_r by lia. f_equal. lia. }
  assert (HNW : N * W * a = Zpos mx * t * 2 ^ 52).
  { unfold N. replace (Zpos mx * 2 ^ 53 * W * a)
      with (Zpos mx * (2 ^ 53 * W * a)) by ring.
    rewrite HJ. ring. }
  fold a in HF.
  exists e1. split.
  - intros k Hk Hlt.
    apply (rounding_exponent_bound Q E N (Zpos m) k _ Ha);
      [unfold E; lia | lia |].
    fold W. apply (Z.mul_lt_mono_pos_r a); [exact Ha0 |].
    rewrite HNW.
    replace (Zpos m * 2 ^ (k + 1200) * a)
      with (Zpos m * a * 2 ^ (k + 1200)) by ring.
    rewrite HF.
    replace (F * 2 ^ 52 * 2 ^ (k + 1200))
      with (F * 2 ^ (k + 1200) * 2 ^ 52) by ring.
    apply Z.mul_lt_mono_pos_r; [lia | exact Hlt].
  - destruct (binary_round_aux_units sx Q E N (Zpos m)
                (new_location (Zpos m) r) Ha ltac:(fold e1; lia)
                ltac:(unfold E; lia))
      as [[_ Hbig] | (Hv & Hf & _ & v & Hv0 & Hu & Herr)].
    + fold e1 in Hbig. unfold emax, prec, E in *. lia.
    + repeat apply conj; try assumption.
      rewrite Hu. fold e1 in Herr. fold W in Herr.
      assert (Hhalf : 2 ^ (e1 + 1200) = 2 * 2 ^ (e1 + 1199)).
      { replace (e1 + 1200) with (Z.succ (e1 + 1199)) by lia.
        apply Z.pow_succ_r. lia. }
      rewrite Hhalf in Herr.
      assert (Hscaled : a * (2 * Zpos m * v - 2 * N * W)
                        = 2 * 2 ^ 52 * (F * v - Zpos mx * t)).
      { replace (a * (2 * Zpos m * v - 2 * N * W))
          with (2 * (Zpos m * a) * v - 2 * (N * W * a)) by ring.
        rewrite HF, HNW. ring. }
      assert (Hbound : Z.abs (a * (2 * Zpos m * v - 2 * N * W))
                       <= a * (Zpos m * (2 * 2 ^ (e1 + 1199)))).
      { rewrite Z.abs_mul, (Z.abs_eq a) by lia.
        apply Z.mul_le_mono_nonneg_l; lia. }
      rewrite Hscaled in Hbound.
      replace (a * (Zpos m * (2 * 2 ^ (e1 + 1199))))
        with (2 * (Zpos m * a) * 2 ^ (e1 + 1199)) in Hbound by ring.
      rewrite HF in Hbound.
      rewrite Z.abs_mul in Hbound.
      cbn [units]. fold t.
      assert (Hgoal : Z.abs (F * v - Zpos mx * t) <= F * 2 ^ (e1 + 1199)).
      { change (Z.abs (2 * 2 ^ 52)) with (2 * 2 ^ 52) in Hbound.
        apply (Z.mul_le_mono_pos_l _ _ (2 * 2 ^ 52)); [lia |].
        etransitivity; [exact Hbound |]. apply Z.eq_le_incl. ring. }
      destruct sx; cbn [cond_Zopp]; lia.
Qed.

(** ** Addition *)

Lemma shl_align_cases (M : positive) (E f : Z) :
  exists (mz : positive) (ez : Z),
    shl_align M E f = (mz, ez) /\ ez <= f /\ ez <= E /\
    (ez = E \/ ez = f) /\ Zpos mz = Zpos M * 2 ^ (E - ez).
Proof.
  unfold shl_align. destruct (f - E) as [| d | d] eqn:Hd.
  - exists M, E. repeat apply conj; try reflexivity; try lia.
    rewrite Z.sub_diag, Z.pow_0_r. lia.
  - exists M, E. repeat apply conj; try reflexivity; try lia.
    rewrite Z.sub_diag, Z.pow_0_r. lia.
  - exists (Pos.iter xO M d), f. repeat apply conj; try reflexivity; try lia.
    rewrite iter_xO_pow. do 2 f_equal. lia.
Qed.

Lemma binary_round_units (s : bool) (M : positive) (E : Z) :
  -1074 <= E ->
  exists e1 : Z,
    (forall k : Z, -1200 <= k ->
       Zpos M * 2 ^ (E + 1200) < 2 ^ (k + 1200) -> e1 <= fexp prec emax k) /\
    ((binary_round prec emax s M E = S754_infinity s /\ emax - prec <= e1) \/
     (valid (binary_round prec emax s M E) = true /\
      is_finite (binary_round prec emax s M E) = true /\
      Z.abs (units (binary_round prec emax s M E)
             - cond_Zopp s (Zpos M * 2 ^ (E + 1200))) <= 2 ^ (e1 + 1199))).
Proof.
  intros HE. unfold binary_round. fold (digits2 M).
  set (f := fexp prec emax (digits2 M + E)).
  assert (Hf : f = Z.max (digits2 M + E - 53) (-1074)) by reflexivity.
  destruct (shl_align_cases M E f) as (mz & ez & -> & Hezf & HezE & Hez & Hmz).
  assert (Hdig : digits2 mz + ez = digits2 M + E).
  { rewrite (digits2_shift M mz (E - ez)) by (lia || exact Hmz). lia. }
  pose proof (exact_approximates mz) as Ha.
  assert (Hunits : Zpos mz * 2 ^ (ez + 1200) = Zpos M * 2 ^ (E + 1200)).
  { rewrite Hmz, <- Z.mul_assoc, <- Z.pow_add_r by lia. do 2 f_equal. lia. }
  exists f. split.
  - intros k Hk Hlt. unfold f. rewrite <- Hdig.
    apply (rounding_exponent_bound mz ez (Zpos mz) 1 k loc_Exact Ha); lia.
  - pose proof (binary_round_aux_units s mz ez (Zpos mz) 1 loc_Exact Ha
                  ltac:(rewrite Hdig; fold f; lia) ltac:(lia)) as Hround.
    rewrite Hdig in Hround. fold f in Hround.
    destruct Hround as [[Hinf Hbig] | (Hv & Hfin & _ & v & Hv0 & Hu & Herr)].
    + left. split; assumption.
    + right. repeat apply conj; try assumption.
      rewrite Hu.
      assert (Hhalf : 2 ^ (f + 1200) = 2 * 2 ^ (f + 1199)).
      { replace (f + 1200) with (Z.succ (f + 1199)) by lia.
        apply Z.pow_succ_r. lia. }
      rewrite Hhalf in Herr.
      destruct s; cbn [cond_Zopp]; lia.
Qed.

Lemma aligned_units (s : bool) (m : positive) (e ez : Z) :
  -1074 <= ez <= e ->
  cond_Zopp s (Zpos (fst (shl_align m e ez))) * 2 ^ (ez + 1200)
  = units (S754_finite s m e).
Proof.
  intros He. rewrite shl_align_value by lia. cbn [units].
  assert (H : 2 ^ (e - ez) * 2 ^ (ez + 1200) = 2 ^ (e + 1200)).
  { rewrite <- Z.pow_add_r by lia. f_equal. lia. }
  destruct s; cbn [cond_Zopp]; rewrite <- H; ring.
Qed.

Lemma fadd_error (x y : number) (k : Z) :
  valid x = true -> valid y = true ->
  is_finite x = true -> is_finite y = true ->
  -1021 <= k <= 1000 ->
  Z.abs (units x + units y) < 2 ^ (k + 1200) ->
  valid (fadd x y) = true /\ is_finite (fadd x y) = true /\
  Z.abs (units (fadd x y) - (units x + units y)) <= 2 ^ (k + 1146).
Proof.
  intros Hvx Hvy Hfx Hfy Hk Hlt.
  assert (Hpos : 0 < 2 ^ (k + 1146)) by (apply Z.pow_pos_nonneg; lia).
  destruct x as [sx | sx | | sx mx ex]; try discriminate Hfx;
    destruct y as [sy | sy | | sy my ey]; try discriminate Hfy.
  - repeat apply conj; try (destruct sx, sy; reflexivity).
    replace (units (fadd (S754_zero sx) (S754_zero sy))) with 0
      by (destruct sx, sy; reflexivity).
    cbn [units]. lia.
  - cbn [fadd SFadd]. unfold fadd. cbn [SFadd].
    repeat apply conj; try assumption. cbn [units] in *. lia.
  - unfold fadd. cbn [SFadd].
    repeat apply conj; try assumption. cbn [units] in *. lia.
  - pose proof (canonical_bounds _ _ (valid_canonical _ _ _ Hvx)) as [Hex _].
    pose proof (canonical_bounds _ _ (valid_canonical _ _ _ Hvy)) as [Hey _].
    unfold fadd. cbn [SFadd]. change IntDef.Z.min with Z.min.
    set (ez := Z.min ex ey).
    pose proof (aligned_units sx mx ex ez ltac:(lia)) as Hx.
    pose proof (aligned_units sy my ey ez ltac:(lia)) as Hy.
    set (z := cond_Zopp sx (Zpos (fst (shl_align mx ex ez)))
              + cond_Zopp sy (Zpos (fst (shl_align my ey ez)))) in *.
    assert (Hz : z * 2 ^ (ez + 1200)
                 = units (S754_finite sx mx ex) + units (S754_finite sy my ey)).
    { rewrite <- Hx, <- Hy. unfold z. ring. }
    rewrite <- Hz in *. clear Hx Hy Hz.
    destruct z as [| M | M]; cbn [binary_normalize].
    + repeat apply conj; try reflexivity. cbn [units]. lia.
    + destruct (binary_round_units false M ez ltac:(lia))
        as (e1 & Hbound & Hcases).
      assert (He1 : e1 <= k - 53).
      { transitivity (fexp prec emax k).
        - apply Hbound; [lia |].
          assert (0 <= Zpos M * 2 ^ (ez + 1200))
            by (apply Z.mul_nonneg_nonneg; [lia | apply Z.pow_nonneg; lia]).
          lia.
        - unfold fexp, emin, prec, emax. lia. }
      destruct Hcases as [[_ Hbig] | (Hv & Hf & Herr)].
      * unfold emax, prec in Hbig. lia.
      * repeat apply conj; try assumption. cbn [cond_Zopp] in Herr.
        etransitivity; [exact Herr |]. apply Z.pow_le_mono_r; lia.
    + destruct (binary_round_units true M ez ltac:(lia))
        as (e1 & Hbound & Hcases).
      assert (He1 : e1 <= k - 53).
      { transitivity (fexp prec emax k).
        - apply Hbound; [lia |].
          assert (0 <= Zpos M * 2 ^ (ez + 1200))
            by (apply Z.mul_nonneg_nonneg; [lia | apply Z.pow_nonneg; lia]).
          change (Zneg M) with (- Zpos M) in Hlt. lia.
        - unfold fexp, emin, prec, emax. lia. }
      destruct Hcases as [[_ Hbig] | (Hv & Hf & Herr)].
      * unfold emax, prec in Hbig. lia.
      * repeat apply conj; try assumption. cbn [cond_Zopp] in Herr.
        change (Zneg M) with (- Zpos M).
        replace (- Zpos M * 2 ^ (ez + 1200))
          with (- (Zpos M * 2 ^ (ez + 1200))) by ring.
        etransitivity; [exact Herr |]. apply Z.pow_le_mono_r; lia.
Qed.

(** ** Integers and the nearest integer *)

Lemma units_of_Z (z : Z) : safe z -> units (of_Z z) = z * 2 ^ 1200.
Proof.
  intros Hs. destruct (Z.eq_dec z 0) as [-> | Hz]; [reflexivity |].
  rewrite (of_Z_finite z Hz Hs). cbn [units].
  pose proof (Zdigits2_safe z Hz Hs) as Hd.
  assert (He : -52 <= exponent z <= 0) by (unfold exponent; lia).
  replace (Zpos (mantissa z) * 2 ^ (exponent z + 1200))
    with (Zpos (mantissa z) * 2 ^ (exponent z + 1200)) by reflexivity.
  assert (H : 2 ^ (- exponent z) * 2 ^ (exponent z + 1200) = 2 ^ 1200).
  { rewrite <- Z.pow_add_r by lia. f_equal. lia. }
  rewrite <- H.
  replace (z * (2 ^ (- exponent z) * 2 ^ (exponent z + 1200)))
    with (z * 2 ^ (- exponent z) * 2 ^ (exponent z + 1200)) by ring.
  rewrite <- (signed_mantissa z Hz Hs).
  destruct (z <? 0); cbn [cond_Zopp]; ring.
Qed.

Lemma valid_of_Z (z : Z) : safe z -> valid (of_Z z) = true.
Proof.
  intros Hs. destruct (Z.eq_dec z 0) as [-> | Hz]; [reflexivity |].
  rewrite (of_Z_finite z Hz Hs). apply canonical_valid.
  now apply mantissa_canonical.
Qed.

Lemma mantissa_digits (z : Z) :
  z <> 0 -> safe z -> digits2 (mantissa z) = 53.
Proof.
  intros Hz Hs. pose proof (mantissa_canonical z Hz Hs) as [Hc _].
  pose proof (Zdigits2_safe z Hz Hs) as Hd.
  unfold exponent, fexp, emin, prec, emax in Hc. lia.
Qed.

Lemma fmul_commutative (x y : number) : fmul x y = fmul y x.
Proof.
  unfold fmul.
  destruct x as [a | a | | a m e], y as [b | b | | b n f]; cbn [SFmul];
    try reflexivity; try (now rewrite xorb_comm).
  rewrite xorb_comm, Pos.mul_comm, Z.add_comm. reflexivity.
Qed.

(** A number within a quarter of a non-zero integer [N] is rounded to [N]
    by [Math.round]. *)
Lemma Math_round_nearest (T : number) (N : Z) :
  valid T = true -> is_finite T = true -> N <> 0 -> safe N ->
  Z.abs (4 * units T - 4 * N * 2 ^ 1200) <= 2 ^ 1200 ->
  Math_round T = of_Z N.
Proof.
  intros Hv Hf HN Hs Hnear.
  destruct T as [s | s | | s m e]; try discriminate Hf.
  - cbn [units] in Hnear. lia.
  - pose proof (valid_canonical _ _ _ Hv) as Hc.
    pose proof (canonical_bounds _ _ Hc) as [He Hd].
    cbn [units Math_round] in *.
    destruct (Z.leb_spec 0 e) as [Hpos | Hneg].
    + assert (Hsplit : 2 ^ (e + 1200) = 2 ^ e * 2 ^ 1200)
        by (apply Z.pow_add_r; lia).
      assert (HP : 0 < 2 ^ e) by (apply Z.pow_pos_nonneg; lia).
      assert (Hval : cond_Zopp s (Zpos m * 2 ^ e) = N).
      { rewrite Hsplit in Hnear.
        destruct s; cbn [cond_Zopp] in *; lia. }
      assert (Hdm : digits2 m = 53)
        by (destruct Hc as [Hc _]; unfold fexp, emin, prec, emax in Hc; lia).
      pose proof (digits2_bounds m) as [Blo _]. rewrite Hdm in Blo.
      change (53 - 1) with 52 in Blo.
      assert (He0 : e = 0).
      { destruct (Z.eq_dec e 0) as [| Hne]; [assumption | exfalso].
        assert (2 ^ 1 <= 2 ^ e) by (apply Z.pow_le_mono_r; lia).
        unfold safe in Hs. rewrite <- Hval in Hs.
        change (2 ^ 1) with 2 in *.
        destruct s; cbn [cond_Zopp] in Hs; nia. }
      subst e. rewrite Z.pow_0_r, Z.mul_1_r in Hval.
      rewrite (of_Z_finite N HN Hs). subst N.
      unfold mantissa, exponent.
      destruct s; cbn [cond_Zopp Zdigits2 Z.abs Z.opp]; fold (digits2 m);
        rewrite Hdm; cbn [Z.sub Z.add Z.opp Z.pos_sub Z.pow Z.pow_pos Pos.iter
                          Z.ltb Z.compare];
        rewrite ?Z.mul_1_r; reflexivity.
    + set (P := 2 ^ (- e)).
      assert (HP : 0 < P) by (apply Z.pow_pos_nonneg; lia).
      assert (Hsplit : 2 ^ 1200 = P * 2 ^ (e + 1200)).
      { unfold P. rewrite <- Z.pow_add_r by lia. f_equal. lia. }
      assert (HQ : 0 < 2 ^ (e + 1200)) by (apply Z.pow_pos_nonneg; lia).
      assert (H2P : 2 ^ (1 - e) = 2 * P).
      { unfold P. replace (1 - e) with (Z.succ (- e)) by lia.
        apply Z.pow_succ_r. lia. }
      rewrite H2P.
      set (sm := cond_Zopp s (Zpos m)).
      assert (Hunits : cond_Zopp s (Zpos m * 2 ^ (e + 1200))
                       = sm * 2 ^ (e + 1200))
        by (unfold sm; destruct s; cbn [cond_Zopp]; ring).
      rewrite Hunits, Hsplit in Hnear.
      assert (Hclose : Z.abs (4 * sm - 4 * N * P) <= P).
      { replace (4 * (sm * 2 ^ (e + 1200)) - 4 * N * (P * 2 ^ (e + 1200)))
          with ((4 * sm - 4 * N * P) * 2 ^ (e + 1200)) in Hnear by ring.
        rewrite Z.abs_mul, (Z.abs_eq (2 ^ (e + 1200))) in Hnear by lia.
        apply (Z.mul_le_mono_pos_r _ _ (2 ^ (e + 1200))); [exact HQ |].
        exact Hnear. }
      assert (Hq : (2 * sm + P) / (2 * P) = N).
      { symmetry. apply (Z.div_unique _ _ _ (2 * sm + P - 2 * P * N)); lia. }
      rewrite Hq. unfold integral.
      destruct (Z.eqb_spec N 0); [contradiction | reflexivity].
Qed.

(** ** The sum of a rounded sum and a rounded difference *)

(** The bounds in units of [2^1194]. *)
Ltac unit_powers :=
  change (2 ^ 1250) with (2 ^ 56 * 2 ^ 1194) in *;
  change (2 ^ 1200) with (64 * 2 ^ 1194) in *;
  change (2 ^ 1198) with (16 * 2 ^ 1194) in *;
  change (2 ^ 1197) with (8 * 2 ^ 1194) in *;
  change (2 ^ 1196) with (4 * 2 ^ 1194) in *;
  change (2 ^ 1195) with (2 * 2 ^ 1194) in *;
  assert (0 < 2 ^ 1194) by (apply Z.pow_pos_nonneg; lia);
  generalize dependent (2 ^ 1194); intros.

Lemma scaled_error (F x c : Z) :
  0 < F -> Z.abs x <= c -> Z.abs (x * F) <= F * c.
Proof.
  intros HF H.
  rewrite Z.abs_mul, (Z.abs_eq F) by lia. rewrite (Z.mul_comm F).
  apply Z.mul_le_mono_nonneg_r; lia.
Qed.

Section ScaledBy.

(** The factor [F], its mantissa and exponent, and its binary logarithm. *)
Variables (F : Z) (m : positive) (e g : Z).
Hypothesis factor_represented : represents F m e.
Hypothesis factor_logarithm : 0 <= g <= 104 /\ 2 ^ g <= F < 2 ^ (g + 1).

Lemma factor_cancel (x j : Z) :
  g <= j -> F * x < 2 ^ j -> x < 2 ^ (j - g).
Proof.
  intros Hj Hlt. destruct factor_logarithm as [Hg [Hlo Hhi]].
  assert (HG : 0 < 2 ^ g) by (apply Z.pow_pos_nonneg; lia).
  assert (Hsplit : 2 ^ j = 2 ^ g * 2 ^ (j - g)).
  { rewrite <- Z.pow_add_r by lia. f_equal. lia. }
  destruct (Z.lt_ge_cases x (2 ^ (j - g))) as [| Hge]; [assumption | exfalso].
  assert (0 < 2 ^ (j - g)) by (apply Z.pow_pos_nonneg; lia).
  assert (2 ^ g * 2 ^ (j - g) <= F * x).
  { transitivity (F * 2 ^ (j - g)).
    - apply Z.mul_le_mono_nonneg_r; lia.
    - apply Z.mul_le_mono_nonneg_l; lia. }
  lia.
Qed.

Lemma factor_times (j : Z) : g <= j -> F * 2 ^ (j - g) < 2 ^ (j + 1).
Proof.
  intros Hj. destruct factor_logarithm as [Hg [Hlo Hhi]].
  assert (0 < 2 ^ (j - g)) by (apply Z.pow_pos_nonneg; lia).
  replace (2 ^ (j + 1)) with (2 ^ (g + 1) * 2 ^ (j - g))
    by (rewrite <- Z.pow_add_r by lia; f_equal; lia).
  apply Z.mul_lt_mono_pos_r; lia.
Qed.

(** The quotient of an integer below [2^48] by [F]. *)
Lemma quotient_error (U : Z) :
  Z.abs U < 2 ^ 48 ->
  valid (fdiv (of_Z U) (S754_finite false m e)) = true /\
  is_finite (fdiv (of_Z U) (S754_finite false m e)) = true /\
  Z.abs (units (fdiv (of_Z U) (S754_finite false m e)) * F - U * 2 ^ 1200)
    <= 2 ^ 1195.
Proof.
  intros HU. destruct factor_logarithm as [Hg [Hlo Hhi]].
  pose proof (represents_positive _ _ _ factor_represented) as HF.
  destruct (Z.eq_dec U 0) as [-> | Hz].
  - repeat apply conj; try reflexivity. cbn. lia.
  - assert (Hs : safe U) by (unfold safe; lia).
    pose proof (units_of_Z U Hs) as Hunits.
    rewrite (of_Z_finite U Hz Hs) in *.
    pose proof (Zdigits2_safe U Hz Hs) as Hd.
    destruct (fdiv_units (U <? 0) (mantissa U) m (exponent U) e F
                (mantissa_digits U Hz Hs) ltac:(unfold exponent; lia)
                factor_represented)
      as (e1 & Hbound & Hv & Hf & Herr).
    repeat apply conj; try assumption.
    rewrite Hunits in Herr.
    assert (He1 : e1 <= 48 - g - 53).
    { transitivity (fexp prec emax (48 - g)).
      - apply Hbound; [lia |].
        assert (Hmag : Zpos (mantissa U) * 2 ^ (exponent U + 1200)
                       = Z.abs U * 2 ^ 1200).
        { cbn [units] in Hunits.
          destruct (Z.ltb_spec U 0); cbn [cond_Zopp] in Hunits; lia. }
        rewrite Hmag.
        assert (Hsplit : 2 ^ 48 * 2 ^ 1200 = 2 ^ g * 2 ^ (48 - g + 1200)).
        { rewrite <- !Z.pow_add_r by lia. f_equal. lia. }
        assert (0 < 2 ^ (48 - g + 1200)) by (apply Z.pow_pos_nonneg; lia).
        assert (2 ^ g * 2 ^ (48 - g + 1200) <= F * 2 ^ (48 - g + 1200))
          by (apply Z.mul_le_mono_nonneg_r; lia).
        assert (Z.abs U * 2 ^ 1200 < 2 ^ 48 * 2 ^ 1200)
          by (apply Z.mul_lt_mono_pos_r; lia).
        lia.
      - unfold fexp, emin, prec, emax. lia. }
    assert (Hpow : 2 ^ (e1 + 1199) <= 2 ^ (1194 - g))
      by (apply Z.pow_le_mono_r; lia).
    pose proof (factor_times 1194 ltac:(lia)) as Htimes.
    change (1194 + 1) with 1195 in Htimes.
    assert (F * 2 ^ (e1 + 1199) <= F * 2 ^ (1194 - g))
      by (apply Z.mul_le_mono_nonneg_l; lia).
    lia.
Qed.

(** The sum of two such quotients. *)
Lemma sum_error (A B : number) (U V : Z) :
  valid A = true -> is_finite A = true ->
  valid B = true -> is_finite B = true ->
  Z.abs (units A * F - U * 2 ^ 1200) <= 2 ^ 1195 ->
  Z.abs (units B * F - V * 2 ^ 1200) <= 2 ^ 1195 ->
  Z.abs (U + V) < 2 ^ 49 ->
  valid (fadd A B) = true /\ is_finite (fadd A B) = true /\
  Z.abs (units (fadd A B) * F - (U + V) * 2 ^ 1200) <= 3 * 2 ^ 1196.
Proof.
  intros HvA HfA HvB HfB HA HB HUV.
  destruct factor_logarithm as [Hg [Hlo Hhi]].
  pose proof (represents_positive _ _ _ factor_represented) as HF.
  assert (Hsum : Z.abs (units A + units B) < 2 ^ (50 - g + 1200)).
  { replace (50 - g + 1200) with (1250 - g) by lia.
    apply factor_cancel; [lia |].
    rewrite <- (Z.abs_eq F) at 1 by lia. rewrite <- Z.abs_mul.
    replace (F * (units A + units B)) with (units A * F + units B * F) by ring.
    assert (Z.abs (U + V) * 2 ^ 1200 <= (2 ^ 49 - 1) * 2 ^ 1200)
      by (apply Z.mul_le_mono_nonneg_r; lia).
    assert (Z.abs ((U + V) * 2 ^ 1200) = Z.abs (U + V) * 2 ^ 1200)
      by (rewrite Z.abs_mul; f_equal).
    clear Hlo Hhi. unit_powers. lia. }
  destruct (fadd_error A B (50 - g) HvA HvB HfA HfB ltac:(lia) Hsum)
    as (Hv & Hf & Herr).
  repeat apply conj; try assumption.
  replace (50 - g + 1146) with (1196 - g) in Herr by lia.
  apply (scaled_error F _ _ HF) in Herr.
  pose proof (factor_times 1196 ltac:(lia)) as Htimes.
  change (1196 + 1) with 1197 in Htimes.
  replace ((units (fadd A B) - (units A + units B)) * F)
    with (units (fadd A B) * F - units A * F - units B * F) in Herr by ring.
  clear Hlo Hhi Hsum. unit_powers. lia.
Qed.

(** The sum scaled back and rounded to the nearest integer. *)
Lemma product_error (S : number) (N : Z) :
  valid S = true -> is_finite S = true ->
  Z.abs (units S * F - N * 2 ^ 1200) <= 3 * 2 ^ 1196 ->
  Z.abs N < 2 ^ 49 -> N <> 0 ->
  Math_round (fmul S (S754_finite false m e)) = of_Z N.
Proof.
  intros Hv Hf HS HN HN0.
  pose proof (represents_positive _ _ _ factor_represented) as HF.
  assert (Hmag : Z.abs (N * 2 ^ 1200) <= (2 ^ 49 - 1) * 2 ^ 1200).
  { rewrite Z.abs_mul. apply Z.mul_le_mono_nonneg; lia. }
  assert (Hlt : Z.abs (units S) * F < 2 ^ (50 + 1200)).
  { rewrite <- (Z.abs_eq F) at 1 by lia. rewrite <- Z.abs_mul.
    change (2 ^ (50 + 1200)) with (2 ^ 1250).
    unit_powers. lia. }
  destruct (fmul_error S F m e 50 Hv Hf factor_represented ltac:(lia) Hlt)
    as (HvT & HfT & Herr).
  apply Math_round_nearest; try assumption.
  - unfold safe. lia.
  - change (2 ^ (50 + 1146)) with (2 ^ 1196) in Herr.
    clear Hlt. unit_powers. lia.
Qed.

(** Twice an operand whose scaled value is the integer [X], scaled and
    rounded to the nearest integer. *)
Lemma twice_error (a : number) (X : Z) :
  valid a = true -> fmul a (S754_finite false m e) = of_Z X ->
  X <> 0 -> Z.abs X < 2 ^ 48 ->
  Math_round (fmul (fmul (of_Z 2) a) (S754_finite false m e)) = of_Z (2 * X).
Proof.
  intros Hv Ha HX0 HX. destruct factor_logarithm as [Hg [Hlo Hhi]].
  pose proof (represents_positive _ _ _ factor_represented) as HF.
  assert (Hs : safe X) by (unfold safe; lia).
  pose proof (units_of_Z X Hs) as Hunits.
  rewrite (of_Z_finite X HX0 Hs) in Ha, Hunits.
  assert (Hf : is_finite a = true)
    by (destruct a as [s | s | | s ma ea]; try reflexivity; discriminate Ha).
  destruct (fmul_error_of_result a F m e _ _ _ Hv factor_represented Ha)
    as [_ Herr].
  rewrite Hunits in Herr.
  assert (He : exponent X <= -5).
  { pose proof (Zdigits2_bounds X HX0) as [Blo _].
    unfold exponent.
    destruct (Z.le_gt_cases (Zdigits2 X) 48) as [| Hgt]; [lia |].
    assert (2 ^ 48 <= 2 ^ (Zdigits2 X - 1)) by (apply Z.pow_le_mono_r; lia).
    lia. }
  assert (Hpow : 2 ^ (exponent X + 1199) <= 2 ^ 1194)
    by (apply Z.pow_le_mono_r; lia).
  assert (Hmag : Z.abs (X * 2 ^ 1200) <= (2 ^ 48 - 1) * 2 ^ 1200).
  { rewrite Z.abs_mul. apply Z.mul_le_mono_nonneg; lia. }
  assert (Htwo : represents 2 4503599627370496 (-51)).
  { repeat apply conj; try reflexivity; lia. }
  rewrite (fmul_commutative (of_Z 2) a).
  change (of_Z 2) with (S754_finite false 4503599627370496 (-51)).
  assert (Hlt : Z.abs (units a) * 2 < 2 ^ (49 - g + 1200)).
  { replace (49 - g + 1200) with (1249 - g) by lia.
    apply factor_cancel; [lia |].
    replace (F * (Z.abs (units a) * 2)) with (2 * (Z.abs (units a) * F))
      by ring.
    rewrite <- (Z.abs_eq F) at 1 by lia. rewrite <- Z.abs_mul.
    change (2 ^ 1249) with (2 ^ 55 * 2 ^ 1194).
    clear Hlo Hhi. unit_powers. lia. }
  destruct (fmul_error a 2 _ _ (49 - g) Hv Hf Htwo ltac:(lia) Hlt)
    as (Hv2 & Hf2 & Herr2).
  replace (49 - g + 1146) with (1195 - g) in Herr2 by lia.
  apply (scaled_error F _ _ HF) in Herr2.
  pose proof (factor_times 1195 ltac:(lia)) as Htimes.
  change (1195 + 1) with 1196 in Htimes.
  apply product_error; try assumption; lia.
Qed.

(** The scaled sum and difference of two operands whose scaled values are
    the integers [X <> 0] and [Y]. *)
Lemma sum_and_difference_error (X Y : Z) :
  X <> 0 -> Z.abs X + Z.abs Y < 2 ^ 48 ->
  Math_round
    (fmul (fadd (fdiv (of_Z (X + Y)) (S754_finite false m e))
                (fdiv (of_Z (X - Y)) (S754_finite false m e)))
          (S754_finite false m e))
  = of_Z (2 * X).
Proof.
  intros HX0 HXY.
  destruct (quotient_error (X + Y) ltac:(lia)) as (HvA & HfA & HA).
  destruct (quotient_error (X - Y) ltac:(lia)) as (HvB & HfB & HB).
  destruct (sum_error _ _ _ _ HvA HfA HvB HfB HA HB ltac:(lia))
    as (HvS & HfS & HS).
  replace (X + Y + (X - Y)) with (2 * X) in HS by lia.
  apply product_error; try assumption; lia.
Qed.

End ScaledBy.

(** A product with [F] that is [+0] has the operand [+0]. *)
Lemma fmul_zero_operand (F : Z) (m : positive) (e : Z) (a : number) :
  represents F m e ->
  valid a = true -> fmul a (S754_finite false m e) = of_Z 0 ->
  a = S754_zero false.
Proof.
  intros factor_represented Hv Ha.
  change (of_Z 0) with (S754_zero false) in Ha.
  pose proof (represents_positive _ _ _ factor_represented) as HF.
  destruct a as [s | s | | sx mx ex]; try discriminate Ha.
  - now destruct s.
  - exfalso.
    pose proof (canonical_bounds _ _ (valid_canonical _ _ _ Hv)) as [Hex _].
    destruct (fmul_units sx mx m ex e F (valid_canonical _ _ _ Hv)
                factor_represented) as (e1 & Hbound & Hcases).
    destruct Hcases as [[Hinf _] | (_ & _ & _ & Herr)];
      [rewrite Hinf in Ha; discriminate Ha |].
    rewrite Ha in Herr. cbn [units] in Herr.
    set (v := Zpos mx * 2 ^ (ex + 1200) * F) in *.
    assert (Hv126 : 2 ^ 126 <= v).
    { unfold v.
      assert (2 ^ 126 <= 2 ^ (ex + 1200)) by (apply Z.pow_le_mono_r; lia).
      assert (2 ^ (ex + 1200) <= Zpos mx * 2 ^ (ex + 1200)) by nia.
      assert (1 * (Zpos mx * 2 ^ (ex + 1200))
              <= F * (Zpos mx * 2 ^ (ex + 1200)))
        by (apply Z.mul_le_mono_nonneg_r; lia).
      lia. }
    assert (Hmag : v <= 2 ^ (e1 + 1199))
      by (destruct sx; cbn [cond_Zopp] in Herr; lia).
    pose proof (Z.log2_spec v ltac:(lia)) as [Hlo Hhi].
    assert (Hlog : 126 <= Z.log2 v).
    { apply Z.log2_le_pow2; lia. }
    specialize (Hbound (Z.log2 v - 1199) ltac:(lia)).
    replace (Z.log2 v - 1199 + 1200) with (Z.succ (Z.log2 v)) in Hbound by lia.
    specialize (Hbound Hhi).
    assert (Hle : Z.log2 v <= e1 + 1199).
    { destruct (Z.le_gt_cases (Z.log2 v) (e1 + 1199)) as [| Hgt];
        [assumption | exfalso].
      destruct (Z.le_gt_cases 0 (e1 + 1199)) as [Hnn | Hneg].
      - assert (2 ^ (e1 + 1199 + 1) <= 2 ^ Z.log2 v)
          by (apply Z.pow_le_mono_r; lia).
        rewrite Z.pow_add_r in H by lia. change (2 ^ 1) with 2 in H.
        assert (0 < 2 ^ (e1 + 1199)) by (apply Z.pow_pos_nonneg; lia).
        lia.
      - rewrite Z.pow_neg_r in Hmag by lia. lia. }
    unfold fexp, emin, prec, emax in Hbound. lia.
Qed.

(** ** Opposite operands *)

Lemma binary_round_aux_opp (s : bool) (mx ex : Z) (lx : location) :
  binary_round_aux prec emax (negb s) mx ex lx
  = SFopp (binary_round_aux prec emax s mx ex lx).
Proof.
  unfold binary_round_aux.
  destruct (shr_fexp prec emax mx ex lx) as [mrs' e'].
  destruct (shr_fexp prec emax _ e' loc_Exact) as [mrs'' e''].
  destruct (shr_m mrs''); [reflexivity | | reflexivity].
  now destruct (e'' <=? emax - prec).
Qed.

Lemma fdiv_opp (x y : number) : fdiv (SFopp x) y = SFopp (fdiv x y).
Proof.
  unfold fdiv.
  destruct x as [a | a | | a mx ex], y as [b | b | | b my ey];
    cbn [SFopp SFdiv]; try reflexivity;
    try (now destruct a, b).
  destruct (SFdiv_core_binary prec emax (Zpos mx) ex (Zpos my) ey)
    as [[mz ez] lz].
  rewrite <- binary_round_aux_opp. f_equal. now destruct a, b.
Qed.

Lemma fadd_opposite (x : number) :
  is_finite x = true -> fadd x (SFopp x) = S754_zero false.
Proof.
  intros Hf. unfold fadd.
  destruct x as [s | s | | s mx ex]; try discriminate Hf; cbn [SFopp SFadd].
  - now destruct s.
  - replace (cond_Zopp s (Zpos (fst (shl_align mx ex (IntDef.Z.min ex ex))))
             + cond_Zopp (negb s)
                 (Zpos (fst (shl_align mx ex (IntDef.Z.min ex ex)))))
      with 0 by (destruct s; cbn [cond_Zopp negb]; lia).
    reflexivity.
Qed.

(** The powers of ten that binary64 represents exactly. *)
Lemma power_of_ten_represented (p : Z) :
  0 <= p <= 22 ->
  exists (m : positive) (e g : Z),
    of_Z (10 ^ p) = S754_finite false m e /\
    represents (10 ^ p) m e /\
    0 <= g <= 104 /\ 2 ^ g <= 10 ^ p < 2 ^ (g + 1).
Proof.
  intros Hp.
  assert (Hcases : In p (map Z.of_nat (seq 0 23))).
  { replace p with (Z.of_nat (Z.to_nat p)) by lia.
    apply in_map, in_seq. lia. }
  cbv [seq map Z.of_nat Pos.of_succ_nat Pos.succ In] in Hcases.
  repeat (destruct Hcases as [<- | Hcases];
          [eexists; eexists;
           match goal with
           | |- exists g : Z, _ /\ _ /\ _ /\ _ <= ?F < _ => exists (Z.log2 F)
           end;
           split; [vm_compute; reflexivity |];
           split; [repeat apply conj;
                   [vm_compute; reflexivity | lia | lia
                   | vm_compute; reflexivity] |];
           split; [vm_compute; split; discriminate |];
           vm_compute; split; [discriminate | reflexivity] |]).
  contradiction.
Qed.

(** ** The sum of [preciseAdd] and [preciseSubtract] on decimal operands *)

Lemma sum_and_difference_of_scaled (Math_pow : number -> number -> number)
    (a b : number) (X Y p : Z) :
  pow_ten_exact Math_pow ->
  valid a = true ->
  Z.max (getDecimalPlaces a) (getDecimalPlaces b) = p ->
  0 <= p <= 22 ->
  fmul a (of_Z (10 ^ p)) = of_Z X ->
  fmul b (of_Z (10 ^ p)) = of_Z Y ->
  Z.abs X + Z.abs Y < 2 ^ 48 ->
  sum_and_difference_twice Math_pow a b.
Proof.
  intros exact Hv Hp Hr Ha Hb Hsmall.
  assert (SX : safe X) by (unfold safe; lia).
  assert (SY : safe Y) by (unfold safe; lia).
  assert (Sadd : safe (X + Y)) by (unfold safe; lia).
  assert (Ssub : safe (X - Y)) by (unfold safe; lia).
  unfold sum_and_difference_twice. cbv zeta. rewrite Hp.
  unfold round_to_places. rewrite (exact p Hr).
  rewrite (preciseAdd_eval _ exact a b p Hp Hr), Ha, Hb.
  rewrite (preciseSubtract_eval _ exact a b p Hp Hr), Ha, Hb.
  rewrite fadd_integers, fsub_integers, !Math_round_integer by assumption.
  destruct (power_of_ten_represented p Hr) as (m & e & g & HF & Hrep & Hg).
  rewrite HF in *.
  destruct (Z.eq_dec X 0) as [-> | HX0].
  - rewrite (fmul_zero_operand _ m e a Hrep Hv Ha).
    replace (0 + Y) with Y by lia. replace (0 - Y) with (- Y) by lia.
    destruct (Z.eq_dec Y 0) as [-> | HY0]; [reflexivity |].
    rewrite <- (of_Z_opp Y HY0 SY), fdiv_opp.
    destruct (quotient_error _ m e g Hrep Hg Y ltac:(lia)) as (_ & Hf & _).
    rewrite (fadd_opposite _ Hf). reflexivity.
  - rewrite (sum_and_difference_error _ m e g Hrep Hg X Y HX0 Hsmall).
    rewrite (twice_error _ m e g Hrep Hg a X Hv Ha HX0 ltac:(lia)).
    reflexivity.
Qed.



(** The bound [2^48] cannot be raised to [2^52]: at [a = 0.1] and
    [b = 400000000000000] the scaled operands are [1] and
    [4000000000000000], the sum of [preciseAdd] and [preciseSubtract]
    rounds to [0.3] and [2 * a] to [0.2]. *)
Lemma sum_and_difference_needs_magnitude_bound :
  fmul (of_decimal 1 (-1)) (of_Z 10) = of_Z 1 /\
  fmul (of_Z 400000000000000) (of_Z 10) = of_Z 4000000000000000 /\
  1 + 4000000000000000 < 2 ^ 52 /\
  round_to_places integer_pow 1
    (fadd (preciseAdd integer_pow (of_decimal 1 (-1)) (of_Z 400000000000000))
          (preciseSubtract integer_pow (of_decimal 1 (-1))
             (of_Z 400000000000000)))
  = of_decimal 3 (-1) /\
  round_to_places integer_pow 1 (fmul (of_Z 2) (of_decimal 1 (-1)))
  = of_decimal 2 (-1) /\
  ~ sum_and_difference_twice integer_pow
      (of_decimal 1 (-1)) (of_Z 400000000000000).
Proof.
  assert (Hp : Z.max (getDecimalPlaces (of_decimal 1 (-1)))
                     (getDecimalPlaces (of_Z 400000000000000)) = 1)
    by (vm_compute; reflexivity).
  assert (Hsum : round_to_places integer_pow 1
            (fadd (preciseAdd integer_pow (of_decimal 1 (-1))
                     (of_Z 400000000000000))
                  (preciseSubtract integer_pow (of_decimal 1 (-1))
                     (of_Z 400000000000000)))
          = of_decimal 3 (-1)) by (vm_compute; reflexivity).
  assert (Htwice : round_to_places integer_pow 1
                     (fmul (of_Z 2) (of_decimal 1 (-1)))
                   = of_decimal 2 (-1)) by (vm_compute; reflexivity).
  repeat apply conj; try (vm_compute; reflexivity); try assumption.
  unfold sum_and_difference_twice. rewrite Hp. cbv zeta.
  rewrite Hsum, Htwice. apply different. vm_compute. reflexivity.
Qed.
